(** * Card generation and admission control: a shallow embedding

    This development embeds the card-generation pipeline of
    [webapp/backend/app/services/card_generator.py] and the admission
    controller of [webapp/backend/app/services/rate_limiter.py] and checks
    the statements of the specification against them.  It also embeds what
    surrounds the two services: the caller of the generator in
    [services/premium_features.py], the validators of the request models in
    [routes/cards.py] and the limit per address of [utils/ip_rate_limit.py].

    Conventions of the embedding:
    - Python [int] is [Z]; Python [str] is [string], a sequence of the code
      points 0..255 (Latin-1): the tests for white space and digits, [upper]
      and [repr] are those of Python on these code points (the two letters
      whose capitals lie beyond 255 are kept by [upper]);
    - a [datetime] is its number of microseconds since the epoch, between
      the first and the last [datetime]; adding a [timedelta] raises
      [OverflowError] outside this range;
    - a Python exception is a value of [exn], a computation that may raise
      lives in [result], one that also draws random numbers lives in [rand];
    - [random] is an oracle: a stream of natural numbers, one consumed per
      draw;
    - the database session is a pair of lookup functions, the clock and the
      answers of the shared store are inputs of a call;
    - the first part holds the definitions, taken from the source files (and
      from the standard library where they call it); the second part holds
      the properties. *)

From Stdlib Require Import ZArith String Ascii List DecimalString Lia.
From stdpp Require Import base gmap strings list.

Local Open Scope Z_scope.

(** ** The fragment of Python the two services use *)

Module Py.

Inductive exn : Type :=
| NameError (name : string)
| ValueError (msg : string)
| TypeError
| KeyError
| IndexError
| OverflowError.

Inductive result (A : Type) : Type :=
| Ok (a : A)
| Raise (e : exn).
Arguments Ok {A} a.
Arguments Raise {A} e.

#[global] Instance result_ret : MRet result := fun A a => Ok a.
#[global] Instance result_bind : MBind result := fun A B f m =>
  match m with
  | Ok a => f a
  | Raise e => Raise e
  end.

Definition is_ok {A} (r : result A) : bool :=
  match r with Ok _ => true | Raise _ => false end.

(** [for x in xs: acc = f(acc, x)] with a body that may raise. *)
Fixpoint foldM {A B} (f : B -> A -> result B) (acc : B) (xs : list A) : result B :=
  match xs with
  | [] => Ok acc
  | x :: rest => acc' ← f acc x; foldM f acc' rest
  end.

(** [[f(x) for x in xs]] with an element expression that may raise. *)
Fixpoint mapM {A B} (f : A -> result B) (xs : list A) : result (list B) :=
  match xs with
  | [] => Ok []
  | x :: rest => y ← f x; ys ← mapM f rest; Ok (y :: ys)
  end.

(** [any(f(x) for x in xs)]: stops at the first true element. *)
Fixpoint anyM {A} (f : A -> result bool) (xs : list A) : result bool :=
  match xs with
  | [] => Ok false
  | x :: rest => b ← f x; if b : bool then Ok true else anyM f rest
  end.

(** [range(n)]; empty when [n] is not positive. *)
Definition range (n : Z) : list Z := map Z.of_nat (seq 0 (Z.to_nat n)).

Definition sum (l : list Z) : Z := fold_right Z.add 0 l.

(** *** Strings *)

Definition chars (s : string) : list ascii := list_ascii_of_string s.

Definition len (s : string) : Z := Z.of_nat (String.length s).

(** [str(n)] for an integer. *)
Definition str (n : Z) : string := NilZero.string_of_int (Z.to_int n).

Definition is_digit (c : ascii) : bool :=
  let n := nat_of_ascii c in (48 <=? n)%nat && (n <=? 57)%nat.

(** The two lower-case hexadecimal digits of a code point. *)
Definition hex_digit (n : nat) : ascii :=
  if (n <? 10)%nat then ascii_of_nat (48 + n) else ascii_of_nat (87 + n).

Definition hex2 (n : nat) : string :=
  String (hex_digit (n / 16)) (String (hex_digit (n mod 16)) EmptyString).

(** [repr(c)] for a one-character string: the character between single
    quotes, with the backslash doubled, tab, line feed and carriage return
    as [\t], [\n] and [\r], the other non-printable code points (below 32,
    127 to 160 and 173) as [\x] and two hexadecimal digits; the single quote
    itself is written between double quotes. *)
Definition repr_char (c : ascii) : string :=
  let n := nat_of_ascii c in
  let double_quote := String (ascii_of_nat 34) EmptyString in
  if (n =? 39)%nat then double_quote +:+ "'" +:+ double_quote
  else
    let body :=
      if (n =? 92)%nat then "\\"%string
      else if (n =? 9)%nat then "\t"%string
      else if (n =? 10)%nat then "\n"%string
      else if (n =? 13)%nat then "\r"%string
      else if (n <? 32)%nat || ((127 <=? n)%nat && (n <=? 160)%nat) || (n =? 173)%nat
           then "\x" +:+ hex2 n
      else String c EmptyString in
    "'" +:+ body +:+ "'".

(** The message of the [ValueError] that [int(c)] raises. *)
Definition invalid_literal (c : ascii) : string :=
  "invalid literal for int() with base 10: " +:+ repr_char c.

(** [int(c)] for a one-character string: only the ten decimal digits are
    accepted among the code points below 256. *)
Definition int_of_char (c : ascii) : result Z :=
  if is_digit c then Ok (Z.of_nat (nat_of_ascii c) - 48)
  else Raise (ValueError (invalid_literal c)).

(** [str.isspace] on the code points below 256. *)
Definition is_space (c : ascii) : bool :=
  let n := nat_of_ascii c in
  ((9 <=? n)%nat && (n <=? 13)%nat) || ((28 <=? n)%nat && (n <=? 32)%nat)
  || (n =? 133)%nat || (n =? 160)%nat.

Fixpoint lstrip (s : string) : string :=
  match s with
  | EmptyString => EmptyString
  | String c rest => if is_space c then lstrip rest else s
  end.

Fixpoint rstrip (s : string) : string :=
  match s with
  | EmptyString => EmptyString
  | String c rest =>
      match rstrip rest with
      | EmptyString => if is_space c then EmptyString else String c EmptyString
      | kept => String c kept
      end
  end.

Definition strip (s : string) : string := rstrip (lstrip s).

(** [c.upper()] for a one-character string.  The letters a to z, the
    Latin-1 letters 224 to 254 (the division sign 247 apart) have their
    capital 32 code points below; the sharp s (223) becomes the two letters
    SS; every other code point below 256 is its own capital, except the micro
    sign (181) and the y with diaeresis (255), whose capitals are U+039C and
    U+0178: no [string] holds them, so both characters are kept as they are.
    Either way the character is none of the ASCII characters, which is all
    that the code asks of an upper-cased string: it searches it for ASCII
    words and looks it up among ASCII keys. *)
Definition upper_char (c : ascii) : string :=
  let n := nat_of_ascii c in
  if (97 <=? n)%nat && (n <=? 122)%nat then String (ascii_of_nat (n - 32)) EmptyString
  else if (n =? 223)%nat then "SS"%string
  else if (224 <=? n)%nat && (n <=? 254)%nat && negb (n =? 247)%nat
       then String (ascii_of_nat (n - 32)) EmptyString
  else String c EmptyString.

(** [s.upper()]. *)
Fixpoint upper (s : string) : string :=
  match s with
  | EmptyString => EmptyString
  | String c rest => upper_char c +:+ upper rest
  end.

(** [needle in haystack] for strings. *)
Fixpoint contains (needle haystack : string) : bool :=
  String.prefix needle haystack ||
  match haystack with
  | EmptyString => false
  | String _ rest => contains needle rest
  end.

Definition startswith (s p : string) : bool := String.prefix p s.

(** [s[:n]] for [n >= 0]. *)
Definition take (n : nat) (s : string) : string := substring 0 n s.

(** [s[a:b]] for [0 <= a <= b]. *)
Definition slice (a b : nat) (s : string) : string := substring a (b - a) s.

(** [s[a:]]. *)
Definition drop (a : nat) (s : string) : string :=
  substring a (String.length s - a) s.

(** [s[i]], negative indices counting from the end. *)
Definition index (s : string) (i : Z) : result ascii :=
  let j := if i <? 0 then len s + i else i in
  if (j <? 0) || (len s <=? j) then Raise IndexError
  else match String.get (Z.to_nat j) s with
       | Some c => Ok c
       | None => Raise IndexError
       end.

(** [''.join(map(str, xs))]. *)
Definition join_str (xs : list Z) : string :=
  fold_right (fun d acc => str d +:+ acc) EmptyString xs.

(** [l[-1::-2]] is [every_second (rev l)], [l[-2::-2]] is
    [every_second (tail (rev l))]. *)
Fixpoint every_second {A} (l : list A) : list A :=
  match l with
  | [] => []
  | x :: t => x :: match t with
                   | [] => []
                   | _ :: t' => every_second t'
                   end
  end.

(** *** Name resolution

    A name that is bound in the function being embedded is a Gallina
    variable.  A name that the function never binds is compiled to a global
    load: it is looked up among the module's globals and then among the
    builtins, and [NameError] is raised when both miss.  [builtins] lists the
    builtin functions and constants and the names every module has; the
    builtin exception classes are left out, their names all being longer
    than one letter. *)

Inductive pyobj : Type :=
| PyInt (n : Z)
| PyGlobal (name : string).

#[global] Instance pyobj_eq_dec : EqDecision pyobj.
Proof. solve_decision. Defined.

Definition builtins : list string :=
  [ "abs"; "aiter"; "all"; "anext"; "any"; "ascii"; "bin"; "bool";
    "breakpoint"; "bytearray"; "bytes"; "callable"; "chr"; "classmethod";
    "compile"; "complex"; "delattr"; "dict"; "dir"; "divmod"; "enumerate";
    "eval"; "exec"; "filter"; "float"; "format"; "frozenset"; "getattr";
    "globals"; "hasattr"; "hash"; "help"; "hex"; "id"; "input"; "int";
    "isinstance"; "issubclass"; "iter"; "len"; "list"; "locals"; "map";
    "max"; "memoryview"; "min"; "next"; "object"; "oct"; "open"; "ord";
    "pow"; "print"; "property"; "range"; "repr"; "reversed"; "round";
    "set"; "setattr"; "slice"; "sorted"; "staticmethod"; "str"; "sum";
    "super"; "tuple"; "type"; "vars"; "zip"; "__import__"; "True"; "False";
    "None"; "Ellipsis"; "NotImplemented"; "__debug__"; "__name__";
    "__doc__"; "__file__"; "__builtins__"; "__package__"; "__spec__";
    "__loader__"; "exit"; "quit"; "copyright"; "credits"; "license" ]%string.

Definition load_global (module_globals : list string) (name : string) : result pyobj :=
  if bool_decide (name ∈ module_globals ++ builtins) then Ok (PyGlobal name)
  else Raise (NameError name).

(** An object used where an [int] is required. *)
Definition as_int (o : pyobj) : result Z :=
  match o with
  | PyInt n => Ok n
  | PyGlobal _ => Raise TypeError
  end.

(** *** Dictionaries keyed by objects, in insertion order *)

Definition dict (V : Type) : Type := list (pyobj * V).

Fixpoint dict_get {V} (d : dict V) (k : pyobj) : result V :=
  match d with
  | [] => Raise KeyError
  | (k', v) :: rest => if decide (k' = k) then Ok v else dict_get rest k
  end.

Fixpoint dict_set {V} (d : dict V) (k : pyobj) (v : V) : dict V :=
  match d with
  | [] => [(k, v)]
  | (k', v') :: rest =>
      if decide (k' = k) then (k', v) :: rest else (k', v') :: dict_set rest k v
  end.

(** [{key(x): value(x) for x in xs}]: entries are evaluated and stored in
    iteration order. *)
Definition dict_comp {A V} (entry : A -> result (pyobj * V)) (xs : list A) : result (dict V) :=
  foldM (fun d x => kv ← entry x; Ok (dict_set d kv.1 kv.2)) [] xs.

(** *** Randomness *)

Definition rng : Type := nat -> nat.

Definition rand (A : Type) : Type := rng -> result (A * rng).

#[global] Instance rand_ret : MRet rand := fun A a g => Ok (a, g).
#[global] Instance rand_bind : MBind rand := fun A B f m g =>
  match m g with
  | Ok (a, g') => f a g'
  | Raise e => Raise e
  end.

Definition lift {A} (r : result A) : rand A := fun g =>
  match r with
  | Ok a => Ok (a, g)
  | Raise e => Raise e
  end.

Definition draw : rand nat := fun g => Ok (g 0%nat, fun n => g (S n)).

(** [random.choice(seq)].  Which element a draw selects is a convention of
    the oracle; what is used of it is that the element is one of [seq] and
    that every element of [seq] is selected by some draw. *)
Definition choice {A} (seq : list A) : rand A :=
  r ← draw;
  match seq !! (r mod length seq)%nat with
  | Some x => mret x
  | None => lift (Raise IndexError)
  end.

(** [random.randint(a, b)]. *)
Definition randint (a b : Z) : rand Z :=
  if b <? a then lift (Raise (ValueError "empty range for randrange()"))
  else r ← draw; mret (a + Z.of_nat r mod (b - a + 1)).

(** The element of [population] whose cumulative weight interval contains
    the point [x]. *)
Fixpoint pick_weighted {A} (population : list A) (weights : list Z) (x : Z) : option A :=
  match population, weights with
  | p :: ps, w :: ws => if x <? w then Some p else pick_weighted ps ws (x - w)
  | _, _ => None
  end.

(** [random.choices(population, weights=weights)[0]]. *)
Definition choices {A} (population : list A) (weights : list Z) : rand A :=
  if negb (length population =? length weights)%nat then
    lift (Raise (ValueError "The number of weights does not match the population"))
  else if sum weights <=? 0 then
    lift (Raise (ValueError "Total of weights must be greater than zero"))
  else
    r ← draw;
    match pick_weighted population weights (Z.of_nat r mod sum weights) with
    | Some x => mret x
    | None => lift (Raise IndexError)
    end.

(** [for _ in range(n): acc = body(acc)] with a random body. *)
Fixpoint repeatM {B} (n : nat) (body : B -> rand B) (acc : B) : rand B :=
  match n with
  | O => mret acc
  | S k => acc' ← body acc; repeatM k body acc'
  end.

End Py.
Import Py.

(** ** The calendar arithmetic of [datetime]

    [datetime.now() + timedelta(days=k)] converts the date to its proleptic
    Gregorian ordinal, adds [k] and converts back; the functions below are
    the ones the standard library uses for the two conversions. *)

Module Datetime.

Record datetime : Type := {
  year : Z;
  month : Z;
  day : Z;
  hour : Z;
  minute : Z;
  second : Z;
  microsecond : Z
}.

Definition MAXORDINAL : Z := 3652059.

Definition _DAYS_IN_MONTH : list Z :=
  [-1; 31; 28; 31; 30; 31; 30; 31; 31; 30; 31; 30; 31].

Definition _DAYS_BEFORE_MONTH : list Z :=
  [-1; 0; 31; 59; 90; 120; 151; 181; 212; 243; 273; 304; 334].

Definition table (t : list Z) (i : Z) : Z := nth (Z.to_nat i) t 0.

Definition _is_leap (y : Z) : bool :=
  (y mod 4 =? 0) && (negb (y mod 100 =? 0) || (y mod 400 =? 0)).

Definition _days_before_year (y : Z) : Z :=
  let y := y - 1 in y * 365 + y / 4 - y / 100 + y / 400.

Definition _days_in_month (y m : Z) : Z :=
  if (m =? 2) && _is_leap y then 29 else table _DAYS_IN_MONTH m.

Definition _days_before_month (y m : Z) : Z :=
  table _DAYS_BEFORE_MONTH m + (if (m >? 2) && _is_leap y then 1 else 0).

Definition _ymd2ord (y m d : Z) : Z :=
  _days_before_year y + _days_before_month y m + d.

Definition _DI400Y : Z := 146097.
Definition _DI100Y : Z := 36524.
Definition _DI4Y : Z := 1461.

(** The last lines of [_ord2ymd]: from the day of the year, counted from
    zero, to the month and the day of the month. *)
Definition month_and_day (n : Z) (leapyear : bool) : Z * Z :=
  let month := Z.shiftr (n + 50) 5 in
  let preceding :=
    table _DAYS_BEFORE_MONTH month + (if (month >? 2) && leapyear then 1 else 0) in
  if preceding >? n then
    let month := month - 1 in
    let preceding :=
      preceding - (table _DAYS_IN_MONTH month
                   + (if (month =? 2) && leapyear then 1 else 0)) in
    (month, n - preceding + 1)
  else (month, n - preceding + 1).

Definition _ord2ymd (n : Z) : Z * Z * Z :=
  let n := n - 1 in
  let n400 := n / _DI400Y in
  let n := n mod _DI400Y in
  let year := n400 * 400 + 1 in
  let n100 := n / _DI100Y in
  let n := n mod _DI100Y in
  let n4 := n / _DI4Y in
  let n := n mod _DI4Y in
  let n1 := n / 365 in
  let n := n mod 365 in
  let year := year + n100 * 100 + n4 * 4 + n1 in
  if (n1 =? 4) || (n100 =? 4) then (year - 1, 12, 31)
  else
    let leapyear := (n1 =? 3) && (negb (n4 =? 24) || (n100 =? 3)) in
    let '(month, day) := month_and_day n leapyear in
    (year, month, day).

Definition toordinal (t : datetime) : Z := _ymd2ord (year t) (month t) (day t).

(** [t + timedelta(days=k)]: the time of day is carried over. *)
Definition add_days (t : datetime) (k : Z) : result datetime :=
  let days := toordinal t + k in
  if (0 <? days) && (days <=? MAXORDINAL) then
    let '(y, m, d) := _ord2ymd days in
    Ok {| year := y; month := m; day := d; hour := hour t; minute := minute t;
          second := second t; microsecond := microsecond t |}
  else Raise OverflowError.

Definition pad2 (n : Z) : string :=
  if n <? 10 then "0" +:+ str n else str n.

(** [t.strftime("%m/%Y")], the year printed in full. *)
Definition strftime_m_Y (t : datetime) : string :=
  pad2 (month t) +:+ "/" +:+ str (year t).

(** The fields of a date the class accepts. *)
Definition valid_date (y m d : Z) : Prop :=
  1 <= y <= 9999 /\ 1 <= m <= 12 /\ 1 <= d <= _days_in_month y m.

(** Months elapsed since January of year 0, for comparing month/year
    pairs. *)
Definition month_index (y m : Z) : Z := 12 * y + (m - 1).

(** The month index of the day with ordinal [n], and the ordinal of the
    first day of the month with index [j]. *)
Definition months_of (n : Z) : Z :=
  let '(y, m, _) := _ord2ymd n in month_index y m.

Definition month_start (j : Z) : Z := _ymd2ord (j / 12) (j mod 12 + 1) 1.

(** [check] holds of [start], [start + 1], ..., [n] values in all. *)
Fixpoint all_from (check : Z -> bool) (start : Z) (n : nat) : bool :=
  match n with
  | O => true
  | S k => check start && all_from check (start + 1) k
  end.

(** The month and day found for the day [n] of a year are the ones the
    tables of month lengths give. *)
Definition month_and_day_ok (leapyear : bool) (n : Z) : bool :=
  let '(m, d) := month_and_day n leapyear in
  let extra (b : bool) : Z := if b && leapyear then 1 else 0 in
  (1 <=? m) && (m <=? 12) && (1 <=? d)
  && (d <=? table _DAYS_IN_MONTH m + extra (m =? 2))
  && (table _DAYS_BEFORE_MONTH m + extra (m >? 2) + d =? n + 1).

End Datetime.
Import Datetime.

(** ** card_generator.py *)

Module CardGenerator.

(** Rows of the two tables the generator reads; nullable columns are
    options. *)
Record BinData : Type := {
  bd_bin : string;
  bd_brand : option string;
  bd_issuer : option string;
  bd_type : option string;
  bd_country_name : option string;
  bd_country_code : option string
}.

Record BlockedBin : Type := {
  bb_bin : string;
  bb_reason : string
}.

(** [db.query(T).filter(T.bin == prefix).first()] for the two tables. *)
Record Session : Type := {
  query_blocked : string -> option BlockedBin;
  query_bin_data : string -> option BinData
}.

Definition TEST_BINS : list string :=
  [ "411111"; "555555"; "378282"; "378734"; "371449";
    "601111"; "630495"; "630490"; "360000"; "305693";
    "385200"; "601100"; "353011"; "356600" ]%string.

Definition AVS_POSTAL_CODES : list (string * list string) :=
  [ ("US", ["10001"; "90210"; "60601"; "94102"; "33101"]);
    ("IT", ["00100"; "20100"; "80100"; "40100"; "50100"]);
    ("GB", ["SW1A 1AA"; "M1 1AA"; "B1 1AA"; "L1 1AA"; "CF1 1AA"]);
    ("CA", ["M5H 2N2"; "V6B 1A1"; "T2P 1J9"; "H2Y 1A6"; "K1A 0A6"]);
    ("AU", ["2000"; "3000"; "4000"; "5000"; "6000"]);
    ("DE", ["10115"; "20095"; "80331"; "50667"; "01067"]);
    ("FR", ["75001"; "69001"; "13001"; "31000"; "59000"]) ]%string.

(** The names bound at module level: imports, constants and functions. *)
Definition module_globals : list string :=
  [ "random"; "hashlib"; "datetime"; "timedelta"; "Dict"; "List";
    "Optional"; "Tuple"; "Session"; "BinData"; "BlockedBin"; "get_redis";
    "TEST_BINS"; "AVS_POSTAL_CODES"; "validate_bin"; "get_card_length";
    "luhn_checksum"; "create_card_number"; "generate_cvv";
    "generate_expiry"; "generate_avs_postal_code"; "format_card_display";
    "generate_test_card" ]%string.

(** *** validate_bin *)

Definition validate_bin (bin_input : string) (db : Session)
  : bool * string * option BinData :=
  let bin_str := strip bin_input in
  if len bin_str <? 6 then (false, "BIN must be at least 6 digits"%string, None)
  else
    let bin_prefix := take 6 bin_str in
    if bool_decide (bin_prefix ∈ TEST_BINS) then
      (false, "Test BIN blocked - use production BINs only"%string, None)
    else
      match query_blocked db bin_prefix with
      | Some blocked => (false, "BIN blocked: " +:+ bb_reason blocked, None)
      | None =>
          match query_bin_data db bin_prefix with
          | None => (false, "BIN not found in database"%string, None)
          | Some bin_data => (true, "Valid BIN"%string, Some bin_data)
          end
      end.

(** *** get_card_length *)

(** [x if x else ""] followed by [.upper()]. *)
Definition upper_or_empty (x : option string) : string :=
  match x with
  | Some s => upper s
  | None => EmptyString
  end.

(** [x] used as a condition, for an optional string: [None] and the empty
    string are false. *)
Definition truthy (x : option string) : bool :=
  match x with
  | Some s => negb (String.eqb s EmptyString)
  | None => false
  end.

(** [card_type and "PREPAID" in card_type.upper()]. *)
Definition is_prepaid (card_type : option string) : bool :=
  truthy card_type && contains "PREPAID" (upper_or_empty card_type).

Definition get_card_length (brand card_type : option string) : rand Z :=
  let brand_upper := upper_or_empty brand in
  if contains "AMERICAN EXPRESS" brand_upper || contains "AMEX" brand_upper then mret 15
  else if contains "DINERS" brand_upper then choice [14; 16]
  else if contains "DISCOVER" brand_upper then choice [16; 19]
  else if is_prepaid card_type then mret 16
  else mret 16.

(** *** luhn_checksum *)

(** [[int(d) for d in str(n)]] for a string [n]. *)
Definition digits_of (n : string) : result (list Z) := mapM int_of_char (chars n).

Definition luhn_checksum (card_number : string) : result bool :=
  digits ← digits_of card_number;
  let odd_digits := every_second (rev digits) in
  let even_digits := every_second (tail (rev digits)) in
  let checksum := sum odd_digits in
  checksum ← foldM (fun checksum d =>
                      ds ← digits_of (str (d * 2));
                      Ok (checksum + sum ds)) checksum even_digits;
  Ok (checksum mod 10 =? 0).

(** The loop [for check_digit in range(10): ...; if luhn_checksum(...):
    return full_number], as a search over the remaining candidates:
    [Some] is the returned number, [None] is the loop running out. *)
Fixpoint try_check_digits (partial_number : string) (candidates : list Z)
  : result (option string) :=
  match candidates with
  | [] => Ok None
  | check_digit :: rest =>
      let full_number := partial_number +:+ str check_digit in
      valid ← luhn_checksum full_number;
      if valid : bool then Ok (Some full_number)
      else try_check_digits partial_number rest
  end.

(** *** create_card_number *)

Definition weights : list Z := [2; 2; 2; 2; 2; 2; 1; 1; 1; 1].
Definition digit_choices : list Z := range 10.
Definition max_attempts : nat := 100.

(** [l[i]] for a list and a non-negative index. *)
Definition list_index (l : list Z) (i : Z) : result Z :=
  match l !! Z.to_nat i with
  | Some x => if i <? 0 then Raise IndexError else Ok x
  | None => Raise IndexError
  end.

(** [[x for x in xs if keep(x)]] with a condition that may raise. *)
Fixpoint filterM {A} (keep : A -> result bool) (xs : list A) : result (list A) :=
  match xs with
  | [] => Ok []
  | x :: rest =>
      b ← keep x; ys ← filterM keep rest; Ok (if b : bool then x :: ys else ys)
  end.

(** [digit_counts[d] < 2]. *)
Definition below_cap (digit_counts : dict Z) (d : Z) : result bool :=
  c ← dict_get digit_counts (PyInt d); Ok (c <? 2).

(** [digit_counts[d] += 1]. *)
Definition bump (digit_counts : dict Z) (d : Z) : result (dict Z) :=
  c ← dict_get digit_counts (PyInt d); Ok (dict_set digit_counts (PyInt d) (c + 1)).

(** One pass of the inner loop, on the pair
    [(random_digits, digit_counts)]. *)
Definition next_digit (st : list Z * dict Z) : rand (list Z * dict Z) :=
  let '(random_digits, digit_counts) := st in
  digit ← choices digit_choices weights;
  free ← lift (below_cap digit_counts digit);
  if free : bool then
    digit_counts' ← lift (bump digit_counts digit);
    mret (random_digits ++ [digit], digit_counts')
  else
    alternatives ← lift (filterM (below_cap digit_counts) digit_choices);
    match alternatives with
    | _ :: _ =>
        ws ← lift (mapM (list_index weights) alternatives);
        alt_digit ← choices alternatives ws;
        digit_counts' ← lift (bump digit_counts alt_digit);
        mret (random_digits ++ [alt_digit], digit_counts')
    | [] =>
        d ← choice digit_choices;
        mret (random_digits ++ [d], digit_counts)
    end.

(** The name [i] of the comprehensions: the function binds no such name,
    so it is a global load. *)
Definition load_i : result pyobj := load_global module_globals "i".

(** [{i: 0 for _ in range(10)}]. *)
Definition fresh_digit_counts : result (dict Z) :=
  dict_comp (fun _ : Z => i ← load_i; Ok (i, 0)) (range 10).

(** [any(test for _ in range(len(digit_str) - 2))] where [test] reads
    [digit_str] at [i], [i+1] and [i+2]. *)
Definition scan (digit_str : string) (test : Z -> result bool) : result bool :=
  anyM (fun _ : Z => i ← load_i; i ← as_int i; test i) (range (len digit_str - 2)).

Definition digit_at (digit_str : string) (i : Z) : result Z :=
  c ← index digit_str i; int_of_char c.

Definition three_identical_at (digit_str : string) (i : Z) : result bool :=
  a ← index digit_str i;
  b ← index digit_str (i + 1);
  if Ascii.eqb a b then c ← index digit_str (i + 2); Ok (Ascii.eqb b c)
  else Ok false.

Definition ascending_at (digit_str : string) (i : Z) : result bool :=
  a ← digit_at digit_str i;
  b ← digit_at digit_str (i + 1);
  if a + 1 =? b then
    b' ← digit_at digit_str (i + 1);
    c ← digit_at digit_str (i + 2);
    Ok (b' + 1 =? c)
  else Ok false.

Definition descending_at (digit_str : string) (i : Z) : result bool :=
  a ← digit_at digit_str i;
  b ← digit_at digit_str (i + 1);
  if a - 1 =? b then
    b' ← digit_at digit_str (i + 1);
    c ← digit_at digit_str (i + 2);
    Ok (b' - 1 =? c)
  else Ok false.

(** The pattern filter of one attempt: from the prefix and the digits
    drawn, the number without check digit and whether one of the three
    patterns was found. *)
Definition pattern_filter (bin_prefix : string) (random_digits : list Z)
  : result (string * bool) :=
  let partial_number := bin_prefix +:+ join_str random_digits in
  let digit_str := join_str random_digits in
  has_three_identical ← scan digit_str (three_identical_at digit_str);
  has_ascending ← scan digit_str (ascending_at digit_str);
  has_descending ← scan digit_str (descending_at digit_str);
  Ok (partial_number, has_three_identical || has_ascending || has_descending).

(** The body of the attempt loop; [Some] is a [return]. *)
Definition attempt (bin_prefix : string) (remaining_digits : Z) : rand (option string) :=
  digit_counts ← lift fresh_digit_counts;
  st ← repeatM (Z.to_nat remaining_digits) next_digit ([], digit_counts);
  filtered ← lift (pattern_filter bin_prefix st.1);
  let '(partial_number, flagged) := filtered in
  if negb flagged then lift (try_check_digits partial_number (range 10))
  else mret None.

Fixpoint attempts (n : nat) (bin_prefix : string) (remaining_digits : Z)
  : rand (option string) :=
  match n with
  | O => mret None
  | S k =>
      r ← attempt bin_prefix remaining_digits;
      match r with
      | Some full_number => mret (Some full_number)
      | None => attempts k bin_prefix remaining_digits
      end
  end.

(** The last lines of the function: the check-digit loop on a given
    number and the final fallback. *)
Definition append_check_digit (partial_number : string) : result string :=
  r ← try_check_digits partial_number (range 10);
  match r with
  | Some full_number => Ok full_number
  | None => Ok (partial_number +:+ "0")
  end.

Definition create_card_number (bin_prefix : string) (bin_info : option BinData)
  : rand string :=
  let brand := match bin_info with Some b => bd_brand b | None => Some EmptyString end in
  let card_type := match bin_info with Some b => bd_type b | None => Some EmptyString end in
  target_length ← get_card_length brand card_type;
  let bin_len := len bin_prefix in
  let remaining_digits := target_length - bin_len - 1 in
  r ← attempts max_attempts bin_prefix remaining_digits;
  match r with
  | Some full_number => mret full_number
  | None =>
      let remaining_digits := target_length - bin_len - 1 in
      random_part ← repeatM (Z.to_nat remaining_digits)
                      (fun acc => d ← randint 0 9; mret (acc +:+ str d)) EmptyString;
      let partial_number := bin_prefix +:+ random_part in
      lift (append_check_digit partial_number)
  end.

(** *** generate_cvv, generate_expiry, generate_avs_postal_code *)

(** [c.isdigit()] on the code points below 256: the decimal digits and the
    superscripts one, two and three. *)
Definition isdigit (c : ascii) : bool :=
  let n := nat_of_ascii c in
  is_digit c || (n =? 178)%nat || (n =? 179)%nat || (n =? 185)%nat.

Definition keep_digits (s : string) : string :=
  string_of_list_ascii (List.filter isdigit (chars s)).

Definition cvv_length_of (card_number : string) : nat :=
  if startswith card_number "34" || startswith card_number "37" then 4%nat else 3%nat.

Section Hashing.

(** [hashlib.sha256(s.encode()).hexdigest()]. *)
Variable sha256_hexdigest : string -> string.

Definition generate_cvv (card_number : string) (expiry : option string) (seed : bool)
  : rand string :=
  let cvv_length := cvv_length_of card_number in
  let random_cvv :=
    repeatM cvv_length (fun acc => d ← randint 0 9; mret (acc +:+ str d)) EmptyString in
  match expiry with
  | Some e =>
      if seed && truthy expiry then
        let seed_string := card_number +:+ e in
        let hash_digest := sha256_hexdigest seed_string in
        let cvv := take cvv_length (keep_digits hash_digest) in
        if (String.length cvv =? cvv_length)%nat then mret cvv else random_cvv
      else random_cvv
  | None => random_cvv
  end.

(** [now] is the value of [datetime.now()]. *)
Definition generate_expiry (now : datetime) (card_type : option string) : rand string :=
  months_to_add ←
    (if is_prepaid card_type then randint 12 24 else randint 36 60);
  expiry_date ← lift (add_days now (months_to_add * 30));
  mret (strftime_m_Y expiry_date).

Definition lookup_postal_codes (country : string) : option (list string) :=
  snd <$> List.find (fun kv => String.eqb (fst kv) country) AVS_POSTAL_CODES.

Definition generate_avs_postal_code (country_code : string) : rand (option string) :=
  match lookup_postal_codes (upper country_code) with
  | Some codes => c ← choice codes; mret (Some c)
  | None => mret None
  end.

(** *** format_card_display *)

(** [range(0, stop, 4)]. *)
Definition range_by_4 (stop : Z) : list Z :=
  map (fun k => 4 * k) (range ((stop + 3) / 4)).

(** [s[a:b]] with Python's clamping of the bounds. *)
Definition slice_clamped (s : string) (a b : Z) : string :=
  let norm x := if x <? 0 then Z.max 0 (len s + x) else Z.min (len s) x in
  slice (Z.to_nat (norm a)) (Z.to_nat (norm b)) s.

Definition join_space (parts : list string) : string :=
  match parts with
  | [] => EmptyString
  | p :: rest => fold_left (fun acc q => acc +:+ " " +:+ q) rest p
  end.

Definition card_data : Type := list (string * option string).

Definition format_card_display (number cvv expiry : string)
    (bin_info : option BinData) (postal_code : option string) : result card_data :=
  formatted_number ←
    (if len number =? 15 then
       Ok (take 4 number +:+ " " +:+ slice 4 10 number +:+ " " +:+ drop 10 number)
     else
       parts ← mapM (fun _ : Z =>
                       i ← load_i; i ← as_int i; Ok (slice_clamped number i (i + 4)))
                    (range_by_4 (len number));
       Ok (join_space parts));
  let base :=
    [ ("number"%string, Some formatted_number);
      ("cvv"%string, Some cvv);
      ("expiry"%string, Some expiry);
      ("bin"%string, Some (if 6 <=? len number then take 6 number else number)) ] in
  let with_info :=
    match bin_info with
    | Some b =>
        base ++ [ ("brand"%string, bd_brand b);
                  ("issuer"%string, bd_issuer b);
                  ("type"%string, bd_type b);
                  ("country"%string, bd_country_name b);
                  ("country_code"%string, bd_country_code b) ]
    | None => base
    end in
  Ok (if truthy postal_code then with_info ++ [("postal_code"%string, postal_code)]
      else with_info).

(** *** generate_test_card *)

Definition generate_test_card (now : datetime) (bin_input : string) (db : Session)
    (include_avs : bool) (avs_country : option string) : rand card_data :=
  let '(is_valid, message, bin_data) := validate_bin bin_input db in
  if negb is_valid then lift (Raise (ValueError message))
  else
    card_number ← create_card_number bin_input bin_data;
    expiry ← generate_expiry now (match bin_data with Some b => bd_type b | None => None end);
    cvv ← generate_cvv card_number (Some expiry) true;
    postal_code ←
      (match avs_country with
       | Some country =>
           if include_avs && truthy avs_country then
             pc ← generate_avs_postal_code country;
             if truthy pc then mret pc
             else lift (Raise (ValueError ("AVS not supported for country: " +:+ country)))
           else mret None
       | None => mret None
       end);
    lift (format_card_display card_number cvv expiry bin_data postal_code).

End Hashing.

(** *** The checksum as arithmetic *)

Definition digit (d : Z) : Prop := 0 <= d <= 9.

(** The contribution of a doubled digit: the digit sum of [d * 2]. *)
Definition doubled (d : Z) : Z :=
  match digits_of (str (d * 2)) with
  | Ok ds => sum ds
  | Raise _ => 0
  end.

(** The checksum total on the digits read from the right. *)
Definition total (reversed : list Z) : Z :=
  sum (every_second reversed) + sum (map doubled (every_second (tail reversed))).

(** What the digits before the last contribute. *)
Definition rest_total (reversed : list Z) : Z :=
  sum (every_second (tail reversed)) + sum (map doubled (every_second reversed)).

(** The digit that completes a total [k] to a multiple of ten. *)
Definition completing (k : Z) : Z := (- k) mod 10.

(** *** The statements of the specification, for comparison *)



(** The three disqualifying patterns in the words of the specification, on
    a list of digits: three consecutive digits that are identical, strictly
    ascending or strictly descending. *)
Fixpoint spec_has_pattern (ds : list Z) : bool :=
  match ds with
  | a :: ((b :: c :: _) as rest) =>
      ((a =? b) && (b =? c)) || ((a + 1 =? b) && (b + 1 =? c))
      || ((a - 1 =? b) && (b - 1 =? c)) || spec_has_pattern rest
  | _ => false
  end.

(** A brand of the family that [get_card_length] gives 15 digits. *)
Definition amex_family (brand : option string) : bool :=
  let b := upper_or_empty brand in
  contains "AMERICAN EXPRESS" b || contains "AMEX" b.

(** A brand whose length [get_card_length] draws at random. *)
Definition random_length_family (brand : option string) : bool :=
  let b := upper_or_empty brand in
  negb (amex_family brand) && (contains "DINERS" b || contains "DISCOVER" b).

(** Sample inputs: a metadata store that knows the prefix 378282 as an
    American Express credit BIN and blocks nothing, an empty store, a digest
    function and a generation time. *)
Definition amex_record : BinData :=
  {| bd_bin := "378282"; bd_brand := Some "AMERICAN EXPRESS"%string;
     bd_issuer := Some "AMERICAN EXPRESS"%string; bd_type := Some "CREDIT"%string;
     bd_country_name := Some "UNITED STATES"%string; bd_country_code := Some "US"%string |}.

Definition amex_db : Session :=
  {| query_blocked := fun _ => None;
     query_bin_data := fun prefix =>
       if String.eqb prefix "378282" then Some amex_record else None |}.

Definition empty_session : Session :=
  {| query_blocked := fun _ => None; query_bin_data := fun _ => None |}.

Definition constant_digest : string -> string := fun _ => "0123456789abcdef"%string.

Definition new_year_2025 : datetime :=
  {| year := 2025; month := 1; day := 1; hour := 0; minute := 0; second := 0;
     microsecond := 0 |}.

(** The oracle whose every draw is [k]. *)
Definition always (k : nat) : rng := fun _ => k.

(** [card_data[name]] for a dictionary returned by [format_card_display]
    ([None]: the key is missing). *)
Definition card_field (name : string) (data : card_data) : option (option string) :=
  snd <$> List.find (fun kv => String.eqb (fst kv) name) data.

End CardGenerator.

(** ** rate_limiter.py *)

Module RateLimiter.

(** *** The shared store

    The Redis commands the limiter issues.  A sorted set maps members to
    scores; the limiter's members are decimal renderings of integer
    timestamps and are held as those integers.  A key carries an optional
    deadline after which it is gone.  Sorted sets and counters live under
    keys of different prefixes and are kept in two maps. *)

Record redis_db : Type := {
  zsets : gmap string (gmap Z Z * option Z);
  counters : gmap string (Z * option Z)
}.

Definition empty_db : redis_db := {| zsets := ∅; counters := ∅ |}.

Definition expired (deadline : option Z) (now : Z) : bool :=
  match deadline with
  | Some d => d <=? now
  | None => false
  end.

Definition live {V} (m : gmap string (V * option Z)) (key : string) (now : Z)
  : option (V * option Z) :=
  match m !! key with
  | Some (v, deadline) => if expired deadline now then None else Some (v, deadline)
  | None => None
  end.

Definition in_score_range (lo hi : Z) (entry : Z * Z) : Prop := lo <= entry.2 <= hi.

#[global] Instance in_score_range_dec lo hi entry : Decision (in_score_range lo hi entry).
Proof. unfold in_score_range. apply _. Defined.

Definition zremrangebyscore (now : Z) (key : string) (lo hi : Z) (db : redis_db) : redis_db :=
  match live (zsets db) key now with
  | Some (z, deadline) =>
      let z' := filter (fun entry => ¬ in_score_range lo hi entry) z in
      if bool_decide (z' = ∅) then {| zsets := delete key (zsets db); counters := counters db |}
      else {| zsets := <[key := (z', deadline)]> (zsets db); counters := counters db |}
  | None => {| zsets := delete key (zsets db); counters := counters db |}
  end.

Definition zcard (now : Z) (key : string) (db : redis_db) : Z :=
  match live (zsets db) key now with
  | Some (z, _) => Z.of_nat (size z)
  | None => 0
  end.

Definition zcount (now : Z) (key : string) (lo hi : Z) (db : redis_db) : Z :=
  match live (zsets db) key now with
  | Some (z, _) => Z.of_nat (size (filter (in_score_range lo hi) z))
  | None => 0
  end.

Definition zadd (now : Z) (key : string) (member score : Z) (db : redis_db) : redis_db :=
  match live (zsets db) key now with
  | Some (z, deadline) =>
      {| zsets := <[key := (<[member := score]> z, deadline)]> (zsets db);
         counters := counters db |}
  | None =>
      {| zsets := <[key := ({[member := score]}, None)]> (zsets db);
         counters := counters db |}
  end.

Definition expire_zset (now : Z) (key : string) (seconds : Z) (db : redis_db) : redis_db :=
  match live (zsets db) key now with
  | Some (z, _) =>
      {| zsets := <[key := (z, Some (now + seconds))]> (zsets db); counters := counters db |}
  | None => db
  end.

Definition get (now : Z) (key : string) (db : redis_db) : option Z :=
  fst <$> live (counters db) key now.

Definition incr (now : Z) (key : string) (db : redis_db) : redis_db :=
  match live (counters db) key now with
  | Some (n, deadline) =>
      {| zsets := zsets db; counters := <[key := (n + 1, deadline)]> (counters db) |}
  | None => {| zsets := zsets db; counters := <[key := (1, None)]> (counters db) |}
  end.

Definition expire_counter (now : Z) (key : string) (seconds : Z) (db : redis_db) : redis_db :=
  match live (counters db) key now with
  | Some (n, _) =>
      {| zsets := zsets db; counters := <[key := (n, Some (now + seconds))]> (counters db) |}
  | None => db
  end.

(** *** The limiter *)

(** A value of the in-process store: a list of timestamps under a request
    key, an integer under a violation key. *)
Inductive mval : Type :=
| MList (timestamps : list Z)
| MInt (n : Z).

Record limiter : Type := {
  redis_client : option redis_db;
  memory_store : gmap string mval
}.

(** What one call of [check_rate_limit] reads from outside: the clock at
    each [time.time()] and, for each exchange with the shared store,
    whether it goes through ([false]: the client raises). *)
Record call : Type := {
  now_usage : Z;
  now_memory : Z;
  now_burst : Z;
  now_record : Z;
  up_usage : bool;
  up_burst : bool;
  up_count : bool;
  up_violation : bool;
  up_record : bool
}.

Record rate_limit_config : Type := {
  requests : Z;
  window : Z;
  burst : Z
}.

Definition rate_limits : list (string * rate_limit_config) :=
  [ ("default"%string, {| requests := 60; window := 60; burst := 10 |});
    ("bin_lookup"%string, {| requests := 100; window := 60; burst := 15 |});
    ("card_generation"%string, {| requests := 20; window := 60; burst := 5 |});
    ("crypto_check"%string, {| requests := 30; window := 60; burst := 8 |});
    ("auth"%string, {| requests := 10; window := 300; burst := 3 |});
    ("webhook"%string, {| requests := 1000; window := 60; burst := 50 |});
    ("premium"%string, {| requests := 500; window := 60; burst := 50 |}) ].

(** The multipliers are floats with integer values; [int(60 * m)] is
    exact on them. *)
Definition penalty_multipliers : list (Z * Z) :=
  [ (1, 1); (2, 2); (3, 4); (4, 8); (5, 16) ].

Definition assoc {K V} `{EqDecision K} (k : K) (l : list (K * V)) : option V :=
  snd <$> List.find (fun kv => bool_decide (kv.1 = k)) l.

(** [self.rate_limits.get(action, self.rate_limits["default"])]. *)
Definition config_of (action : string) : rate_limit_config :=
  default {| requests := 60; window := 60; burst := 10 |} (assoc action rate_limits).

Definition _get_rate_limit_key (identifier action : string) : string :=
  "rate_limit:" +:+ action +:+ ":" +:+ identifier.

Definition _get_violation_key (identifier : string) : string :=
  "violations:" +:+ identifier.

(** Methods read and update the limiter and may raise. *)
Definition op (A : Type) : Type := limiter -> limiter * result A.

#[global] Instance op_ret : MRet op := fun A a lim => (lim, Ok a).
#[global] Instance op_bind : MBind op := fun A B f m lim =>
  match m lim with
  | (lim', Ok a) => f a lim'
  | (lim', Raise e) => (lim', Raise e)
  end.

Definition set_store (lim : limiter) (store : gmap string mval) : limiter :=
  {| redis_client := redis_client lim; memory_store := store |}.

Definition set_db (lim : limiter) (db : redis_db) : limiter :=
  {| redis_client := Some db; memory_store := memory_store lim |}.

Definition _memory_get_usage (c : call) (key : string) (window : Z) : op (Z * Z) :=
  fun lim =>
    let now := now_memory c in
    let window_start := now - now mod window in
    let store :=
      match memory_store lim !! key with
      | None => <[key := MList []]> (memory_store lim)
      | Some _ => memory_store lim
      end in
    match store !! key with
    | Some (MList timestamps) =>
        let kept := List.filter (fun timestamp => timestamp >? now - window) timestamps in
        (set_store lim (<[key := MList kept]> store),
         Ok (Z.of_nat (length kept), window_start))
    | _ => (set_store lim store, Raise TypeError)
    end.

Definition _get_current_usage (c : call) (key : string) (window : Z) : op (Z * Z) :=
  fun lim =>
    let now := now_usage c in
    let window_start := now - now mod window in
    match redis_client lim with
    | Some db =>
        if up_usage c then
          let db := zremrangebyscore now key 0 (now - window) db in
          let current_count := zcard now key db in
          let db := expire_zset now key window db in
          (set_db lim db, Ok (current_count, window_start))
        else _memory_get_usage c key window lim
    | None => _memory_get_usage c key window lim
    end.

Definition _memory_record_request (key : string) (timestamp : Z) : op unit :=
  fun lim =>
    let store :=
      match memory_store lim !! key with
      | None => <[key := MList []]> (memory_store lim)
      | Some _ => memory_store lim
      end in
    match store !! key with
    | Some (MList timestamps) =>
        (set_store lim (<[key := MList (timestamps ++ [timestamp])]> store), Ok tt)
    | _ => (set_store lim store, Raise TypeError)
    end.

Definition _record_request (c : call) (key : string) (window : Z) : op unit :=
  fun lim =>
    let now := now_record c in
    match redis_client lim with
    | Some db =>
        if up_record c then
          let db := zadd now key now now db in
          let db := expire_zset now key window db in
          (set_db lim db, Ok tt)
        else _memory_record_request key now lim
    | None => _memory_record_request key now lim
    end.

(** The shared-store branch reads the counter at the time of the burst
    check, the last clock value taken before it. *)
Definition _get_violation_count (c : call) (identifier : string) : op Z :=
  fun lim =>
    let violation_key := _get_violation_key identifier in
    match redis_client lim with
    | Some db =>
        if up_count c then (lim, Ok (default 0 (get (now_burst c) violation_key db)))
        else (lim, Ok 0)
    | None =>
        match memory_store lim !! violation_key with
        | None => (lim, Ok 0)
        | Some (MInt n) => (lim, Ok n)
        | Some (MList _) => (lim, Raise TypeError)
        end
    end.

Definition _record_violation (c : call) (identifier : string) : op unit :=
  fun lim =>
    let violation_key := _get_violation_key identifier in
    match redis_client lim with
    | Some db =>
        if up_violation c then
          let db := incr (now_burst c) violation_key db in
          let db := expire_counter (now_burst c) violation_key 3600 db in
          (set_db lim db, Ok tt)
        else (lim, Ok tt)
    | None =>
        match memory_store lim !! violation_key with
        | None => (set_store lim (<[violation_key := MInt 1]> (memory_store lim)), Ok tt)
        | Some (MInt n) =>
            (set_store lim (<[violation_key := MInt (n + 1)]> (memory_store lim)), Ok tt)
        | Some (MList _) => (lim, Raise TypeError)
        end
    end.

Definition _calculate_penalty_delay (violation_count : Z) : Z :=
  let largest := fold_right Z.max 0 (map fst penalty_multipliers) in
  let multiplier := default 16 (assoc (Z.min violation_count largest) penalty_multipliers) in
  60 * multiplier.

(** The two ways [check_rate_limit] ends without an internal error: the
    returned dictionary, or the 429 [HTTPException] with its detail and
    headers. *)
Inductive verdict : Type :=
| Allowed (current_count limit window remaining reset_time : Z)
| TooManyRequests (reason : string) (retry_after violation_count remaining reset : Z).

(** [identifier] is the value of [_get_client_identifier(request,
    user_id)]. *)
Definition check_rate_limit (c : call) (identifier action : string) : op verdict :=
  let rate_limit_config := config_of action in
  let key := _get_rate_limit_key identifier action in
  let window := window rate_limit_config in
  let limit := requests rate_limit_config in
  let burst := burst rate_limit_config in
  usage ← _get_current_usage c key window;
  let '(current_count, window_start) := usage in
  recent_requests ← (fun lim =>
    match redis_client lim with
    | Some db =>
        if up_burst c then
          let now := now_burst c in (lim, Ok (zcount now key (now - 60) now db))
        else (lim, Ok 0)
    | None => (lim, Ok 0)
    end);
  violation_count ← _get_violation_count c identifier;
  let penalty_delay := _calculate_penalty_delay violation_count in
  let limited :=
    if current_count >=? limit then
      Some ("Rate limit exceeded: " +:+ str current_count +:+ "/" +:+ str limit
            +:+ " requests per " +:+ str window +:+ "s")
    else if recent_requests >=? burst then
      Some ("Burst limit exceeded: " +:+ str recent_requests +:+ "/" +:+ str burst
            +:+ " requests per minute")
    else None in
  match limited with
  | Some reason =>
      _ ← _record_violation c identifier;
      mret (TooManyRequests reason penalty_delay (violation_count + 1)
              (Z.max 0 (limit - current_count)) (window_start + window))
  | None =>
      _ ← _record_request c key window;
      mret (Allowed (current_count + 1) limit window
              (Z.max 0 (limit - current_count - 1)) (window_start + window))
  end.

(** A sequence of calls for one identity and action. *)
Fixpoint run (identifier action : string) (calls : list call) (lim : limiter)
  : limiter * list (result verdict) :=
  match calls with
  | [] => (lim, [])
  | c :: rest =>
      let '(lim', r) := check_rate_limit c identifier action lim in
      let '(lim'', rs) := run identifier action rest lim' in
      (lim'', r :: rs)
  end.

Definition allowed (r : result verdict) : bool :=
  match r with
  | Ok (Allowed _ _ _ _ _) => true
  | _ => false
  end.

Definition denied (r : result verdict) : bool :=
  match r with
  | Ok (TooManyRequests _ _ _ _ _) => true
  | _ => false
  end.

Definition retry_after (r : result verdict) : option Z :=
  match r with
  | Ok (TooManyRequests _ delay _ _ _) => Some delay
  | _ => None
  end.

(** The limiter as the module builds it ([EnhancedRateLimiter()], no
    shared store), and one on an empty shared store. *)
Definition in_process : limiter := {| redis_client := None; memory_store := ∅ |}.
Definition on_shared_store : limiter := {| redis_client := Some empty_db; memory_store := ∅ |}.

(** A call in which every clock reading is [t] and the shared store
    answers. *)
Definition at_time (t : Z) : call :=
  {| now_usage := t; now_memory := t; now_burst := t; now_record := t;
     up_usage := true; up_burst := true; up_count := true; up_violation := true;
     up_record := true |}.

(** A call in which every clock reading is [t] and every exchange with the
    shared store fails. *)
Definition down_at (t : Z) : call :=
  {| now_usage := t; now_memory := t; now_burst := t; now_record := t;
     up_usage := false; up_burst := false; up_count := false; up_violation := false;
     up_record := false |}.

(** *** Reading the in-process store *)

(** The timestamps under a request key ([None]: the key holds a value of
    the wrong kind) and the counter under a violation key. *)
Definition list_at (store : gmap string mval) (key : string) : option (list Z) :=
  match store !! key with
  | None => Some []
  | Some (MList timestamps) => Some timestamps
  | Some (MInt _) => None
  end.

Definition count_at (store : gmap string mval) (key : string) : option Z :=
  match store !! key with
  | None => Some 0
  | Some (MInt n) => Some n
  | Some (MList _) => None
  end.

(** The timestamps that [_memory_get_usage] keeps at time [now]. *)
Definition live_at (now window : Z) (timestamps : list Z) : list Z :=
  List.filter (fun timestamp => timestamp >? now - window) timestamps.

(** Request keys hold lists and violation keys hold integers. *)
Definition is_request_key (key : string) : Prop :=
  exists rest, key = "rate_limit:" +:+ rest.

Definition is_violation_key (key : string) : Prop :=
  exists rest, key = "violations:" +:+ rest.

Definition wf_store (store : gmap string mval) : Prop :=
  forall key v, store !! key = Some v ->
    (is_request_key key -> exists timestamps, v = MList timestamps)
    /\ (is_violation_key key -> exists n, v = MInt n).

(** The shared store is not there for a call: no client was built, or
    every exchange of the call fails. *)
Definition unavailable (lim : limiter) (c : call) : Prop :=
  redis_client lim = None
  \/ (up_usage c = false /\ up_burst c = false /\ up_count c = false
      /\ up_violation c = false /\ up_record c = false).

(** A call is within the window that starts at [start]. *)
Definition in_window (start window : Z) (c : call) : Prop :=
  start <= now_memory c < start + window /\ start <= now_record c.

(** The verdicts the quota rule expects of [n] calls when [used] calls of
    the window are already counted: allowed up to the limit. *)
Definition expected_allowed (limit : Z) (used n : nat) : list bool :=
  map (fun j => Z.of_nat (used + j) <? limit) (seq 0 n).

(** Calls at the seconds [first], [first + 1], ... *)
Definition every_second_from (first : Z) (n : nat) : list call :=
  map (fun j => at_time (first + Z.of_nat j)) (seq 0 n).

(** *** Reading the shared store and comparing stores *)

(** The sorted set of a key after one request of second [t] was recorded in
    an empty set: the member [t] with score [t], kept for one window. *)
Definition one_request (t window : Z) : gmap Z Z * option Z :=
  ({[t := t]}, Some (t + window)).

(** An action name without a colon, as all the configured ones are. *)
Definition colon_free (s : string) : Prop := ~ In ":"%char (chars s).

(** [db'] differs from [db] at most under the request key [key] and the
    violation key [violation_key]. *)
Definition same_db_elsewhere (key violation_key : string) (db db' : redis_db) : Prop :=
  (forall k, k <> key -> zsets db' !! k = zsets db !! k)
  /\ (forall k, k <> violation_key -> counters db' !! k = counters db !! k).

(** The same for a limiter: its in-process store and its shared store, which
    is there afterwards exactly when it was there before. *)
Definition same_elsewhere (key violation_key : string) (lim lim' : limiter) : Prop :=
  (forall k, k <> key -> k <> violation_key ->
             memory_store lim' !! k = memory_store lim !! k)
  /\ match redis_client lim, redis_client lim' with
     | Some db, Some db' => same_db_elsewhere key violation_key db db'
     | None, None => True
     | _, _ => False
     end.

(** What the sorted set of a key holds when [used] requests were recorded
    since [start], one in a second at most, and the next call comes at
    [now]: [used] members, each with itself as score and from the seconds
    [start] to [now - 1], under a deadline later than [now]. *)
Definition recorded_since (start now : Z) (used : nat)
    (entry : option (gmap Z Z * option Z)) : Prop :=
  match entry with
  | None => used = O
  | Some (z, deadline) =>
      size z = used
      /\ (forall member score, z !! member = Some score ->
                               score = member /\ start <= member < now)
      /\ (exists d, deadline = Some d /\ now < d)
  end.

End RateLimiter.

(** ** rate_limiter.py: the identity of a client *)

Module ClientIdentifier.
Import CardGenerator RateLimiter.

(** What [_get_client_identifier] reads of a request: the headers, looked
    up by name, and the host of [request.client] when there is one. *)
Record Request : Type := {
  headers : string -> option string;
  client_host : option string
}.

(** [s.split(",")[0]]. *)
Fixpoint up_to_comma (s : string) : string :=
  match s with
  | EmptyString => EmptyString
  | String c rest => if Ascii.eqb c "," then EmptyString else String c (up_to_comma rest)
  end.

(** [a or b] where [a] is an optional string and [b] a string. *)
Definition or_else (a : option string) (b : string) : string :=
  match a with
  | Some s => if String.eqb s EmptyString then b else s
  | None => b
  end.

Section Hash.

(** The builtin [hash] on strings, fixed for the life of the process. *)
Variable hash : string -> Z.

(** The conditional expression binds weaker than [or]: the chain of
    alternatives is the value when [request.client] is there, and
    ["unknown"] is the value otherwise.  [if user_id] takes the id 0 for no
    id. *)
Definition _get_client_identifier (request : Request) (user_id : option Z) : string :=
  let anonymous :=
    let ip :=
      match client_host request with
      | Some host =>
          or_else (headers request "cf-connecting-ip")
            (or_else (Some (strip (up_to_comma
                                     (default EmptyString
                                        (headers request "x-forwarded-for")))))
               (or_else (headers request "x-real-ip") host))
      | None => "unknown"%string
      end in
    let user_agent := take 50 (default EmptyString (headers request "user-agent")) in
    "ip:" +:+ ip +:+ ":ua:" +:+ str (hash user_agent mod 10000) in
  match user_id with
  | Some n => if n =? 0 then anonymous else "user:" +:+ str n
  | None => anonymous
  end.

(** [check_rate_limit(request, action, user_id)], the identity computed from
    the request. *)
Definition check_request (c : call) (request : Request) (action : string)
    (user_id : option Z) : op verdict :=
  check_rate_limit c (_get_client_identifier request user_id) action.

(** A sequence of requests without a user id for one action. *)
Fixpoint serve (action : string) (requests : list (call * Request)) (lim : limiter)
  : limiter * list (result verdict) :=
  match requests with
  | [] => (lim, [])
  | (c, request) :: rest =>
      let '(lim', r) := check_request c request action None lim in
      let '(lim'', rs) := serve action rest lim' in
      (lim'', r :: rs)
  end.

End Hash.

(** A request that reaches the application with a client address, a given
    [user-agent] header and a non-empty [cf-connecting-ip] header. *)
Definition forwarded (user_agent : option string) (cr : call * Request) : Prop :=
  is_Some (client_host cr.2)
  /\ headers cr.2 "user-agent" = user_agent
  /\ truthy (headers cr.2 "cf-connecting-ip") = true.

(** Sample requests: one client host and user agent, with a given
    [cf-connecting-ip] header; and a request without a client address that
    carries forwarding headers. *)
Definition forwarded_for (h : string) : Request :=
  {| headers := fun name =>
       if String.eqb name "cf-connecting-ip" then Some h
       else if String.eqb name "user-agent" then Some "curl/8.5.0"%string
       else None;
     client_host := Some "203.0.113.9"%string |}.

Definition without_client : Request :=
  {| headers := fun name =>
       if String.eqb name "cf-connecting-ip" then Some "198.51.100.4"%string
       else if String.eqb name "x-real-ip" then Some "198.51.100.4"%string
       else None;
     client_host := None |}.

End ClientIdentifier.

(** ** premium_features.py *)

Module PremiumFeatures.
Import CardGenerator.

(** The dictionary [card_info] that [generate_card_with_avs] builds. *)
Record card_info : Type := {
  ci_number : string;
  ci_cvv : string;
  ci_expiry : string;
  ci_postal_code : string;
  ci_country_code : string;
  ci_bin : string;
  ci_brand : option string;
  ci_issuer : option string;
  ci_type : option string;
  ci_country : option string;
  ci_generated_at : string;
  ci_avs_enabled : bool
}.

Section Hashing.

Variable sha256_hexdigest : string -> string.

(** One pass of the loop [for _ in range(count)], on the pair of the pass
    number and the list [cards]; [current_year] and [utcnow] give the
    readings of the clock in each pass.  [bin_data] is a record whenever
    [validate_bin] has answered valid. *)
Definition one_card (current_year : nat -> Z) (utcnow : nat -> string)
    (bin_input country_code : string) (bin_data : option BinData)
    (postal_codes : list string) (st : nat * list card_info)
  : rand (nat * list card_info) :=
  let '(pass, cards) := st in
  card_number ← create_card_number bin_input bin_data;
  exp_year ← randint (current_year pass + 1) (current_year pass + 8);
  exp_month ← randint 1 12;
  let expiry := pad2 exp_month +:+ "/" +:+ drop 2 (str exp_year) in
  cvv ← generate_cvv sha256_hexdigest card_number (Some expiry) true;
  postal_code ← choice postal_codes;
  mret (S pass,
        cards ++ [ {| ci_number := card_number; ci_cvv := cvv; ci_expiry := expiry;
                      ci_postal_code := postal_code;
                      ci_country_code := upper country_code;
                      ci_bin := bin_input;
                      ci_brand := bin_data ≫= bd_brand;
                      ci_issuer := bin_data ≫= bd_issuer;
                      ci_type := bin_data ≫= bd_type;
                      ci_country := bin_data ≫= bd_country_name;
                      ci_generated_at := utcnow pass;
                      ci_avs_enabled := true |} ]).

(** [premium] is the value of [self.is_user_premium(user, db)]. *)
Definition generate_card_with_avs (premium : bool) (current_year : nat -> Z)
    (utcnow : nat -> string) (bin_input country_code : string) (db : Session)
    (count : Z) : rand (list card_info) :=
  if negb premium then
    lift (Raise (ValueError "AVS generation requires premium subscription"))
  else
    match lookup_postal_codes (upper country_code) with
    | None => lift (Raise (ValueError ("AVS not supported for " +:+ country_code)))
    | Some postal_codes =>
        let '(is_valid, message, bin_data) := validate_bin bin_input db in
        if negb is_valid then lift (Raise (ValueError message))
        else
          st ← repeatM (Z.to_nat count)
                 (one_card current_year utcnow bin_input country_code bin_data
                    postal_codes)
                 (O, []);
          mret st.2
    end.

End Hashing.

End PremiumFeatures.

(** ** routes/cards.py: the validators of the request models *)

Module Routes.
Import CardGenerator.

(** The validator of the field [bin] of [CardGenerationRequest] and of
    [BulkGenerationRequest]. *)
Definition validate_bin (v : string) : result string :=
  if String.eqb v EmptyString || (len (strip v) <? 6) then
    Raise (ValueError "BIN must be at least 6 digits")
  else Ok (take 6 (strip v)).

(** [', '.join(AVS_POSTAL_CODES.keys())]. *)
Definition supported : string :=
  match map fst AVS_POSTAL_CODES with
  | [] => EmptyString
  | k :: rest => fold_left (fun acc q => acc +:+ ", " +:+ q) rest k
  end.

(** The validator of the field [avs_country]; [include_avs] is the value
    of [values.get('include_avs')]. *)
Definition validate_avs_country (v : option string) (include_avs : option bool)
  : result (option string) :=
  let checked :=
    if default false include_avs && truthy v then
      match lookup_postal_codes (upper_or_empty v) with
      | Some _ => Ok tt
      | None => Raise (ValueError ("AVS country must be one of: " +:+ supported))
      end
    else Ok tt in
  _ ← checked;
  Ok (if truthy v then Some (upper_or_empty v) else None).

(** The validator of the field [count] of [BulkGenerationRequest]. *)
Definition validate_count (v : Z) : result Z :=
  if (v <? 1) || (v >? 1000) then Raise (ValueError "Count must be between 1 and 1000")
  else Ok v.

End Routes.

(** ** utils/ip_rate_limit.py *)

Module IPRateLimit.

(** The dictionary [usage].  Times are [datetime] values in UTC, held as
    microseconds since the epoch; [reset_time] is stored in ISO format and
    read back by [fromisoformat], which returns the value written. *)
Record usage : Type := {
  count : Z;
  reset_time : Z
}.

(** The keys this class writes: under a key, the text [json.dumps(usage)],
    held as the dictionary it encodes, and the deadline that [setex] gave
    the key. *)
Definition ip_db : Type := gmap string (usage * Z).

(** What one call reads from outside: the clock, and whether the exchanges
    with the store go through ([false]: the client raises). *)
Record ip_call : Type := {
  now : Z;
  up : bool
}.

Definition at_time (t : Z) : ip_call := {| now := t; up := true |}.

(** [timedelta(hours=h)] and the length of [s] seconds. *)
Definition hours (h : Z) : Z := h * 3600000000.
Definition seconds (s : Z) : Z := s * 1000000.

Definition ip_key (ip_address action : string) : string :=
  "ip_limit:" +:+ ip_address +:+ ":" +:+ action.

(** The least and the greatest [datetime], 0001-01-01 00:00:00 and
    9999-12-31 23:59:59.999999, in microseconds since the epoch. *)
Definition datetime_min : Z := -719162 * 86400000000.
Definition datetime_max : Z := 2932897 * 86400000000 - 1.

(** [current_time + timedelta(hours=h)].  The [timedelta] is refused when
    its days, [h // 24], exceed 999999999 in magnitude, and the sum when it
    is no [datetime]; both raise [OverflowError]. *)
Definition plus_hours (current_time h : Z) : result Z :=
  if (h / 24 <? -999999999) || (999999999 <? h / 24) then Raise OverflowError
  else if (current_time + hours h <? datetime_min) || (datetime_max <? current_time + hours h)
       then Raise OverflowError
  else Ok (current_time + hours h).

Definition redis_get (t : Z) (key : string) (db : ip_db) : option usage :=
  match db !! key with
  | Some (u, deadline) => if deadline <=? t then None else Some u
  | None => None
  end.

(** [setex] refuses an expiry that is not positive, and one so long that
    the deadline, in milliseconds, is no signed 64-bit integer ([None]: the
    client raises). *)
Definition redis_setex (t : Z) (key : string) (expire_seconds : Z) (u : usage) (db : ip_db)
  : option ip_db :=
  if expire_seconds <=? 0 then None
  else if 9223372036854775807 <? t / 1000 + expire_seconds * 1000 then None
  else Some (<[key := (u, t + seconds expire_seconds)]> db).

(** Every exception is caught: when the store does not answer, or when the
    reset time of a new window is no [datetime], the check allows the
    request with the full limit. *)
Definition check_ip_limit (c : ip_call) (ip_address action : string) (limit window_hours : Z)
    (db : ip_db) : bool * Z :=
  if up c then
    let key := ip_key ip_address action in
    let current_time := now c in
    let fresh :=
      reset ← plus_hours current_time window_hours;
      Ok {| count := 0; reset_time := reset |} in
    let usage :=
      match redis_get current_time key db with
      | None => fresh
      | Some usage => if current_time >=? reset_time usage then fresh else Ok usage
      end in
    match usage with
    | Ok usage => if count usage >=? limit then (false, 0) else (true, limit - count usage)
    | Raise _ => (true, limit)
    end
  else (true, limit).

(** Every exception is caught here too: a failed exchange, a reset time
    that is no [datetime] or a refused expiry leave the store as it was. *)
Definition increment_ip_usage (c : ip_call) (ip_address action : string) (window_hours : Z)
    (db : ip_db) : ip_db :=
  if up c then
    let key := ip_key ip_address action in
    let current_time := now c in
    let fresh :=
      reset ← plus_hours current_time window_hours;
      Ok {| count := 1; reset_time := reset |} in
    let usage :=
      match redis_get current_time key db with
      | None => fresh
      | Some usage =>
          if current_time >=? reset_time usage then fresh
          else Ok {| count := count usage + 1; reset_time := reset_time usage |}
      end in
    match usage with
    | Ok usage =>
        let expire_seconds := window_hours * 3600 in
        match redis_setex current_time key expire_seconds usage db with
        | Some db' => db'
        | None => db
        end
    | Raise _ => db
    end
  else db.

(** Successive calls of [increment_ip_usage] for one address and action. *)
Definition increments (calls : list ip_call) (ip_address action : string) (window_hours : Z)
    (db : ip_db) : ip_db :=
  fold_left (fun db c => increment_ip_usage c ip_address action window_hours db) calls db.

End IPRateLimit.

(** * Properties *)

(** ** The monads compute *)

Ltac unfold_result := unfold mbind, mret, result_bind, result_ret in *.
Ltac unfold_rand := unfold mbind, mret, rand_bind, rand_ret, lift in *.

Section PyFacts.

Lemma chars_app (a b : string) : chars (a +:+ b) = chars a ++ chars b.
Proof.
  unfold chars. induction a as [|c a IH]; simpl; [reflexivity|].
  now rewrite IH.
Qed.

Lemma mapM_app {A B} (f : A -> result B) (xs ys : list A) :
  mapM f (xs ++ ys) =
  (xs' ← mapM f xs; ys' ← mapM f ys; Ok (xs' ++ ys')).
Proof.
  induction xs as [|x xs IH]; simpl.
  - unfold_result. destruct (mapM f ys); reflexivity.
  - unfold_result. destruct (f x); [|reflexivity].
    rewrite IH. destruct (mapM f xs); [|reflexivity].
    destruct (mapM f ys); reflexivity.
Qed.

Lemma every_second_cons {A} (x : A) (t : list A) :
  every_second (x :: t) = x :: every_second (tail t).
Proof. destruct t; reflexivity. Qed.

Lemma every_second_Forall {A} (P : A -> Prop) (l : list A) :
  Forall P l -> Forall P (every_second l) /\ Forall P (every_second (tail l)).
Proof.
  induction 1 as [|x t Hx Ht [IH1 IH2]].
  - split; constructor.
  - split; [|exact IH1].
    rewrite every_second_cons. now constructor.
Qed.

Lemma range_10 : range 10 = [0; 1; 2; 3; 4; 5; 6; 7; 8; 9].
Proof. reflexivity. Qed.

(** *** Strings *)

Lemma take_length (n : nat) (s : string) :
  String.length (take n s) = Nat.min n (String.length s).
Proof.
  unfold take. revert s. induction n as [|n IH]; intros [|c s]; cbn; auto.
Qed.

Lemma take_all (n : nat) (s : string) : (String.length s <= n)%nat -> take n s = s.
Proof.
  unfold take. revert s. induction n as [|n IH]; intros [|c s]; cbn; intros H;
    try reflexivity; try lia.
  f_equal. apply IH. lia.
Qed.

Lemma take_take (n : nat) (s : string) : take n (take n s) = take n s.
Proof. apply take_all. rewrite take_length. lia. Qed.

Lemma take_forallb (p : ascii -> bool) (n : nat) (s : string) :
  forallb p (chars s) = true -> forallb p (chars (take n s)) = true.
Proof.
  unfold take, chars. revert s. induction n as [|n IH]; intros [|c s]; cbn; auto.
  intros H. apply andb_true_iff in H as [-> H]. now apply IH.
Qed.

Lemma forallb_chars_app (p : ascii -> bool) (a b : string) :
  forallb p (chars (a +:+ b)) = forallb p (chars a) && forallb p (chars b).
Proof. rewrite chars_app. apply forallb_app. Qed.

Lemma string_length_app (a b : string) :
  String.length (a +:+ b) = (String.length a + String.length b)%nat.
Proof. induction a as [|c a IH]; simpl; [reflexivity|now rewrite IH]. Qed.

Lemma string_app_inv_head (a b c : string) : a +:+ b = a +:+ c -> b = c.
Proof. induction a as [|x a IH]; cbn; [auto|]. intros [= H]. auto. Qed.

Lemma string_app_inv_tail (a b c : string) : b +:+ a = c +:+ a -> b = c.
Proof.
  revert c. induction b as [|x b IH]; intros [|y c] H; cbn in H.
  - reflexivity.
  - apply (f_equal String.length) in H. rewrite !string_length_app in H.
    cbn [String.length] in H. lia.
  - apply (f_equal String.length) in H. rewrite !string_length_app in H.
    cbn [String.length] in H. lia.
  - injection H as -> H. f_equal. now apply IH.
Qed.

Lemma lstrip_no_space (s : string) : existsb is_space (chars s) = false -> lstrip s = s.
Proof. destruct s as [|c s]; cbn; [reflexivity|]. now destruct (is_space c). Qed.

Lemma rstrip_no_space (s : string) : existsb is_space (chars s) = false -> rstrip s = s.
Proof.
  induction s as [|c s IH]; cbn; [reflexivity|].
  destruct (is_space c); [discriminate|]. cbn. intros H. rewrite (IH H).
  now destruct s.
Qed.

Lemma strip_no_space (s : string) : existsb is_space (chars s) = false -> strip s = s.
Proof. intros H. unfold strip. rewrite (lstrip_no_space s H). now apply rstrip_no_space. Qed.

Lemma string_app_assoc (a b c : string) : (a +:+ b) +:+ c = a +:+ (b +:+ c).
Proof.
  induction a as [|x a IH]; [reflexivity|].
  change (String x ((a +:+ b) +:+ c) = String x (a +:+ b +:+ c)). now f_equal.
Qed.

Lemma upper_app (a b : string) : upper (a +:+ b) = upper a +:+ upper b.
Proof.
  induction a as [|c a IH]; [reflexivity|].
  change (upper_char c +:+ upper (a +:+ b) = (upper_char c +:+ upper a) +:+ upper b).
  now rewrite IH, string_app_assoc.
Qed.

Lemma upper_char_idempotent (c : ascii) : upper (upper_char c) = upper_char c.
Proof. destruct c as [[] [] [] [] [] [] [] []]; reflexivity. Qed.

Lemma upper_idempotent (s : string) : upper (upper s) = upper s.
Proof.
  induction s as [|c s IH]; cbn [upper]; [reflexivity|].
  now rewrite upper_app, upper_char_idempotent, IH.
Qed.

(** *** Random choices *)

Lemma choice_in {A} (l : list A) (g : rng) :
  l <> [] -> exists x, choice l g = Ok (x, fun n => g (S n)) /\ x ∈ l.
Proof.
  intros Hl. unfold choice. unfold_rand. unfold draw.
  assert (Hlt : (g 0%nat mod length l < length l)%nat).
  { apply Nat.mod_upper_bound. destruct l; [congruence|cbn; lia]. }
  destruct (lookup_lt_is_Some_2 _ _ Hlt) as [x Hx]. rewrite Hx.
  exists x. split; [reflexivity|]. eapply list_elem_of_lookup_2, Hx.
Qed.


End PyFacts.

(** ** The checksum *)

Module LuhnFacts.
Import CardGenerator.

Lemma digit_cases (d : Z) :
  digit d -> In d [0; 1; 2; 3; 4; 5; 6; 7; 8; 9].
Proof. unfold digit. simpl. lia. Qed.

Lemma digits_of_str_digit (d : Z) : digit d -> digits_of (str d) = Ok [d].
Proof.
  intros H. apply digit_cases in H. simpl in H.
  repeat (destruct H as [<-|H]; [reflexivity|]). destruct H.
Qed.

Lemma digits_of_double (d : Z) :
  digit d -> exists ds, digits_of (str (d * 2)) = Ok ds.
Proof.
  intros H. apply digit_cases in H. simpl in H.
  repeat (destruct H as [<-|H]; [eexists; reflexivity|]). destruct H.
Qed.

Lemma int_of_char_digit (c : ascii) :
  is_digit c = true -> exists d, int_of_char c = Ok d /\ digit d.
Proof.
  unfold int_of_char, is_digit, digit. intros H. rewrite H.
  apply andb_true_iff in H as [H1 H2].
  apply Nat.leb_le in H1. apply Nat.leb_le in H2.
  eexists. split; [reflexivity|]. lia.
Qed.

Lemma digits_of_digit_string (s : string) :
  forallb is_digit (chars s) = true ->
  exists ds, digits_of s = Ok ds /\ Forall digit ds.
Proof.
  unfold digits_of. generalize (chars s) as cs.
  induction cs as [|c cs IH]; simpl; intros H.
  - exists []. split; [reflexivity|constructor].
  - apply andb_true_iff in H as [Hc Hcs].
    destruct (int_of_char_digit c Hc) as (d & Hd & Hdig).
    destruct (IH Hcs) as (ds & Hds & Hall).
    exists (d :: ds). unfold_result. rewrite Hd, Hds.
    split; [reflexivity|now constructor].
Qed.

Lemma fold_doubled (evens : list Z) (acc : Z) :
  Forall digit evens ->
  foldM (fun checksum d => ds ← digits_of (str (d * 2)); Ok (checksum + sum ds))
        acc evens
  = Ok (acc + sum (map doubled evens)).
Proof.
  intros H. revert acc. induction H as [|d evens Hd _ IH]; intros acc; simpl.
  - f_equal. lia.
  - destruct (digits_of_double d Hd) as [l Hl].
    assert (Hdbl : doubled d = sum l) by (unfold doubled; now rewrite Hl).
    unfold_result. rewrite Hl, IH, Hdbl. f_equal. lia.
Qed.

(** On a string of digits the function is the total, read modulo 10. *)
Lemma luhn_checksum_total (s : string) (ds : list Z) :
  digits_of s = Ok ds -> Forall digit ds ->
  luhn_checksum s = Ok (total (rev ds) mod 10 =? 0).
Proof.
  intros Hs Hall. unfold luhn_checksum. unfold_result. rewrite Hs.
  assert (Hrev : Forall digit (rev ds)) by now apply Forall_rev.
  destruct (every_second_Forall digit _ Hrev) as [_ Hev].
  rewrite (fold_doubled _ _ Hev). reflexivity.
Qed.

Lemma total_cons (c : Z) (reversed : list Z) :
  total (c :: reversed) = c + rest_total reversed.
Proof.
  unfold total, rest_total. rewrite every_second_cons. simpl. lia.
Qed.

Lemma luhn_checksum_appended (partial_number : string) (ds : list Z) (c : Z) :
  digits_of partial_number = Ok ds -> Forall digit ds -> digit c ->
  luhn_checksum (partial_number +:+ str c)
  = Ok ((c + rest_total (rev ds)) mod 10 =? 0).
Proof.
  intros Hs Hall Hc.
  assert (Hfull : digits_of (partial_number +:+ str c) = Ok (ds ++ [c])).
  { unfold digits_of in *. rewrite chars_app, mapM_app. unfold_result.
    rewrite Hs. fold (digits_of (str c)). now rewrite digits_of_str_digit. }
  rewrite (luhn_checksum_total _ _ Hfull).
  - rewrite rev_app_distr. simpl. now rewrite total_cons.
  - apply Forall_app. split; [assumption|]. constructor; [assumption|constructor].
Qed.

Lemma completing_digit (k : Z) : digit (completing k).
Proof. unfold digit, completing. pose proof (Z.mod_pos_bound (- k) 10). lia. Qed.

Lemma completing_spec (k c : Z) :
  digit c -> ((c + k) mod 10 =? 0) = true <-> c = completing k.
Proof.
  unfold digit, completing. intros Hc. rewrite Z.eqb_eq.
  pose proof (Z.div_mod (c + k) 10 ltac:(lia)).
  pose proof (Z.mod_pos_bound (c + k) 10 ltac:(lia)).
  pose proof (Z.div_mod (- k) 10 ltac:(lia)).
  pose proof (Z.mod_pos_bound (- k) 10 ltac:(lia)).
  lia.
Qed.

Lemma try_check_digits_finds (partial_number : string) (ds : list Z) (candidates : list Z) :
  digits_of partial_number = Ok ds -> Forall digit ds ->
  Forall digit candidates ->
  In (completing (rest_total (rev ds))) candidates ->
  try_check_digits partial_number candidates
  = Ok (Some (partial_number +:+ str (completing (rest_total (rev ds))))).
Proof.
  intros Hs Hall Hcs. induction Hcs as [|x cs Hx _ IH]; intros Hin.
  - destruct Hin.
  - simpl. unfold_result.
    rewrite (luhn_checksum_appended _ _ _ Hs Hall Hx).
    destruct ((x + rest_total (rev ds)) mod 10 =? 0) eqn:E.
    + apply completing_spec in E; [|assumption]. now subst x.
    + destruct Hin as [->|Hin]; [|now apply IH].
      assert (E' : ((completing (rest_total (rev ds)) + rest_total (rev ds)) mod 10 =? 0) = true)
        by now apply completing_spec.
      congruence.
Qed.

Lemma digit_in_range_10 (c : Z) : digit c -> In c (range 10).
Proof. rewrite range_10. apply digit_cases. Qed.

Lemma range_10_digits : Forall digit (range 10).
Proof. rewrite range_10. unfold digit. repeat constructor; lia. Qed.

(** C2: for a partial number made of digits, exactly one of the ten check
    digits 0..9 makes the checksum of the completed number hold; the loop
    over [range(10)] returns the number completed with that digit, so the
    lines after the loop, which append "0" without a checksum, are not
    reached. *)
Theorem luhn_check_digit_unique (partial_number : string) :
  forallb is_digit (chars partial_number) = true ->
  exists c,
    0 <= c <= 9
    /\ luhn_checksum (partial_number +:+ str c) = Ok true
    /\ (forall c', 0 <= c' <= 9 ->
                   luhn_checksum (partial_number +:+ str c') = Ok true -> c' = c)
    /\ try_check_digits partial_number (range 10) = Ok (Some (partial_number +:+ str c))
    /\ append_check_digit partial_number = Ok (partial_number +:+ str c).
Proof.
  intros Hdigits.
  destruct (digits_of_digit_string _ Hdigits) as (ds & Hds & Hall).
  set (k := rest_total (rev ds)).
  assert (Hfind : try_check_digits partial_number (range 10)
                  = Ok (Some (partial_number +:+ str (completing k)))).
  { apply (try_check_digits_finds _ ds); auto using range_10_digits.
    apply digit_in_range_10, completing_digit. }
  exists (completing k). split; [apply completing_digit|].
  split; [|split; [|split]].
  - rewrite (luhn_checksum_appended _ ds); auto using completing_digit.
    f_equal. now apply completing_spec; [apply completing_digit|].
  - intros c' Hc' Hok.
    rewrite (luhn_checksum_appended _ ds) in Hok by assumption.
    injection Hok as Hok. now apply completing_spec in Hok.
  - exact Hfind.
  - unfold append_check_digit. unfold_result. now rewrite Hfind.
Qed.

Lemma luhn_check_digit_unique_witness :
  exists c,
    0 <= c <= 9
    /\ luhn_checksum ("424242123456789" +:+ str c) = Ok true
    /\ (forall c', 0 <= c' <= 9 ->
                   luhn_checksum ("424242123456789" +:+ str c') = Ok true -> c' = c)
    /\ try_check_digits "424242123456789" (range 10)
       = Ok (Some ("424242123456789" +:+ str c))
    /\ append_check_digit "424242123456789" = Ok ("424242123456789" +:+ str c).
Proof. apply (luhn_check_digit_unique "424242123456789"). reflexivity. Defined.

(** *** What the checksum detects *)

Lemma rest_total_cons (c : Z) (reversed : list Z) :
  rest_total (c :: reversed) = doubled c + total reversed.
Proof.
  unfold total, rest_total. rewrite every_second_cons. simpl. lia.
Qed.

(** Replacing one digit changes the total by the difference of the two
    digits, taken plain or doubled according to the position counted from
    the right. *)
Lemma total_replace (xs ys : list Z) (d d' : Z) :
  (total (xs ++ d :: ys) - total (xs ++ d' :: ys)
   = if Nat.even (length xs) then d - d' else doubled d - doubled d')
  /\ (rest_total (xs ++ d :: ys) - rest_total (xs ++ d' :: ys)
      = if Nat.even (length xs) then doubled d - doubled d' else d - d').
Proof.
  induction xs as [|x xs [IH1 IH2]].
  - cbn [app length Nat.even]. rewrite !total_cons, !rest_total_cons. lia.
  - cbn [app length]. rewrite !total_cons, !rest_total_cons.
    rewrite Nat.even_succ, <- Nat.negb_even.
    destruct (Nat.even (length xs)); cbn [negb] in *; lia.
Qed.

Lemma total_swap (xs ys : list Z) (x y : Z) :
  total (xs ++ x :: y :: ys) - total (xs ++ y :: x :: ys)
  = if Nat.even (length xs) then (x - y) - (doubled x - doubled y)
    else (doubled x - doubled y) - (x - y).
Proof.
  destruct (total_replace xs (y :: ys) x y) as [H1 _].
  destruct (total_replace (xs ++ [y]) ys y x) as [H2 _].
  rewrite <- !app_assoc in H2. cbn [app] in H2.
  rewrite length_app in H2. cbn [length] in H2.
  rewrite Nat.add_1_r, Nat.even_succ, <- Nat.negb_even in H2.
  destruct (Nat.even (length xs)); cbn [negb] in *; lia.
Qed.

Lemma digits_of_app (a b : string) (da db : list Z) :
  digits_of a = Ok da -> digits_of b = Ok db -> digits_of (a +:+ b) = Ok (da ++ db).
Proof.
  unfold digits_of. intros Ha Hb. rewrite chars_app, mapM_app.
  unfold_result. now rewrite Ha, Hb.
Qed.

Lemma digits_of_raises (s : string) :
  forallb is_digit (chars s) = false ->
  exists before c after,
    s = before +:+ String c after
    /\ forallb is_digit (chars before) = true
    /\ is_digit c = false
    /\ digits_of s = Raise (ValueError (invalid_literal c)).
Proof.
  unfold digits_of, chars.
  induction s as [|c s IH]; cbn [list_ascii_of_string forallb mapM]; intros H;
    [discriminate|].
  unfold_result. unfold int_of_char at 1.
  destruct (is_digit c) eqn:Hc; cbn [andb] in H.
  - destruct (IH H) as (before & c' & after & -> & Hbefore & Hc' & ->).
    exists (String c before), c', after. cbn [list_ascii_of_string forallb].
    now rewrite Hc, Hbefore.
  - exists EmptyString, c, s. auto.
Qed.

Lemma digit_differences (d d' : Z) :
  digit d -> digit d' -> d <> d' ->
  (d - d') mod 10 <> 0 /\ (doubled d - doubled d') mod 10 <> 0.
Proof.
  intros Hd Hd' Hne. apply digit_cases in Hd, Hd'. cbn [In] in Hd, Hd'.
  repeat (destruct Hd as [<-|Hd]; [
    repeat (destruct Hd' as [<-|Hd']; [first [congruence | split; discriminate]|]);
    destruct Hd'|]).
  destruct Hd.
Qed.

Lemma swap_differences (x y : Z) :
  digit x -> digit y -> x <> y ->
  ((x - y) - (doubled x - doubled y)) mod 10 = 0 <-> (x = 0 /\ y = 9) \/ (x = 9 /\ y = 0).
Proof.
  intros Hx Hy Hne. apply digit_cases in Hx, Hy. cbn [In] in Hx, Hy.
  repeat (destruct Hx as [<-|Hx]; [
    repeat (destruct Hy as [<-|Hy]; [
      first [congruence
            | split; [discriminate|intros [[? ?]|[? ?]]; discriminate]
            | split; [intros _; auto|reflexivity] ]|]);
    destruct Hy|]).
  destruct Hx.
Qed.

Lemma mod_10_shift (t u : Z) :
  t mod 10 = 0 -> (t - u) mod 10 <> 0 -> u mod 10 <> 0.
Proof. intros H1 H2 H3. apply H2. Z.div_mod_to_equations. lia. Qed.

(** X7: the checksum detects every error in a single digit: when a number
    of digits passes, the number obtained by replacing any one of its digits
    by a different digit fails. *)
Theorem luhn_detects_single_digit_error (a b : string) (d d' : Z) :
  forallb is_digit (chars a) = true -> forallb is_digit (chars b) = true ->
  0 <= d <= 9 -> 0 <= d' <= 9 -> d <> d' ->
  luhn_checksum (a +:+ str d +:+ b) = Ok true ->
  luhn_checksum (a +:+ str d' +:+ b) = Ok false.
Proof.
  intros Ha Hb Hd Hd' Hne.
  destruct (digits_of_digit_string _ Ha) as (da & Hda & Halla).
  destruct (digits_of_digit_string _ Hb) as (db & Hdb & Hallb).
  assert (Hfull : forall x, digit x ->
            luhn_checksum (a +:+ str x +:+ b)
            = Ok (total (rev db ++ x :: rev da) mod 10 =? 0)).
  { intros x Hx.
    rewrite (luhn_checksum_total _ (da ++ [x] ++ db)).
    - rewrite !rev_app_distr. cbn [rev app]. now rewrite <- app_assoc.
    - apply digits_of_app; [assumption|].
      apply digits_of_app; [now apply digits_of_str_digit|assumption].
    - rewrite !Forall_app. repeat split; try assumption.
      constructor; [assumption|constructor]. }
  rewrite (Hfull d Hd), (Hfull d' Hd'). intros Hvalid. f_equal.
  injection Hvalid as Hvalid. apply Z.eqb_eq in Hvalid. apply Z.eqb_neq.
  destruct (total_replace (rev db) (rev da) d d') as [Hdiff _].
  destruct (digit_differences d d' Hd Hd' Hne) as [H1 H2].
  apply (mod_10_shift _ _ Hvalid).
  replace (total (rev db ++ d :: rev da) - total (rev db ++ d' :: rev da))
    with (if Nat.even (length (rev db)) then d - d' else doubled d - doubled d').
  now destruct (Nat.even _).
Qed.

Lemma luhn_detects_single_digit_error_witness :
  luhn_checksum ("42424242" +:+ str 7 +:+ "2424242") = Ok false.
Proof.
  apply (luhn_detects_single_digit_error "42424242" "2424242" 4 7);
    first [reflexivity | lia].
Defined.

(** X8: exchanging two adjacent digits that differ is detected, except for
    the pair 0 and 9: when a number of digits passes, the number with two
    adjacent different digits exchanged fails unless the two digits are 0
    and 9, in which case it passes too. *)
Theorem luhn_adjacent_transposition (a b : string) (x y : Z) :
  forallb is_digit (chars a) = true -> forallb is_digit (chars b) = true ->
  0 <= x <= 9 -> 0 <= y <= 9 -> x <> y ->
  luhn_checksum (a +:+ str x +:+ str y +:+ b) = Ok true ->
  luhn_checksum (a +:+ str y +:+ str x +:+ b)
  = Ok (bool_decide ((x = 0 /\ y = 9) \/ (x = 9 /\ y = 0))).
Proof.
  intros Ha Hb Hx Hy Hne.
  destruct (digits_of_digit_string _ Ha) as (da & Hda & Halla).
  destruct (digits_of_digit_string _ Hb) as (db & Hdb & Hallb).
  assert (Hfull : forall u v, digit u -> digit v ->
            luhn_checksum (a +:+ str u +:+ str v +:+ b)
            = Ok (total (rev db ++ v :: u :: rev da) mod 10 =? 0)).
  { intros u v Hu Hv.
    rewrite (luhn_checksum_total _ (da ++ [u] ++ [v] ++ db)).
    - rewrite !rev_app_distr. cbn [rev app]. now rewrite <- !app_assoc.
    - apply digits_of_app; [assumption|].
      apply digits_of_app; [now apply digits_of_str_digit|].
      apply digits_of_app; [now apply digits_of_str_digit|assumption].
    - rewrite !Forall_app. repeat split; try assumption;
        (constructor; [assumption|constructor]). }
  rewrite (Hfull x y Hx Hy), (Hfull y x Hy Hx). intros Hvalid. f_equal.
  injection Hvalid as Hvalid. apply Z.eqb_eq in Hvalid.
  pose proof (total_swap (rev db) (rev da) y x) as Hdiff.
  pose proof (swap_differences x y Hx Hy Hne) as Hswap.
  set (t := total (rev db ++ y :: x :: rev da)) in *.
  set (u := total (rev db ++ x :: y :: rev da)) in *.
  set (D := (x - y) - (doubled x - doubled y)) in *.
  assert (Hu : u mod 10 = 0 <-> D mod 10 = 0).
  { destruct (Nat.even _); split; intros H; Z.div_mod_to_equations; lia. }
  case_bool_decide as Hcase.
  - apply Z.eqb_eq. tauto.
  - apply Z.eqb_neq. tauto.
Qed.

Lemma luhn_adjacent_transposition_witness :
  luhn_checksum ("4539" +:+ str 9 +:+ str 0 +:+ "0003") = Ok true
  /\ luhn_checksum ("424242424242" +:+ str 2 +:+ str 4 +:+ "42") = Ok false.
Proof.
  split.
  - apply (luhn_adjacent_transposition "4539" "0003" 0 9); first [reflexivity | lia].
  - apply (luhn_adjacent_transposition "424242424242" "42" 4 2); first [reflexivity | lia].
Defined.

(** X9: [luhn_checksum] returns a verdict exactly on the strings of decimal
    digits (the empty string included); on any other string it raises the
    [ValueError] of [int] for the first character that is not a decimal
    digit, whose message ends with that character as [repr] writes it. *)
Theorem luhn_checksum_accepts_digit_strings_only (card_number : string) :
  if forallb is_digit (chars card_number)
  then exists valid, luhn_checksum card_number = Ok valid
  else exists before c after,
         card_number = before +:+ String c after
         /\ forallb is_digit (chars before) = true
         /\ is_digit c = false
         /\ luhn_checksum card_number
            = Raise (ValueError ("invalid literal for int() with base 10: "
                                 +:+ repr_char c)).
Proof.
  destruct (forallb is_digit (chars card_number)) eqn:H.
  - destruct (digits_of_digit_string _ H) as (ds & Hds & Hall).
    eexists. now apply luhn_checksum_total with (ds := ds).
  - destruct (digits_of_raises _ H) as (before & c & after & Hs & Hbefore & Hc & Hraise).
    exists before, c, after. repeat split; try assumption.
    unfold luhn_checksum. unfold_result. now rewrite Hraise.
Qed.

End LuhnFacts.

(** ** The generator *)

Module GeneratorFacts.
Import CardGenerator.

Lemma choice_pair (a b : Z) (g : rng) :
  exists x, choice [a; b] g = Ok (x, fun n => g (S n)) /\ (x = a \/ x = b).
Proof.
  unfold choice. unfold_rand. unfold draw. cbn [length].
  pose proof (Nat.mod_upper_bound (g 0%nat) 2 ltac:(lia)) as Hlt.
  destruct (g 0%nat mod 2)%nat as [|[|k]] eqn:E; cbn.
  - exists a. auto.
  - exists b. auto.
  - lia.
Qed.

Lemma get_card_length_returns (brand card_type : option string) (g : rng) :
  exists n g', get_card_length brand card_type g = Ok (n, g').
Proof.
  unfold get_card_length.
  destruct (_ || _); [now eexists _, _|].
  destruct (contains "DINERS" _).
  { destruct (choice_pair 14 16 g) as (x & -> & _). now eexists _, _. }
  destruct (contains "DISCOVER" _).
  { destruct (choice_pair 16 19 g) as (x & -> & _). now eexists _, _. }
  destruct (is_prepaid card_type); now eexists _, _.
Qed.

Lemma fresh_digit_counts_raises : fresh_digit_counts = Raise (NameError "i").
Proof. reflexivity. Qed.

Lemma attempt_raises (bin_prefix : string) (remaining_digits : Z) (g : rng) :
  attempt bin_prefix remaining_digits g = Raise (NameError "i").
Proof.
  unfold attempt. unfold_rand. now rewrite fresh_digit_counts_raises.
Qed.

Lemma attempts_raise (k : nat) (bin_prefix : string) (remaining_digits : Z) (g : rng) :
  attempts (S k) bin_prefix remaining_digits g = Raise (NameError "i").
Proof.
  cbn [attempts]. unfold_rand. now rewrite attempt_raises.
Qed.

Lemma create_card_number_raises (bin_prefix : string) (bin_info : option BinData) (g : rng) :
  create_card_number bin_prefix bin_info g = Raise (NameError "i").
Proof.
  unfold create_card_number.
  match goal with
  | |- context [get_card_length ?b ?t] =>
      destruct (get_card_length_returns b t g) as (n & g' & Hlen)
  end.
  unfold_rand. rewrite Hlen. unfold max_attempts. now rewrite attempts_raise.
Qed.

(** C1: [create_card_number] never returns: whatever the prefix, the BIN
    record and the random draws, the first pass of its attempt loop raises
    [NameError] for the name [i]; hence [generate_test_card] never returns a
    card: it raises [ValueError] when validation fails and that [NameError]
    when the BIN is valid and unblocked. *)
Theorem create_card_number_never_returns :
  (forall bin_prefix bin_info g,
      create_card_number bin_prefix bin_info g = Raise (NameError "i"))
  /\ (forall sha256_hexdigest now bin_input db include_avs avs_country g,
         generate_test_card sha256_hexdigest now bin_input db include_avs avs_country g
         = if (validate_bin bin_input db).1.1 then Raise (NameError "i")
           else Raise (ValueError (validate_bin bin_input db).1.2)).
Proof.
  split; [exact create_card_number_raises|].
  intros sha now bin_input db include_avs avs_country g.
  unfold generate_test_card.
  destruct (validate_bin bin_input db) as [[is_valid message] bin_data].
  destruct is_valid; cbn.
  - unfold_rand. now rewrite create_card_number_raises.
  - reflexivity.
Qed.

(** *** The prefix 378282 *)

Lemma length_app (a b : string) :
  String.length (a +:+ b) = (String.length a + String.length b)%nat.
Proof. induction a as [|c a IH]; simpl; [reflexivity|now rewrite IH]. Qed.

Lemma randint_digit (g : rng) :
  exists d, randint 0 9 g = Ok (d, fun n => g (S n)) /\ 0 <= d <= 9.
Proof.
  unfold randint. change (9 <? 0) with false. cbv beta iota.
  unfold_rand. unfold draw. eexists. split; [reflexivity|].
  pose proof (Z.mod_pos_bound (Z.of_nat (g 0%nat)) (9 - 0 + 1) ltac:(lia)). lia.
Qed.

Lemma str_digit_length (d : Z) : 0 <= d <= 9 -> String.length (str d) = 1%nat.
Proof.
  intros H. apply LuhnFacts.digit_cases in H. simpl in H.
  repeat (destruct H as [<-|H]; [reflexivity|]). destruct H.
Qed.

(** The random fallback of [generate_cvv] appends exactly [n] characters. *)
Lemma random_digits_length (n : nat) (acc : string) (g : rng) :
  exists s g',
    repeatM n (fun acc => d ← randint 0 9; mret (acc +:+ str d)) acc g = Ok (s, g')
    /\ String.length s = (String.length acc + n)%nat.
Proof.
  revert acc g. induction n as [|n IH]; intros acc g; cbn [repeatM].
  - exists acc, g. split; [reflexivity|lia].
  - destruct (randint_digit g) as (d & Hd & Hrange).
    destruct (IH (acc +:+ str d) (fun k => g (S k))) as (s & g' & Hs & Hlen).
    exists s, g'. unfold_rand. rewrite Hd. split; [exact Hs|].
    rewrite Hlen, length_app, (str_digit_length d Hrange). lia.
Qed.

Lemma generate_cvv_length (sha256_hexdigest : string -> string) (card_number : string)
    (expiry : option string) (seed : bool) (g : rng) :
  exists cvv g',
    generate_cvv sha256_hexdigest card_number expiry seed g = Ok (cvv, g')
    /\ String.length cvv = cvv_length_of card_number.
Proof.
  unfold generate_cvv.
  destruct (random_digits_length (cvv_length_of card_number) EmptyString g)
    as (s & g' & Hs & Hlen).
  destruct expiry as [e|]; [|now exists s, g'].
  destruct (seed && _); [|now exists s, g'].
  destruct (_ =? _)%nat eqn:E; [|now exists s, g'].
  apply Nat.eqb_eq in E. eexists _, g. split; [reflexivity|exact E].
Qed.

(** Counterexample to C5: with a metadata store that holds 378282 as an
    American Express credit BIN and blocks nothing, generation for the
    prefix 378282 raises instead of returning a card. *)
Lemma generation_for_378282_is_refused :
  generate_test_card constant_digest new_year_2025 "378282" amex_db false None (always 0)
  = Raise (ValueError "Test BIN blocked - use production BINs only").
Proof. reflexivity. Qed.

(** C5, amended: the prefix 378282 is one of the blocked test BINs, so
    generation for it is refused whatever the metadata store holds; what the
    statement says of the Amex family holds of the rules themselves: the
    length rule gives 15 for the brand and the CVV of a number starting with
    37 has 4 digits. *)
Theorem amex_prefix_378282_blocked :
  (forall sha256_hexdigest now db include_avs avs_country g,
      generate_test_card sha256_hexdigest now "378282" db include_avs avs_country g
      = Raise (ValueError "Test BIN blocked - use production BINs only"))
  /\ (forall card_type g,
         get_card_length (Some "AMERICAN EXPRESS"%string) card_type g = Ok (15, g))
  /\ (forall sha256_hexdigest rest expiry seed g,
         exists cvv g',
           generate_cvv sha256_hexdigest ("37" +:+ rest) expiry seed g = Ok (cvv, g')
           /\ String.length cvv = 4%nat).
Proof.
  split; [|split].
  - intros sha now db include_avs avs_country g. reflexivity.
  - intros card_type g. reflexivity.
  - intros sha rest expiry seed g.
    assert (Hlen : cvv_length_of ("37" +:+ rest) = 4%nat) by (destruct rest; reflexivity).
    rewrite <- Hlen. apply generate_cvv_length.
Qed.

(** *** The format rule of validate_bin *)



(** *** The pattern filter *)

Lemma scan_reads_i (digit_str : string) (test : Z -> result bool) :
  scan digit_str test
  = if len digit_str <=? 2 then Ok false else Raise (NameError "i").
Proof.
  unfold scan, range.
  destruct (Z.leb_spec (len digit_str) 2) as [Hshort|Hlong].
  - replace (Z.to_nat (len digit_str - 2)) with O by lia. reflexivity.
  - destruct (Z.to_nat (len digit_str - 2)) as [|k] eqn:E; [lia|]. reflexivity.
Qed.

(** C7: the scan of an attempt detects no run, in the prefix, in the suffix
    or across their boundary.  Every pass of the attempt loop raises
    [NameError] for the name [i] before a suffix is generated.  The filter
    that follows in the loop body flags nothing either: each of its three
    scans reads the unbound name [i] at the first position it looks at, so
    the filter answers unflagged when the suffix string has at most two
    characters and raises [NameError] when it has more.  For the prefix
    424211 and the nine suffix digits 1, 5, 0, 2, 6, 8, 9, 3, 7 of a
    16-digit number, the run 1, 1, 1 straddles the boundary: the statement
    has it detected, the filter raises. *)
Theorem pattern_scan_flags_nothing :
  (forall bin_prefix remaining_digits g,
      attempt bin_prefix remaining_digits g = Raise (NameError "i"))
  /\ (forall bin_prefix random_digits,
         match pattern_filter bin_prefix random_digits with
         | Ok (partial_number, flagged) =>
             partial_number = bin_prefix +:+ join_str random_digits
             /\ flagged = false
             /\ len (join_str random_digits) <= 2
         | Raise e => e = NameError "i" /\ 2 < len (join_str random_digits)
         end)
  /\ pattern_filter "424211" [1; 5; 0; 2; 6; 8; 9; 3; 7] = Raise (NameError "i")
  /\ (ds ← digits_of ("424211" +:+ join_str [1; 5; 0; 2; 6; 8; 9; 3; 7]);
      Ok (spec_has_pattern ds)) = Ok true.
Proof.
  split; [exact attempt_raises|]. split; [|split; reflexivity].
  intros bin_prefix random_digits. unfold pattern_filter. rewrite !scan_reads_i.
  destruct (Z.leb_spec (len (join_str random_digits)) 2) as [Hshort|Hlong].
  - cbn. auto.
  - cbn. auto.
Qed.

(** *** The length rule *)

(** Counterexample to C8: for one Diners brand and category, two calls
    return different lengths, following the random draw. *)
Lemma diners_length_follows_the_draw :
  (exists g, get_card_length (Some "Diners Club"%string) (Some "CREDIT"%string) (always 0)
             = Ok (14, g))
  /\ (exists g, get_card_length (Some "Diners Club"%string) (Some "CREDIT"%string) (always 1)
                = Ok (16, g)).
Proof. split; eexists; reflexivity. Qed.

(** C8, amended: for every brand outside the Diners and Discover families
    (Amex-family brands included) and every category, the length is a
    function of the brand alone: 15 for the Amex family and 16 otherwise; any
    two calls return it, and no random number is drawn.  For a brand of the
    two families the length is drawn: each call consumes one random number
    and returns 14 or 16 for a Diners brand, 16 or 19 for a Discover
    brand. *)
Theorem card_length_fixed_by_brand (brand card_type : option string) (g1 g2 : rng) :
  if random_length_family brand then
    exists n1 n2,
      get_card_length brand card_type g1 = Ok (n1, fun k => g1 (S k))
      /\ get_card_length brand card_type g2 = Ok (n2, fun k => g2 (S k))
      /\ if contains "DINERS" (upper_or_empty brand)
         then (n1 = 14 \/ n1 = 16) /\ (n2 = 14 \/ n2 = 16)
         else (n1 = 16 \/ n1 = 19) /\ (n2 = 16 \/ n2 = 19)
  else
    exists n,
      get_card_length brand card_type g1 = Ok (n, g1)
      /\ get_card_length brand card_type g2 = Ok (n, g2)
      /\ n = (if amex_family brand then 15 else 16).
Proof.
  unfold random_length_family, amex_family, get_card_length.
  destruct (_ || _) eqn:Hamex; cbn [negb andb].
  - exists 15. repeat split.
  - destruct (contains "DINERS" _); cbn [orb].
    + destruct (choice_pair 14 16 g1) as (n1 & -> & H1).
      destruct (choice_pair 14 16 g2) as (n2 & -> & H2). now exists n1, n2.
    + destruct (contains "DISCOVER" _).
      * destruct (choice_pair 16 19 g1) as (n1 & -> & H1).
        destruct (choice_pair 16 19 g2) as (n2 & -> & H2). now exists n1, n2.
      * exists 16. destruct (is_prepaid card_type); repeat split.
Qed.

(** The sharp s is upper-cased to SS and the accented letters to their
    capitals: the brand written "diner" and a sharp s is a Diners brand, the
    brand written "american expre" and a sharp s an Amex brand. *)
Lemma sharp_s_brands :
  let sharp_s := String (ascii_of_nat 223) EmptyString in
  upper ("diner" +:+ sharp_s) = "DINERSS"%string
  /\ upper (String (ascii_of_nat 233) EmptyString) = String (ascii_of_nat 201) EmptyString
  /\ random_length_family (Some ("diner" +:+ sharp_s)) = true
  /\ amex_family (Some ("american expre" +:+ sharp_s)) = true
  /\ (forall card_type g,
         get_card_length (Some ("american expre" +:+ sharp_s)) card_type g = Ok (15, g)).
Proof. repeat split. Qed.

(** *** Further properties of the generator *)

Lemma test_bins_have_six_digits : Forall (fun b => String.length b = 6%nat) TEST_BINS.
Proof. repeat constructor. Qed.

(** X1: an input whose first six characters, once trimmed, are one of the
    blocked test prefixes is refused by [validate_bin] with the test-BIN
    message and no record, whatever follows the prefix and whatever the
    metadata store holds. *)
Theorem test_bins_are_always_blocked (bin_input : string) (db : Session) :
  take 6 (strip bin_input) ∈ TEST_BINS ->
  validate_bin bin_input db
  = (false, "Test BIN blocked - use production BINs only"%string, None).
Proof.
  intros H. unfold validate_bin.
  assert (Hlen : String.length (take 6 (strip bin_input)) = 6%nat).
  { pose proof test_bins_have_six_digits as Hall.
    rewrite Forall_forall in Hall. now apply Hall. }
  rewrite take_length in Hlen.
  replace (len (strip bin_input) <? 6) with false
    by (symmetry; apply Z.ltb_ge; unfold len; lia).
  now rewrite bool_decide_eq_true_2.
Qed.

Lemma test_bins_are_always_blocked_witness :
  validate_bin "  4111111111111111 " amex_db
  = (false, "Test BIN blocked - use production BINs only"%string, None).
Proof.
  apply (test_bins_are_always_blocked "  4111111111111111 " amex_db).
  vm_compute. left.
Defined.

Lemma str_digit_chars (d : Z) : 0 <= d <= 9 -> forallb isdigit (chars (str d)) = true.
Proof.
  intros H. apply LuhnFacts.digit_cases in H. cbn [In] in H.
  repeat (destruct H as [<-|H]; [reflexivity|]). destruct H.
Qed.

Lemma random_digits_numeric (n : nat) (acc : string) (g : rng) :
  forallb isdigit (chars acc) = true ->
  exists s g',
    repeatM n (fun acc => d ← randint 0 9; mret (acc +:+ str d)) acc g = Ok (s, g')
    /\ forallb isdigit (chars s) = true.
Proof.
  revert acc g. induction n as [|n IH]; intros acc g Hacc; cbn [repeatM].
  - now exists acc, g.
  - destruct (randint_digit g) as (d & Hd & Hrange).
    destruct (IH (acc +:+ str d) (fun k => g (S k))) as (s & g' & Hs & Hnum).
    { rewrite forallb_chars_app, Hacc. now apply str_digit_chars. }
    exists s, g'. unfold_rand. rewrite Hd. now split.
Qed.

Lemma keep_digits_numeric (s : string) : forallb isdigit (chars (keep_digits s)) = true.
Proof.
  unfold keep_digits, chars. rewrite list_ascii_of_string_of_list_ascii.
  apply forallb_forall. intros c Hc. now apply List.filter_In in Hc.
Qed.

(** X2: [generate_cvv] always returns, seeded or not; the CVV has 4
    characters for a number starting with 34 or 37 and 3 characters
    otherwise, and every character of it is a digit in the sense of
    [str.isdigit]. *)
Theorem cvv_length_follows_the_prefix (sha256_hexdigest : string -> string)
    (card_number : string) (expiry : option string) (seed : bool) (g : rng) :
  exists cvv g',
    generate_cvv sha256_hexdigest card_number expiry seed g = Ok (cvv, g')
    /\ String.length cvv
       = (if startswith card_number "34" || startswith card_number "37"
          then 4%nat else 3%nat)
    /\ forallb isdigit (chars cvv) = true.
Proof.
  destruct (generate_cvv_length sha256_hexdigest card_number expiry seed g)
    as (cvv & g' & Hcvv & Hlen).
  exists cvv, g'. split; [exact Hcvv|]. split; [exact Hlen|].
  revert Hcvv. unfold generate_cvv. cbv zeta.
  destruct (random_digits_numeric (cvv_length_of card_number) EmptyString g eq_refl)
    as (s & g1 & Hs & Hnum).
  assert (Hrandom : repeatM (cvv_length_of card_number)
                      (fun acc => d ← randint 0 9; mret (acc +:+ str d)) EmptyString g
                    = Ok (cvv, g') -> forallb isdigit (chars cvv) = true)
    by (rewrite Hs; intros [= <- _]; exact Hnum).
  destruct expiry as [e|]; [|exact Hrandom].
  destruct (seed && _); [|exact Hrandom].
  destruct (_ =? _)%nat; [|exact Hrandom].
  unfold_rand. intros [= <- _]. apply take_forallb, keep_digits_numeric.
Qed.

(** X3: a seeded CVV is a function of the number and the expiry: when the
    digest of their concatenation holds enough decimal digits, the CVV is
    the first of them and no random number is drawn. *)
Theorem seeded_cvv_is_reproducible (sha256_hexdigest : string -> string)
    (card_number expiry : string) (g : rng) :
  expiry <> EmptyString ->
  (cvv_length_of card_number
   <= String.length (keep_digits (sha256_hexdigest (card_number +:+ expiry))))%nat ->
  generate_cvv sha256_hexdigest card_number (Some expiry) true g
  = Ok (take (cvv_length_of card_number)
             (keep_digits (sha256_hexdigest (card_number +:+ expiry))), g).
Proof.
  intros Hne Hlen. unfold generate_cvv, truthy.
  destruct (String.eqb_spec expiry EmptyString) as [->|_]; [congruence|].
  cbn [andb negb].
  assert (Htake : forall n s, (n <= String.length s)%nat ->
                              String.length (take n s) = n).
  { unfold take. induction n as [|n IH]; intros s Hs.
    - now destruct s.
    - destruct s as [|c s]; cbn in Hs |- *; [lia|]. rewrite IH; [reflexivity|lia]. }
  rewrite (Htake _ _ Hlen), Nat.eqb_refl. reflexivity.
Qed.

Lemma seeded_cvv_is_reproducible_witness :
  generate_cvv constant_digest "4242424242424242" (Some "12/2030"%string) true (always 7)
  = Ok (take (cvv_length_of "4242424242424242")
             (keep_digits (constant_digest ("4242424242424242" +:+ "12/2030"))),
        always 7).
Proof.
  apply (seeded_cvv_is_reproducible constant_digest "4242424242424242" "12/2030").
  - discriminate.
  - vm_compute. lia.
Defined.

(** X4: for a Diners or Discover brand (and no Amex word in it) the length
    is drawn: every call consumes one random number and returns one of the
    two lengths of the family, 14 and 16 for a Diners brand, 16 and 19 for a
    Discover brand, and each of the two lengths is returned for some
    draw. *)
Theorem card_length_drawn_for_two_families (brand card_type : option string) :
  random_length_family brand = true ->
  (forall g, exists n,
      get_card_length brand card_type g = Ok (n, fun k => g (S k))
      /\ if contains "DINERS" (upper_or_empty brand)
         then n = 14 \/ n = 16 else n = 16 \/ n = 19)
  /\ (exists g g',
         get_card_length brand card_type g
         = Ok (if contains "DINERS" (upper_or_empty brand) then 14 else 16, g'))
  /\ (exists g g',
         get_card_length brand card_type g
         = Ok (if contains "DINERS" (upper_or_empty brand) then 16 else 19, g')).
Proof.
  unfold random_length_family, amex_family, get_card_length. intros H.
  destruct (_ || _) eqn:Hamex in H |- *; cbn in H; [discriminate|].
  destruct (contains "DINERS" _).
  - split; [intros g; apply choice_pair|].
    split; [exists (always 0)|exists (always 1)]; eexists; reflexivity.
  - cbn in H. rewrite H. split; [intros g; apply choice_pair|].
    split; [exists (always 0)|exists (always 1)]; eexists; reflexivity.
Qed.

Lemma card_length_drawn_for_two_families_witness :
  (forall g, exists n,
      get_card_length (Some "Discover"%string) None g = Ok (n, fun k => g (S k))
      /\ if contains "DINERS" (upper_or_empty (Some "Discover"%string))
         then n = 14 \/ n = 16 else n = 16 \/ n = 19)
  /\ (exists g g',
         get_card_length (Some "Discover"%string) None g
         = Ok (if contains "DINERS" (upper_or_empty (Some "Discover"%string))
               then 14 else 16, g'))
  /\ (exists g g',
         get_card_length (Some "Discover"%string) None g
         = Ok (if contains "DINERS" (upper_or_empty (Some "Discover"%string))
               then 16 else 19, g')).
Proof.
  apply (card_length_drawn_for_two_families (Some "Discover"%string) None).
  reflexivity.
Defined.

(** *** The verdict of validate_bin *)

(** X10: [validate_bin] answers valid exactly when it returns a record, and
    then the trimmed input has at least 6 characters, its first six are not
    a blocked test prefix and are not on the blocklist of the store, the
    record is the store's record for those six characters and the message is
    "Valid BIN": the two blocklists take precedence over the record. *)
Theorem valid_verdict_carries_the_record (bin_input : string) (db : Session) :
  ((validate_bin bin_input db).1.1 = true <-> is_Some (validate_bin bin_input db).2)
  /\ ((validate_bin bin_input db).1.1 = true ->
      6 <= len (strip bin_input)
      /\ (take 6 (strip bin_input) ∉ TEST_BINS)
      /\ query_blocked db (take 6 (strip bin_input)) = None
      /\ (validate_bin bin_input db).2 = query_bin_data db (take 6 (strip bin_input))
      /\ (validate_bin bin_input db).1.2 = "Valid BIN"%string).
Proof.
  unfold validate_bin.
  destruct (Z.ltb_spec (len (strip bin_input)) 6) as [Hshort|Hlong]; cbn [fst snd].
  { split; [split; [discriminate|intros [? [=]]]|discriminate]. }
  case_bool_decide as Htest; cbn [fst snd].
  { split; [split; [discriminate|intros [? [=]]]|discriminate]. }
  destruct (query_blocked db _) as [blocked|] eqn:Hblocked; cbn [fst snd].
  { split; [split; [discriminate|intros [? [=]]]|discriminate]. }
  destruct (query_bin_data db _) as [bin_data|] eqn:Hdata; cbn [fst snd].
  - split; [split; eauto|]. intros _. repeat split; auto.
  - split; [split; [discriminate|intros [? [=]]]|discriminate].
Qed.

(** *** format_card_display *)

Lemma range_by_4_cons (n : Z) : 0 < n -> exists rest, range_by_4 n = 0 :: rest.
Proof.
  intros Hn. unfold range_by_4, range.
  assert (H : 0 < (n + 3) / 4) by (Z.div_mod_to_equations; lia).
  destruct (Z.to_nat ((n + 3) / 4)) as [|k] eqn:E; [lia|].
  cbn [seq map]. eexists. reflexivity.
Qed.

(** X11: [format_card_display] raises [NameError] for the name [i] exactly
    on the numbers that are not empty and do not have 15 characters: the
    grouping by four reads [i], which nothing binds; so every number of 16
    or more digits fails to format, whatever the other arguments. *)
Theorem format_card_display_raises (number cvv expiry : string)
    (bin_info : option BinData) (postal_code : option string) :
  format_card_display number cvv expiry bin_info postal_code = Raise (NameError "i")
  <-> number <> EmptyString /\ len number <> 15.
Proof.
  split.
  - intros H. split.
    + intros ->. discriminate H.
    + intros Hlen. unfold format_card_display in H. rewrite Hlen in H. discriminate H.
  - intros [Hne Hlen]. unfold format_card_display.
    apply Z.eqb_neq in Hlen. rewrite Hlen.
    destruct (range_by_4_cons (len number)) as [rest ->].
    + unfold len. destruct number; [congruence|]. cbn [String.length]. lia.
    + reflexivity.
Qed.

(** X12: a number of 15 characters is displayed in three groups of 4, 6
    and 5 characters separated by single spaces; the groups put together
    give the number back; the entry [bin] holds its first six characters and
    the CVV and the expiry are passed through. *)
Theorem format_card_display_fifteen (number cvv expiry : string)
    (bin_info : option BinData) (postal_code : option string) :
  len number = 15 ->
  exists first middle last data,
    format_card_display number cvv expiry bin_info postal_code = Ok data
    /\ card_field "number" data = Some (Some (first +:+ " " +:+ middle +:+ " " +:+ last))
    /\ len first = 4 /\ len middle = 6 /\ len last = 5
    /\ first +:+ middle +:+ last = number
    /\ card_field "bin" data = Some (Some (take 6 number))
    /\ card_field "cvv" data = Some (Some cvv)
    /\ card_field "expiry" data = Some (Some expiry).
Proof.
  intros Hlen. unfold format_card_display. rewrite Hlen. cbn [Z.eqb Pos.eqb].
  unfold_result.
  exists (take 4 number), (slice 4 10 number), (drop 10 number). eexists.
  split; [reflexivity|].
  assert (Hparts : len (take 4 number) = 4 /\ len (slice 4 10 number) = 6
                   /\ len (drop 10 number) = 5
                   /\ take 4 number +:+ slice 4 10 number +:+ drop 10 number = number).
  { unfold len in Hlen.
    do 15 (destruct number as [|? number]; [discriminate|]).
    destruct number; [|cbn in Hlen; lia]. repeat split. }
  destruct Hparts as (H1 & H2 & H3 & H4).
  change (6 <=? 15) with true. cbv iota.
  destruct bin_info, (truthy postal_code); repeat split; assumption.
Qed.

Lemma format_card_display_fifteen_witness :
  exists first middle last data,
    format_card_display "378282246310005" "1234" "12/2030" (Some amex_record) None
    = Ok data
    /\ card_field "number" data = Some (Some (first +:+ " " +:+ middle +:+ " " +:+ last))
    /\ len first = 4 /\ len middle = 6 /\ len last = 5
    /\ first +:+ middle +:+ last = "378282246310005"%string
    /\ card_field "bin" data = Some (Some (take 6 "378282246310005"))
    /\ card_field "cvv" data = Some (Some "1234"%string)
    /\ card_field "expiry" data = Some (Some "12/2030"%string).
Proof.
  apply (format_card_display_fifteen "378282246310005" "1234" "12/2030"
           (Some amex_record) None).
  reflexivity.
Defined.

(** *** generate_avs_postal_code *)

Lemma postal_codes_well_formed :
  Forall (fun kv => kv.2 <> [] /\ Forall (fun code => code <> EmptyString) kv.2)
    AVS_POSTAL_CODES.
Proof. repeat constructor; discriminate. Qed.

Lemma lookup_postal_codes_spec (country : string) :
  match lookup_postal_codes country with
  | Some codes => (country, codes) ∈ AVS_POSTAL_CODES
  | None => country ∉ map fst AVS_POSTAL_CODES
  end.
Proof.
  unfold lookup_postal_codes.
  induction AVS_POSTAL_CODES as [|[k v] rest IH]; cbn [List.find map fst snd].
  - cbn. apply not_elem_of_nil.
  - destruct (String.eqb_spec k country) as [->|Hne]; cbn.
    + apply list_elem_of_here.
    + destruct (List.find _ rest) as [[k' v']|]; cbn in *.
      * now apply list_elem_of_further.
      * rewrite not_elem_of_cons. split; [congruence|exact IH].
Qed.

(** For a country of the table a code of its list is returned, which is not
    empty, and one random number is consumed. *)
Lemma generate_avs_postal_code_supported (country_code : string) (codes : list string)
    (g : rng) :
  lookup_postal_codes (upper country_code) = Some codes ->
  exists code,
    (upper country_code, codes) ∈ AVS_POSTAL_CODES /\ code ∈ codes
    /\ code <> EmptyString
    /\ generate_avs_postal_code country_code g = Ok (Some code, fun n => g (S n)).
Proof.
  intros Hcodes. unfold generate_avs_postal_code. rewrite Hcodes.
  pose proof (lookup_postal_codes_spec (upper country_code)) as Hspec.
  rewrite Hcodes in Hspec.
  pose proof postal_codes_well_formed as Hwf. rewrite Forall_forall in Hwf.
  destruct (Hwf _ Hspec) as (Hne & Hall). cbn [snd] in *.
  destruct (choice_in codes g Hne) as (code & Hchoice & Hin).
  exists code. split; [exact Hspec|]. split; [exact Hin|].
  rewrite Forall_forall in Hall. split; [now apply Hall|].
  unfold_rand. now rewrite Hchoice.
Qed.

(** X13: the postal-code lookup does not depend on the case of the country
    code and never raises: for a country whose upper-cased code is in the
    table it consumes one random number and returns one of that country's
    codes, which is not empty; for every other country it returns [None] and
    draws nothing. *)
Theorem avs_postal_code_lookup (country_code : string) (g : rng) :
  generate_avs_postal_code (upper country_code) g = generate_avs_postal_code country_code g
  /\ if bool_decide (upper country_code ∈ map fst AVS_POSTAL_CODES) then
       exists codes code,
         (upper country_code, codes) ∈ AVS_POSTAL_CODES /\ code ∈ codes
         /\ code <> EmptyString
         /\ generate_avs_postal_code country_code g = Ok (Some code, fun n => g (S n))
     else generate_avs_postal_code country_code g = Ok (None, g).
Proof.
  split; [unfold generate_avs_postal_code; now rewrite upper_idempotent|].
  pose proof (lookup_postal_codes_spec (upper country_code)) as Hspec.
  destruct (lookup_postal_codes (upper country_code)) as [codes|] eqn:Hcodes.
  - rewrite bool_decide_eq_true_2
      by (apply list_elem_of_fmap; exists (upper country_code, codes); auto).
    exists codes. now apply generate_avs_postal_code_supported.
  - rewrite bool_decide_eq_false_2 by assumption.
    unfold generate_avs_postal_code. now rewrite Hcodes.
Qed.

(** *** The pattern filter on its own *)

Lemma join_str_length (ds : list Z) :
  Forall digit ds -> len (join_str ds) = Z.of_nat (length ds).
Proof.
  unfold len. induction 1 as [|d ds Hd _ IH]; cbn [join_str fold_right length].
  - reflexivity.
  - fold (join_str ds). rewrite string_length_app, (str_digit_length d Hd). lia.
Qed.

(** X27: the scan for the three patterns reads the unbound name [i] as
    soon as it has a position to look at: for a suffix of decimal digits,
    [pattern_filter] returns (the number without check digit, not flagged)
    when the suffix has at most two digits, and raises [NameError] for [i]
    when it has three or more, whatever the digits are. *)
Theorem pattern_filter_needs_a_short_suffix (bin_prefix : string) (random_digits : list Z) :
  Forall (fun d => 0 <= d <= 9) random_digits ->
  pattern_filter bin_prefix random_digits
  = if (length random_digits <=? 2)%nat
    then Ok (bin_prefix +:+ join_str random_digits, false)
    else Raise (NameError "i").
Proof.
  intros Hdigits. unfold pattern_filter. rewrite !scan_reads_i.
  rewrite (join_str_length _ Hdigits).
  destruct (Nat.leb_spec (length random_digits) 2) as [Hshort|Hlong].
  - now replace (Z.of_nat (length random_digits) <=? 2) with true
      by (symmetry; apply Z.leb_le; lia).
  - now replace (Z.of_nat (length random_digits) <=? 2) with false
      by (symmetry; apply Z.leb_gt; lia).
Qed.

Lemma pattern_filter_needs_a_short_suffix_witness :
  pattern_filter "424242" [1; 3; 5; 7; 9; 2; 4; 6; 8]
  = if (length [1; 3; 5; 7; 9; 2; 4; 6; 8] <=? 2)%nat
    then Ok ("424242" +:+ join_str [1; 3; 5; 7; 9; 2; 4; 6; 8], false)
    else Raise (NameError "i").
Proof.
  apply (pattern_filter_needs_a_short_suffix "424242" [1; 3; 5; 7; 9; 2; 4; 6; 8]).
  repeat constructor; lia.
Defined.

End GeneratorFacts.

(** ** The admission controller *)

Module LimiterFacts.
Import RateLimiter.

Ltac unfold_op := unfold mbind, mret, op_bind, op_ret in *.

(** *** Keys and configuration *)

Lemma request_key_is_request_key (identifier action : string) :
  is_request_key (_get_rate_limit_key identifier action).
Proof. now exists (action +:+ ":" +:+ identifier). Qed.

Lemma violation_key_is_violation_key (identifier : string) :
  is_violation_key (_get_violation_key identifier).
Proof. now exists identifier. Qed.

Lemma request_key_not_violation_key (key : string) :
  is_request_key key -> is_violation_key key -> False.
Proof. intros [r ->] [v H]. discriminate H. Qed.

Lemma keys_differ (identifier action identifier' : string) :
  _get_rate_limit_key identifier action <> _get_violation_key identifier'.
Proof. discriminate. Qed.

Lemma config_positive (action : string) :
  0 < requests (config_of action) /\ 0 < window (config_of action)
  /\ 0 < burst (config_of action).
Proof.
  unfold config_of, assoc, rate_limits. cbn [List.find fst snd].
  repeat (case_bool_decide; [cbn; lia|]). cbn. lia.
Qed.

(** *** Well-formed stores *)

Lemma wf_empty : wf_store ∅.
Proof. intros key v H. now rewrite lookup_empty in H. Qed.

Lemma wf_insert_list (store : gmap string mval) (key : string) (l : list Z) :
  wf_store store -> is_request_key key -> wf_store (<[key := MList l]> store).
Proof.
  intros Hwf Hkey key' v. rewrite lookup_insert. case_decide as E.
  - intros [= <-]. subst key'. split; [now eexists|].
    intros Hv. destruct (request_key_not_violation_key _ Hkey Hv).
  - apply Hwf.
Qed.

Lemma wf_insert_int (store : gmap string mval) (key : string) (n : Z) :
  wf_store store -> is_violation_key key -> wf_store (<[key := MInt n]> store).
Proof.
  intros Hwf Hkey key' v. rewrite lookup_insert. case_decide as E.
  - intros [= <-]. subst key'. split; [|now eexists].
    intros Hr. destruct (request_key_not_violation_key _ Hr Hkey).
  - apply Hwf.
Qed.

Lemma wf_list_at (store : gmap string mval) (key : string) :
  wf_store store -> is_request_key key -> exists l, list_at store key = Some l.
Proof.
  intros Hwf Hkey. unfold list_at.
  destruct (store !! key) as [v|] eqn:E; [|now eexists].
  destruct (Hwf _ _ E) as [Hl _]. destruct (Hl Hkey) as [l ->]. now eexists.
Qed.

Lemma wf_count_at (store : gmap string mval) (key : string) :
  wf_store store -> is_violation_key key -> exists n, count_at store key = Some n.
Proof.
  intros Hwf Hkey. unfold count_at.
  destruct (store !! key) as [v|] eqn:E; [|now eexists].
  destruct (Hwf _ _ E) as [_ Hn]. destruct (Hn Hkey) as [n ->]. now eexists.
Qed.

Create HintDb limiter.
#[local] Hint Resolve wf_empty wf_insert_list wf_insert_int
  request_key_is_request_key violation_key_is_violation_key : limiter.

(** *** The in-process methods, one by one *)

Lemma memory_get_usage_spec (c : call) (key : string) (window : Z) (lim : limiter)
    (l : list Z) :
  list_at (memory_store lim) key = Some l ->
  exists store',
    _memory_get_usage c key window lim
    = (set_store lim store',
       Ok (Z.of_nat (length (live_at (now_memory c) window l)),
           now_memory c - now_memory c mod window))
    /\ store' !! key = Some (MList (live_at (now_memory c) window l))
    /\ (forall key', key' <> key -> store' !! key' = memory_store lim !! key').
Proof.
  unfold list_at, _memory_get_usage. intros H.
  destruct (memory_store lim !! key) as [[l0|n]|] eqn:E; try discriminate;
    injection H as <-.
  - rewrite E. eexists. split; [reflexivity|]. split.
    + apply lookup_insert_eq.
    + intros key' Hne. now apply lookup_insert_ne.
  - rewrite lookup_insert_eq. eexists. split; [reflexivity|]. split.
    + apply lookup_insert_eq.
    + intros key' Hne. rewrite !lookup_insert_ne by congruence. reflexivity.
Qed.

Lemma memory_record_request_spec (key : string) (timestamp : Z) (lim : limiter)
    (l : list Z) :
  memory_store lim !! key = Some (MList l) ->
  _memory_record_request key timestamp lim
  = (set_store lim (<[key := MList (l ++ [timestamp])]> (memory_store lim)), Ok tt).
Proof. unfold _memory_record_request. intros H. now rewrite H, H. Qed.

(** *** One call without the shared store *)

Lemma get_current_usage_unavailable (c : call) (key : string) (window : Z) (lim : limiter) :
  unavailable lim c ->
  _get_current_usage c key window lim = _memory_get_usage c key window lim.
Proof.
  unfold _get_current_usage. intros [H|(H & _)]; rewrite H; [reflexivity|].
  now destruct (redis_client lim).
Qed.

Lemma record_request_unavailable (c : call) (key : string) (window : Z) (lim : limiter) :
  unavailable lim c ->
  _record_request c key window lim = _memory_record_request key (now_record c) lim.
Proof.
  unfold _record_request. intros [H|(_ & _ & _ & _ & H)]; rewrite H; [reflexivity|].
  now destruct (redis_client lim).
Qed.

Lemma unavailable_set_store (lim : limiter) (c : call) (store : gmap string mval) :
  unavailable lim c -> unavailable (set_store lim store) c.
Proof. unfold unavailable. cbn. tauto. Qed.

(** The violation counter is read and bumped without raising, and the
    request lists are left alone. *)
Lemma get_violation_count_ok (c : call) (identifier : string) (lim : limiter) :
  wf_store (memory_store lim) ->
  exists n, _get_violation_count c identifier lim = (lim, Ok n).
Proof.
  intros Hwf. unfold _get_violation_count.
  destruct (redis_client lim) as [db|].
  - destruct (up_count c); now eexists.
  - destruct (wf_count_at _ _ Hwf (violation_key_is_violation_key identifier))
      as [n Hn].
    unfold count_at in Hn.
    destruct (memory_store lim !! _) as [[l|m]|]; try discriminate; now eexists.
Qed.

Lemma record_violation_ok (c : call) (identifier : string) (lim : limiter) :
  wf_store (memory_store lim) ->
  exists lim',
    _record_violation c identifier lim = (lim', Ok tt)
    /\ wf_store (memory_store lim')
    /\ (redis_client lim = None -> redis_client lim' = None)
    /\ (forall key, is_request_key key ->
                    memory_store lim' !! key = memory_store lim !! key).
Proof.
  intros Hwf. unfold _record_violation.
  pose proof (violation_key_is_violation_key identifier) as Hv.
  destruct (redis_client lim) as [db|] eqn:Hc.
  - destruct (up_violation c); eexists; (split; [reflexivity|]); cbn;
      (split; [exact Hwf|]); (split; [discriminate|reflexivity]).
  - destruct (wf_count_at _ _ Hwf Hv) as [n Hn]. unfold count_at in Hn.
    destruct (memory_store lim !! _) as [[l|m]|] eqn:E; try discriminate;
      eexists; (split; [reflexivity|]); cbn;
      (split; [now apply wf_insert_int|]); (split; [auto|]);
      intros key Hr; apply lookup_insert_ne; intros <-;
      exact (request_key_not_violation_key _ Hr Hv).
Qed.

(** What a call does when the shared store is not there: it never raises,
    and it is allowed exactly when fewer than [limit] timestamps of the key
    are within the window. *)
Lemma check_unavailable (c : call) (identifier action : string) (lim : limiter)
    (l : list Z) :
  unavailable lim c ->
  wf_store (memory_store lim) ->
  list_at (memory_store lim) (_get_rate_limit_key identifier action) = Some l ->
  let kept := live_at (now_memory c) (window (config_of action)) l in
  exists lim' v,
    check_rate_limit c identifier action lim = (lim', Ok v)
    /\ wf_store (memory_store lim')
    /\ (redis_client lim = None -> redis_client lim' = None)
    /\ allowed (Ok v) = (Z.of_nat (length kept) <? requests (config_of action))
    /\ denied (Ok v) = negb (Z.of_nat (length kept) <? requests (config_of action))
    /\ list_at (memory_store lim') (_get_rate_limit_key identifier action)
       = Some (if Z.of_nat (length kept) <? requests (config_of action)
               then kept ++ [now_record c] else kept).
Proof.
  intros Hun Hwf Hl kept.
  pose proof (request_key_is_request_key identifier action) as Hkey.
  destruct (config_positive action) as (Hreq & Hwin & Hburst).
  unfold check_rate_limit. unfold_op.
  rewrite (get_current_usage_unavailable _ _ _ _ Hun).
  destruct (memory_get_usage_spec c _ (window (config_of action)) lim l Hl)
    as (store1 & -> & Hk1 & Hother).
  fold kept in Hk1 |- *.
  assert (Hwf1 : wf_store store1).
  { intros key v Hv. destruct (decide (key = _get_rate_limit_key identifier action)) as [->|Hne].
    - rewrite Hk1 in Hv. injection Hv as <-. split; [now eexists|].
      intros Hvk. destruct (request_key_not_violation_key _ Hkey Hvk).
    - rewrite (Hother _ Hne) in Hv. now apply Hwf. }
  set (lim1 := set_store lim store1).
  assert (Hrecent : (match redis_client lim1 with
                     | Some db =>
                         if up_burst c
                         then (lim1, Ok (zcount (now_burst c)
                                           (_get_rate_limit_key identifier action)
                                           (now_burst c - 60) (now_burst c) db))
                         else (lim1, Ok 0)
                     | None => (lim1, Ok 0)
                     end) = (lim1, Ok 0)).
  { destruct Hun as [H|(_ & H & _)]; cbn; rewrite H; [reflexivity|].
    now destruct (redis_client lim). }
  rewrite Hrecent.
  destruct (get_violation_count_ok c identifier lim1 Hwf1) as [n ->].
  replace (0 >=? burst (config_of action)) with false
    by (symmetry; rewrite Z.geb_leb; apply Z.leb_gt; lia).
  rewrite Z.geb_leb, Z.leb_antisym.
  destruct (Z.of_nat (length kept) <? requests (config_of action)) eqn:Hcount; cbn [negb].
  - rewrite (record_request_unavailable c _ _ lim1 (unavailable_set_store _ _ store1 Hun)).
    rewrite (memory_record_request_spec _ _ lim1 kept Hk1).
    eexists _, _. split; [reflexivity|]. cbn.
    split; [now apply wf_insert_list|]. split; [auto|].
    repeat split. unfold list_at. now rewrite lookup_insert_eq.
  - destruct (record_violation_ok c identifier lim1 Hwf1) as (lim2 & -> & Hwf2 & Hc2 & Hkeep).
    eexists _, _. split; [reflexivity|]. split; [exact Hwf2|].
    split; [intros Hnone; now apply Hc2|].
    repeat split. unfold list_at. rewrite (Hkeep _ Hkey). cbn. now rewrite Hk1.
Qed.

(** *** Sequences of calls within one window *)

Section Window.

Variables (identifier action : string) (start : Z).

Let key := _get_rate_limit_key identifier action.
Let limit := requests (config_of action).
Let span := window (config_of action).

(** A stored timestamp is either of this window or older than every window
    that a call of this window looks at. *)
Let placed (timestamp : Z) : Prop := start <= timestamp \/ timestamp <= start - span.

Lemma live_in_window (now : Z) (l : list Z) :
  start <= now < start + span -> Forall placed l ->
  live_at now span l = List.filter (fun t => start <=? t) l.
Proof.
  intros Hnow Hall. unfold live_at. apply List.filter_ext_in.
  intros t Hin. rewrite Forall_forall in Hall.
  assert (Ht : placed t) by (apply Hall; now apply list_elem_of_In).
  unfold placed in Ht. rewrite Z.gtb_ltb.
  destruct (Z.ltb_spec (now - span) t), (Z.leb_spec start t); lia.
Qed.

Lemma filter_all (l : list Z) :
  Forall (fun t => start <= t) l -> List.filter (fun t => start <=? t) l = l.
Proof.
  induction 1 as [|t l Ht _ IH]; cbn; [reflexivity|].
  rewrite IH. now destruct (Z.leb_spec start t); [|lia].
Qed.

Lemma filter_recent (l : list Z) :
  Forall (fun t => start <= t) (List.filter (fun t => start <=? t) l).
Proof.
  apply Forall_forall. intros t Hin. apply list_elem_of_In, List.filter_In in Hin.
  destruct Hin as [_ Hin]. now apply Z.leb_le in Hin.
Qed.

Lemma expected_allowed_cons (used n : nat) :
  expected_allowed limit used (S n)
  = (Z.of_nat used <? limit)
      :: (if Z.of_nat used <? limit then expected_allowed limit (S used) n
          else expected_allowed limit used n).
Proof.
  unfold expected_allowed. cbn [seq map]. rewrite Nat.add_0_r. f_equal.
  rewrite <- seq_shift, map_map.
  destruct (Z.ltb_spec (Z.of_nat used) limit) as [Hlt|Hge].
  - apply map_ext. intros j. do 2 f_equal. lia.
  - apply map_ext. intros j.
    destruct (Z.ltb_spec (Z.of_nat (used + S j)) limit),
             (Z.ltb_spec (Z.of_nat (used + j)) limit); lia || reflexivity.
Qed.

Lemma unavailable_after (lim lim' : limiter) (c : call) :
  (redis_client lim = None -> redis_client lim' = None) ->
  unavailable lim c -> unavailable lim' c.
Proof. intros H [Hnone|Hdown]; [left; auto|right; exact Hdown]. Qed.

Lemma run_unavailable_in_window (calls : list call) :
  forall (lim : limiter) (l : list Z),
    Forall (unavailable lim) calls ->
    wf_store (memory_store lim) ->
    list_at (memory_store lim) key = Some l ->
    Forall placed l ->
    Forall (in_window start span) calls ->
    let used := length (List.filter (fun t => start <=? t) l) in
    map allowed (run identifier action calls lim).2 = expected_allowed limit used (length calls)
    /\ map denied (run identifier action calls lim).2
       = map negb (expected_allowed limit used (length calls)).
Proof.
  induction calls as [|c calls IH]; intros lim l Hun Hwf Hl Hplaced Hcalls used.
  - split; reflexivity.
  - inversion Hcalls as [|? ? [Hnow Hrec] Hrest]; subst.
    inversion Hun as [|? ? Hc Hunrest]; subst.
    destruct (check_unavailable c identifier action lim l Hc Hwf Hl)
      as (lim' & v & Hcheck & Hwf' & Hc' & Hallowed & Hdenied & Hl').
    assert (Hun' : Forall (unavailable lim') calls).
    { eapply Forall_impl; [exact Hunrest|]. intros c'. now apply unavailable_after. }
    fold key limit span in Hcheck, Hallowed, Hdenied, Hl'.
    rewrite (live_in_window _ _ Hnow Hplaced) in Hallowed, Hdenied, Hl'.
    fold used in Hallowed, Hdenied, Hl'.
    cbn [run]. rewrite Hcheck.
    destruct (run identifier action calls lim') as [lim'' outs] eqn:Hrun.
    cbn [snd map length]. rewrite expected_allowed_cons, Hallowed, Hdenied.
    pose proof (filter_recent l) as Hrecent.
    destruct (Z.of_nat used <? limit) eqn:Hlt; cbn [map negb].
    + specialize (IH lim' _ Hun' Hwf' Hl').
      rewrite Hrun in IH. cbn [snd] in IH.
      assert (Hnew : Forall (fun t => start <= t)
                       (List.filter (fun t => start <=? t) l ++ [now_record c])).
      { apply Forall_app. split; [exact Hrecent|]. now repeat constructor. }
      rewrite (filter_all _ Hnew), length_app in IH. cbn [length] in IH.
      rewrite Nat.add_1_r in IH. fold used in IH.
      destruct IH as [IH1 IH2]; [|exact Hrest|now rewrite IH1, IH2].
      eapply Forall_impl; [exact Hnew|]. intros t Ht. now left.
    + specialize (IH lim' _ Hun' Hwf' Hl').
      rewrite Hrun in IH. cbn [snd] in IH.
      rewrite (filter_all _ Hrecent) in IH. fold used in IH.
      destruct IH as [IH1 IH2]; [|exact Hrest|now rewrite IH1, IH2].
      eapply Forall_impl; [exact Hrecent|]. intros t Ht. now left.
Qed.

Lemma run_in_window (calls : list call) :
  forall (lim : limiter) (l : list Z),
    redis_client lim = None ->
    wf_store (memory_store lim) ->
    list_at (memory_store lim) key = Some l ->
    Forall placed l ->
    Forall (in_window start span) calls ->
    let used := length (List.filter (fun t => start <=? t) l) in
    map allowed (run identifier action calls lim).2 = expected_allowed limit used (length calls)
    /\ map denied (run identifier action calls lim).2
       = map negb (expected_allowed limit used (length calls)).
Proof.
  intros lim l Hc. apply run_unavailable_in_window.
  apply Forall_forall. intros c _. now left.
Qed.

End Window.

(** *** The quota of a window *)

Lemma stale_filtered_out (start span : Z) (l : list Z) :
  0 < span -> Forall (fun t => t <= start - span) l ->
  List.filter (fun t => start <=? t) l = [].
Proof.
  intros Hspan. induction 1 as [|t l Ht _ IH]; cbn; [reflexivity|].
  rewrite IH. now destruct (Z.leb_spec start t); [lia|].
Qed.

Lemma all_dead (now span : Z) (l : list Z) :
  Forall (fun t => t <= now - span) l -> live_at now span l = [].
Proof.
  unfold live_at. induction 1 as [|t l Ht _ IH]; cbn; [reflexivity|].
  rewrite IH, Z.gtb_ltb. now destruct (Z.ltb_spec (now - span) t); [lia|].
Qed.

(** Counterexample to C3: on the shared store, eleven calls of one identity
    at eleven successive seconds, for the action "default" (60 requests per
    60 seconds, burst 10): all within one window and within the limit of 60,
    yet the eleventh is denied, by the burst rule. *)
Lemma burst_rule_denies_within_the_quota :
  requests (config_of "default") = 60
  /\ window (config_of "default") = 60
  /\ map now_record (every_second_from 1 11) = [1; 2; 3; 4; 5; 6; 7; 8; 9; 10; 11]
  /\ map allowed (run "u" "default" (every_second_from 1 11) on_shared_store).2
     = [true; true; true; true; true; true; true; true; true; true; false].
Proof. repeat split; vm_compute; reflexivity. Qed.

(** C3, amended: on the in-process store (no shared store; this is how the
    module builds its limiter), for every identity and action with limit N
    per window: of a sequence of calls of that identity within one window,
    starting with no request of the window on record, exactly the first N are
    allowed and every later one, the (N+1)th first, is denied; and a call
    that arrives when every recorded request is at least a window old is
    allowed again. *)
Theorem in_process_window_quota (identifier action : string) :
  (forall (lim : limiter) (l : list Z) (calls : list call) (start : Z),
      redis_client lim = None ->
      wf_store (memory_store lim) ->
      list_at (memory_store lim) (_get_rate_limit_key identifier action) = Some l ->
      Forall (fun t => t <= start - window (config_of action)) l ->
      Forall (in_window start (window (config_of action))) calls ->
      map allowed (run identifier action calls lim).2
      = expected_allowed (requests (config_of action)) 0 (length calls)
      /\ map denied (run identifier action calls lim).2
         = map negb (expected_allowed (requests (config_of action)) 0 (length calls)))
  /\ (forall (lim : limiter) (l : list Z) (c : call),
         redis_client lim = None ->
         wf_store (memory_store lim) ->
         list_at (memory_store lim) (_get_rate_limit_key identifier action) = Some l ->
         Forall (fun t => t <= now_memory c - window (config_of action)) l ->
         allowed (check_rate_limit c identifier action lim).2 = true).
Proof.
  destruct (config_positive action) as (Hreq & Hwin & _). split.
  - intros lim l calls start Hc Hwf Hl Hstale Hcalls.
    pose proof (run_in_window identifier action start calls lim l Hc Hwf Hl) as H.
    cbv zeta in H. rewrite (stale_filtered_out _ _ _ Hwin Hstale) in H.
    apply H; [|exact Hcalls].
    eapply Forall_impl; [exact Hstale|]. intros t Ht. now right.
  - intros lim l c Hc Hwf Hl Hdead.
    destruct (check_unavailable c identifier action lim l (or_introl Hc) Hwf Hl)
      as (lim' & v & Hcheck & _ & _ & Hallowed & _).
    rewrite Hcheck. cbn [snd]. rewrite Hallowed, (all_dead _ _ _ Hdead).
    cbn [length]. now apply Z.ltb_lt.
Qed.

Lemma in_process_window_quota_witness :
  (map allowed (run "u" "auth" (every_second_from 1 12) in_process).2
   = expected_allowed (requests (config_of "auth")) 0 12
   /\ map denied (run "u" "auth" (every_second_from 1 12) in_process).2
      = map negb (expected_allowed (requests (config_of "auth")) 0 12))
  /\ allowed (check_rate_limit (at_time 400) "u" "auth"
                {| redis_client := None;
                   memory_store := <[_get_rate_limit_key "u" "auth" := MList [1; 2; 3]]> ∅ |}).2
     = true.
Proof.
  split.
  - apply (proj1 (in_process_window_quota "u" "auth") in_process [] (every_second_from 1 12) 1).
    + reflexivity.
    + exact wf_empty.
    + reflexivity.
    + constructor.
    + change (window (config_of "auth")) with 300.
      unfold in_window, every_second_from. cbn.
      repeat (constructor; [unfold at_time; cbn; lia|]). constructor.
  - apply (proj2 (in_process_window_quota "u" "auth") _ [1; 2; 3] (at_time 400)).
    + reflexivity.
    + apply wf_insert_list; [exact wf_empty|apply request_key_is_request_key].
    + reflexivity.
    + change (window (config_of "auth")) with 300.
      repeat (constructor; [unfold at_time; cbn; lia|]). constructor.
Defined.

(** *** The penalty *)

Lemma penalty_table :
  map _calculate_penalty_delay [0; 1; 2; 3; 4; 5; 6; 7]
  = [960; 60; 120; 240; 480; 960; 960; 960].
Proof. reflexivity. Qed.

(** C4, what the code does: for the action "auth" (10 requests per 300
    seconds) on the in-process store, the calls from the eleventh on are
    violations; the first violation is answered with a delay of 960 seconds
    (16 times the base delay), the second with 60 seconds, and only from
    there the delays double. *)
Lemma first_violation_gets_the_longest_delay :
  map retry_after (run "u" "auth" (every_second_from 1 17) in_process).2
  = [None; None; None; None; None; None; None; None; None; None;
     Some 960; Some 60; Some 120; Some 240; Some 480; Some 960; Some 960].
Proof. vm_compute. reflexivity. Qed.

(** *** Without the shared store *)

(** Counterexample to C10: the same eleven calls, one per second, for the
    action "default" (burst 10): the in-process store allows all of them,
    the shared store denies the eleventh. *)
Lemma fallback_applies_no_burst_limit :
  map allowed (run "u" "default" (every_second_from 1 11) in_process).2
  = [true; true; true; true; true; true; true; true; true; true; true]
  /\ map allowed (run "u" "default" (every_second_from 1 11) on_shared_store).2
     = [true; true; true; true; true; true; true; true; true; true; false].
Proof. split; vm_compute; reflexivity. Qed.

(** C10, amended: when the shared store is not there (no client was built,
    or every exchange of a call with it fails), [check_rate_limit] on a
    well-formed in-process store never fails and enforces the window limit
    on the in-process record, and that limit alone.  One call returns a
    verdict and leaves the store well-formed; it is allowed exactly when
    fewer than the limit of the key's recorded timestamps lie within the
    window, and denied otherwise; afterwards the key holds the timestamps
    that lie within the window, followed by the time of the call when it was
    allowed.  Hence, of a sequence of such calls within one window, [used]
    requests of the window being on record, exactly those before the limit is
    reached are allowed and every later one is denied.  No burst limit takes
    part. *)
Theorem fallback_enforces_the_window_limit_only (identifier action : string) :
  (forall (c : call) (lim : limiter),
      unavailable lim c ->
      wf_store (memory_store lim) ->
      exists l lim' v,
        list_at (memory_store lim) (_get_rate_limit_key identifier action) = Some l
        /\ check_rate_limit c identifier action lim = (lim', Ok v)
        /\ wf_store (memory_store lim')
        /\ allowed (Ok v)
           = (Z.of_nat (length (live_at (now_memory c) (window (config_of action)) l))
              <? requests (config_of action))
        /\ denied (Ok v) = negb (allowed (Ok v))
        /\ list_at (memory_store lim') (_get_rate_limit_key identifier action)
           = Some (if allowed (Ok v)
                   then live_at (now_memory c) (window (config_of action)) l
                        ++ [now_record c]
                   else live_at (now_memory c) (window (config_of action)) l))
  /\ (forall (lim : limiter) (l : list Z) (calls : list call) (start : Z),
         Forall (unavailable lim) calls ->
         wf_store (memory_store lim) ->
         list_at (memory_store lim) (_get_rate_limit_key identifier action) = Some l ->
         Forall (fun t => start <= t \/ t <= start - window (config_of action)) l ->
         Forall (in_window start (window (config_of action))) calls ->
         let used := length (List.filter (fun t => start <=? t) l) in
         map allowed (run identifier action calls lim).2
         = expected_allowed (requests (config_of action)) used (length calls)
         /\ map denied (run identifier action calls lim).2
            = map negb (expected_allowed (requests (config_of action)) used (length calls))).
Proof.
  split.
  - intros c lim Hun Hwf.
    destruct (wf_list_at _ _ Hwf (request_key_is_request_key identifier action)) as [l Hl].
    destruct (check_unavailable c identifier action lim l Hun Hwf Hl)
      as (lim' & v & Hcheck & Hwf' & _ & Hallowed & Hdenied & Hl').
    exists l, lim', v. rewrite Hallowed, Hdenied. auto 10.
  - intros lim l calls start Hun Hwf Hl Hplaced Hcalls.
    exact (run_unavailable_in_window identifier action start calls lim l
             Hun Hwf Hl Hplaced Hcalls).
Qed.

(** Fifteen calls of one identity for the action "auth" (10 requests per 300
    seconds), one per second, on a limiter whose shared store fails at every
    exchange: the first ten are allowed and the last five denied. *)
Lemma fallback_enforces_the_window_limit_only_witness :
  (map allowed (run "u" "auth" (map down_at (range 15)) on_shared_store).2
   = expected_allowed (requests (config_of "auth")) 0 (length (map down_at (range 15)))
   /\ map denied (run "u" "auth" (map down_at (range 15)) on_shared_store).2
      = map negb (expected_allowed (requests (config_of "auth")) 0
                    (length (map down_at (range 15)))))
  /\ expected_allowed (requests (config_of "auth")) 0 (length (map down_at (range 15)))
     = [true; true; true; true; true; true; true; true; true; true;
        false; false; false; false; false].
Proof.
  split; [|reflexivity].
  apply (proj2 (fallback_enforces_the_window_limit_only "u" "auth")
           on_shared_store [] (map down_at (range 15)) 0).
  - repeat (constructor; [right; repeat split; reflexivity|]). constructor.
  - exact wf_empty.
  - reflexivity.
  - constructor.
  - change (window (config_of "auth")) with 300.
    repeat (constructor; [unfold in_window, down_at; cbn; lia|]). constructor.
Defined.

(** *** A call never fails *)

Lemma memory_get_usage_ok (c : call) (key : string) (window : Z) (lim : limiter) :
  wf_store (memory_store lim) -> is_request_key key ->
  exists lim' usage,
    _memory_get_usage c key window lim = (lim', Ok usage)
    /\ wf_store (memory_store lim').
Proof.
  intros Hwf Hkey. destruct (wf_list_at _ _ Hwf Hkey) as [l Hl].
  destruct (memory_get_usage_spec c key window lim l Hl) as (store' & -> & Hk & Hother).
  eexists _, _. split; [reflexivity|]. cbn.
  intros key' v Hv. destruct (decide (key' = key)) as [->|Hne].
  - rewrite Hk in Hv. injection Hv as <-. split; [now eexists|].
    intros Hvk. destruct (request_key_not_violation_key _ Hkey Hvk).
  - rewrite (Hother _ Hne) in Hv. now apply Hwf.
Qed.

Lemma get_current_usage_ok (c : call) (key : string) (window : Z) (lim : limiter) :
  wf_store (memory_store lim) -> is_request_key key ->
  exists lim' usage,
    _get_current_usage c key window lim = (lim', Ok usage)
    /\ wf_store (memory_store lim').
Proof.
  intros Hwf Hkey. unfold _get_current_usage.
  destruct (redis_client lim) as [db|]; [destruct (up_usage c)|];
    eauto using memory_get_usage_ok.
Qed.

Lemma record_request_ok (c : call) (key : string) (window : Z) (lim : limiter) :
  wf_store (memory_store lim) -> is_request_key key ->
  exists lim',
    _record_request c key window lim = (lim', Ok tt)
    /\ wf_store (memory_store lim').
Proof.
  intros Hwf Hkey.
  assert (Hmem : exists lim',
             _memory_record_request key (now_record c) lim = (lim', Ok tt)
             /\ wf_store (memory_store lim')).
  { unfold _memory_record_request.
    destruct (memory_store lim !! key) as [v|] eqn:E.
    - destruct (Hwf _ _ E) as [Hlist _]. destruct (Hlist Hkey) as [l ->].
      rewrite E. eexists. split; [reflexivity|]. cbn. auto with limiter.
    - rewrite lookup_insert_eq. eexists. split; [reflexivity|]. cbn.
      auto with limiter. }
  unfold _record_request.
  destruct (redis_client lim) as [db|]; [destruct (up_record c)|]; eauto.
Qed.

(** X6: on a well-formed in-process store a call never ends in an internal
    error, with or without the shared store and whichever of its exchanges
    fail: it returns a verdict, allowed or denied, and leaves the store
    well-formed. *)
Theorem check_rate_limit_never_fails (c : call) (identifier action : string)
    (lim : limiter) :
  wf_store (memory_store lim) ->
  exists lim' v,
    check_rate_limit c identifier action lim = (lim', Ok v)
    /\ wf_store (memory_store lim').
Proof.
  intros Hwf. unfold check_rate_limit. unfold_op.
  pose proof (request_key_is_request_key identifier action) as Hkey.
  destruct (get_current_usage_ok c _ (window (config_of action)) lim Hwf Hkey)
    as (lim1 & [current_count window_start] & -> & Hwf1).
  assert (Hburst : exists recent,
             (match redis_client lim1 with
              | Some db =>
                  if up_burst c
                  then (lim1, Ok (zcount (now_burst c)
                                    (_get_rate_limit_key identifier action)
                                    (now_burst c - 60) (now_burst c) db))
                  else (lim1, Ok 0)
              | None => (lim1, Ok 0)
              end) = (lim1, Ok recent)).
  { destruct (redis_client lim1); [destruct (up_burst c)|]; eauto. }
  destruct Hburst as [recent ->].
  destruct (get_violation_count_ok c identifier lim1 Hwf1) as [n ->].
  destruct (if current_count >=? requests (config_of action) then _ else _).
  - destruct (record_violation_ok c identifier lim1 Hwf1) as (lim2 & -> & Hwf2 & _).
    eauto.
  - destruct (record_request_ok c _ (window (config_of action)) lim1 Hwf1 Hkey)
      as (lim2 & -> & Hwf2).
    eauto.
Qed.

Lemma check_rate_limit_never_fails_witness :
  exists lim' v,
    check_rate_limit (at_time 7) "u" "premium" on_shared_store = (lim', Ok v)
    /\ wf_store (memory_store lim').
Proof.
  apply (check_rate_limit_never_fails (at_time 7) "u" "premium" on_shared_store).
  exact wf_empty.
Defined.

(** *** Further properties of the limiter *)

(** X5: the delay as a function of the count: never below the base delay
    of 60 seconds and never above 16 times it; the full 960 seconds for every
    count outside 1..4, the count 0 of a first violation included; and
    60 * 2^(count - 1) seconds for the counts 1 to 4. *)
Theorem penalty_delay_bounds (violation_count : Z) :
  60 <= _calculate_penalty_delay violation_count <= 960
  /\ (violation_count <= 0 \/ 5 <= violation_count ->
      _calculate_penalty_delay violation_count = 960)
  /\ (1 <= violation_count <= 4 ->
      _calculate_penalty_delay violation_count = 60 * 2 ^ (violation_count - 1)).
Proof.
  assert (Hcases : violation_count <= 0 \/ violation_count = 1 \/ violation_count = 2
                   \/ violation_count = 3 \/ violation_count = 4
                   \/ 5 <= violation_count) by lia.
  assert (Hout : violation_count <= 0 \/ 5 <= violation_count ->
                 _calculate_penalty_delay violation_count = 960).
  { unfold _calculate_penalty_delay. cbv zeta.
    change (fold_right Z.max 0 (map fst penalty_multipliers)) with 5.
    intros [Hneg|Hbig].
    - rewrite Z.min_l by lia. unfold assoc, penalty_multipliers. cbn [List.find fst].
      repeat (case_bool_decide; [lia|]). reflexivity.
    - rewrite Z.min_r by lia. reflexivity. }
  split; [|split; [exact Hout|]].
  - destruct Hcases as [H|[->|[->|[->|[->|H]]]]];
      try (rewrite Hout by auto; lia); vm_compute; split; discriminate.
  - intros Hin. destruct Hcases as [H|[->|[->|[->|[->|H]]]]]; try lia; reflexivity.
Qed.

Lemma config_above_one (action : string) :
  1 < requests (config_of action) /\ 1 < burst (config_of action).
Proof.
  unfold config_of, assoc, rate_limits. cbn [List.find fst snd].
  repeat (case_bool_decide; [cbn; lia|]). cbn. lia.
Qed.

Lemma live_absent {V} (m : gmap string (V * option Z)) (key : string) (now : Z) :
  m !! key = None -> live m key now = None.
Proof. unfold live. now intros ->. Qed.

Lemma live_present {V} (m : gmap string (V * option Z)) (key : string) (now : Z)
    (v : V) (d : Z) :
  m !! key = Some (v, Some d) -> now < d -> live m key now = Some (v, Some d).
Proof.
  unfold live. intros -> H. cbn [expired].
  now destruct (Z.leb_spec d now); [lia|].
Qed.

Lemma filter_keeps_request (t lo hi : Z) :
  ~ (lo <= t <= hi) ->
  filter (fun entry : Z * Z => ~ in_score_range lo hi entry) ({[t := t]} : gmap Z Z)
  = {[t := t]}.
Proof. intros H. now apply map_filter_singleton_True. Qed.

Lemma filter_counts_request (t lo hi : Z) :
  lo <= t <= hi ->
  filter (in_score_range lo hi) ({[t := t]} : gmap Z Z) = {[t := t]}.
Proof. intros H. now apply map_filter_singleton_True. Qed.

(** One call on the shared store when every exchange goes through, in
    terms of the commands issued. *)
Lemma check_on_shared_store (c : call) (identifier action : string) (db : redis_db)
    (store : gmap string mval) :
  up_usage c = true -> up_burst c = true -> up_count c = true ->
  up_violation c = true -> up_record c = true ->
  let key := _get_rate_limit_key identifier action in
  let violation_key := _get_violation_key identifier in
  let span := window (config_of action) in
  let limit := requests (config_of action) in
  let pruned := zremrangebyscore (now_usage c) key 0 (now_usage c - span) db in
  let current_count := zcard (now_usage c) key pruned in
  let db1 := expire_zset (now_usage c) key span pruned in
  let recent_requests := zcount (now_burst c) key (now_burst c - 60) (now_burst c) db1 in
  let violation_count := default 0 (get (now_burst c) violation_key db1) in
  let reset := now_usage c - now_usage c mod span + span in
  check_rate_limit c identifier action {| redis_client := Some db; memory_store := store |}
  = if current_count >=? limit then
      ({| redis_client :=
            Some (expire_counter (now_burst c) violation_key 3600
                    (incr (now_burst c) violation_key db1));
          memory_store := store |},
       Ok (TooManyRequests
             ("Rate limit exceeded: " +:+ str current_count +:+ "/" +:+ str limit
              +:+ " requests per " +:+ str span +:+ "s")
             (_calculate_penalty_delay violation_count) (violation_count + 1)
             (Z.max 0 (limit - current_count)) reset))
    else if recent_requests >=? burst (config_of action) then
      ({| redis_client :=
            Some (expire_counter (now_burst c) violation_key 3600
                    (incr (now_burst c) violation_key db1));
          memory_store := store |},
       Ok (TooManyRequests
             ("Burst limit exceeded: " +:+ str recent_requests +:+ "/"
              +:+ str (burst (config_of action)) +:+ " requests per minute")
             (_calculate_penalty_delay violation_count) (violation_count + 1)
             (Z.max 0 (limit - current_count)) reset))
    else
      ({| redis_client :=
            Some (expire_zset (now_record c) key span
                    (zadd (now_record c) key (now_record c) (now_record c) db1));
          memory_store := store |},
       Ok (Allowed (current_count + 1) limit span
             (Z.max 0 (limit - current_count - 1)) reset)).
Proof.
  destruct c as [t1 t2 t3 t4 u1 u2 u3 u4 u5].
  cbn [up_usage up_burst up_count up_violation up_record now_usage now_burst now_record].
  intros -> -> -> -> ->. cbv zeta.
  unfold check_rate_limit. unfold_op.
  unfold _get_current_usage, _get_violation_count, _record_violation, _record_request,
    set_db.
  cbn [redis_client memory_store up_usage up_burst up_count up_violation up_record
       now_usage now_burst now_record].
  destruct (_ >=? requests _); [reflexivity|].
  destruct (_ >=? burst _); reflexivity.
Qed.

Lemma first_call_on_shared_store (identifier action : string) (t : Z) (db : redis_db)
    (store : gmap string mval) :
  let key := _get_rate_limit_key identifier action in
  zsets db !! key = None
  \/ zsets db !! key = Some (one_request t (window (config_of action))) ->
  exists db' v,
    check_rate_limit (at_time t) identifier action
      {| redis_client := Some db; memory_store := store |}
    = ({| redis_client := Some db'; memory_store := store |}, Ok v)
    /\ allowed (Ok v) = true
    /\ zsets db' !! key = Some (one_request t (window (config_of action))).
Proof.
  intros key Hdb.
  destruct (config_positive action) as (Hreq & Hwin & Hburst).
  destruct (config_above_one action) as (Hreq1 & Hburst1).
  rewrite check_on_shared_store by reflexivity.
  cbn [at_time now_usage now_burst now_record]. fold key.
  set (span := window (config_of action)) in *.
  destruct Hdb as [Hnone|Hone].
  - assert (H1 : zremrangebyscore t key 0 (t - span) db
                 = {| zsets := delete key (zsets db); counters := counters db |}).
    { unfold zremrangebyscore. now rewrite (live_absent _ _ _ Hnone). }
    rewrite H1. set (db1 := {| zsets := delete key (zsets db); counters := counters db |}).
    assert (Hnone1 : zsets db1 !! key = None) by apply lookup_delete_eq.
    assert (H2 : zcard t key db1 = 0) by (unfold zcard; now rewrite (live_absent _ _ _ Hnone1)).
    assert (H3 : expire_zset t key span db1 = db1)
      by (unfold expire_zset; now rewrite (live_absent _ _ _ Hnone1)).
    assert (H4 : zcount t key (t - 60) t db1 = 0)
      by (unfold zcount; now rewrite (live_absent _ _ _ Hnone1)).
    rewrite H2, H3, H4.
    replace (0 >=? requests (config_of action)) with false
      by (symmetry; rewrite Z.geb_leb; apply Z.leb_gt; lia).
    replace (0 >=? burst (config_of action)) with false
      by (symmetry; rewrite Z.geb_leb; apply Z.leb_gt; lia).
    assert (H5 : zadd t key t t db1
                 = {| zsets := <[key := ({[t := t]}, None)]> (zsets db1);
                      counters := counters db1 |})
      by (unfold zadd; now rewrite (live_absent _ _ _ Hnone1)).
    rewrite H5. unfold expire_zset, live. cbn [zsets counters].
    rewrite lookup_insert_eq. cbn [expired].
    eexists _, _. split; [reflexivity|]. split; [reflexivity|].
    cbn [zsets]. rewrite lookup_insert_eq. reflexivity.
  - unfold one_request in Hone.
    pose proof (live_present _ _ t _ _ Hone ltac:(lia)) as Hlive.
    assert (H1 : zremrangebyscore t key 0 (t - span) db
                 = {| zsets := <[key := one_request t span]> (zsets db);
                      counters := counters db |}).
    { unfold zremrangebyscore. rewrite Hlive.
      rewrite filter_keeps_request by lia.
      rewrite bool_decide_eq_false_2; [reflexivity|]. apply insert_non_empty. }
    rewrite H1.
    set (db1 := {| zsets := <[key := one_request t span]> (zsets db);
                   counters := counters db |}).
    assert (Hone1 : zsets db1 !! key = Some ({[t := t]}, Some (t + span)))
      by apply lookup_insert_eq.
    pose proof (live_present _ _ t _ _ Hone1 ltac:(lia)) as Hlive1.
    assert (H2 : zcard t key db1 = 1).
    { unfold zcard. rewrite Hlive1. now rewrite map_size_singleton. }
    assert (H3 : expire_zset t key span db1 = db1).
    { unfold expire_zset. rewrite Hlive1. unfold db1. cbn [zsets counters].
      now rewrite insert_insert_eq. }
    assert (H4 : zcount t key (t - 60) t db1 = 1).
    { unfold zcount. rewrite Hlive1, filter_counts_request by lia.
      now rewrite map_size_singleton. }
    rewrite H2, H3, H4.
    replace (1 >=? requests (config_of action)) with false
      by (symmetry; rewrite Z.geb_leb; apply Z.leb_gt; lia).
    replace (1 >=? burst (config_of action)) with false
      by (symmetry; rewrite Z.geb_leb; apply Z.leb_gt; lia).
    assert (H5 : zadd t key t t db1 = db1).
    { unfold zadd. rewrite Hlive1. rewrite insert_singleton_eq.
      unfold db1. cbn [zsets counters]. now rewrite insert_insert_eq. }
    rewrite H5, H3.
    eexists _, _. split; [reflexivity|]. split; [reflexivity|]. exact Hone1.
Qed.

Lemma same_second_run (identifier action : string) (t : Z) (n : nat) :
  forall (db : redis_db) (store : gmap string mval),
    let key := _get_rate_limit_key identifier action in
    zsets db !! key = None
    \/ zsets db !! key = Some (one_request t (window (config_of action))) ->
    exists db' rs,
      run identifier action (replicate (S n) (at_time t))
        {| redis_client := Some db; memory_store := store |}
      = ({| redis_client := Some db'; memory_store := store |}, rs)
      /\ Forall (fun r => allowed r = true) rs
      /\ zsets db' !! key = Some (one_request t (window (config_of action))).
Proof.
  induction n as [|n IH]; intros db store key Hdb;
    destruct (first_call_on_shared_store identifier action t db store Hdb)
      as (db1 & v & Hcall & Hallowed & Hdb1).
  - cbn [replicate run]. rewrite Hcall. exists db1, [Ok v].
    split; [reflexivity|]. split; [now repeat constructor|exact Hdb1].
  - destruct (IH db1 store (or_intror Hdb1)) as (db' & rs & Hrun & Hall & Hdb').
    change (replicate (S (S n)) (at_time t))
      with (at_time t :: replicate (S n) (at_time t)).
    cbn [run]. rewrite Hcall, Hrun. exists db', (Ok v :: rs).
    split; [reflexivity|]. split; [now constructor|exact Hdb'].
Qed.

Lemma run_length (identifier action : string) (calls : list call) (lim : limiter) :
  length (run identifier action calls lim).2 = length calls.
Proof.
  revert lim. induction calls as [|c calls IH]; intros lim; cbn [run]; [reflexivity|].
  destruct (check_rate_limit c identifier action lim) as [lim1 r].
  specialize (IH lim1). destruct (run identifier action calls lim1) as [lim2 rs].
  cbn [snd length] in *. now rewrite IH.
Qed.

(** X14: on the shared store a second is counted once: the member added to
    the sorted set is the second of the call, so calls of the same second
    share it.  From a store with no entry for the key, any number of calls
    made within one second, all exchanges going through, are all allowed,
    and the set then holds one member; the window limit and the burst limit
    never apply to them. *)
Theorem shared_store_counts_a_second_once (identifier action : string) (t : Z) (n : nat)
    (db : redis_db) (store : gmap string mval) :
  zsets db !! _get_rate_limit_key identifier action = None ->
  exists db' rs,
    run identifier action (replicate (S n) (at_time t))
      {| redis_client := Some db; memory_store := store |}
    = ({| redis_client := Some db'; memory_store := store |}, rs)
    /\ length rs = S n
    /\ Forall (fun r => allowed r = true) rs
    /\ zcard t (_get_rate_limit_key identifier action) db' = 1.
Proof.
  intros Hnone.
  destruct (same_second_run identifier action t n db store (or_introl Hnone))
    as (db' & rs & Hrun & Hall & Hdb').
  destruct (config_positive action) as (_ & Hwin & _).
  exists db', rs. split; [exact Hrun|]. split; [|split; [exact Hall|]].
  - pose proof (run_length identifier action (replicate (S n) (at_time t))
                  {| redis_client := Some db; memory_store := store |}) as Hlen.
    rewrite Hrun, length_replicate in Hlen. exact Hlen.
  - unfold zcard. unfold one_request in Hdb'.
    rewrite (live_present _ _ t _ _ Hdb' ltac:(lia)). now rewrite map_size_singleton.
Qed.

Lemma shared_store_counts_a_second_once_witness :
  exists db' rs,
    run "user:7" "auth" (replicate (S 99) (at_time 1700000000)) on_shared_store
    = ({| redis_client := Some db'; memory_store := ∅ |}, rs)
    /\ length rs = 100%nat
    /\ Forall (fun r => allowed r = true) rs
    /\ zcard 1700000000 (_get_rate_limit_key "user:7" "auth") db' = 1.
Proof.
  apply (shared_store_counts_a_second_once "user:7" "auth" 1700000000 99 empty_db ∅).
  reflexivity.
Defined.

(** *** A steady caller on the shared store *)

Lemma config_burst_below_limit (action : string) :
  burst (config_of action) < requests (config_of action)
  /\ 60 <= window (config_of action).
Proof.
  unfold config_of, assoc, rate_limits. cbn [List.find fst snd].
  repeat (case_bool_decide; [cbn; lia|]). cbn. lia.
Qed.

Lemma expected_allowed_step (limit : Z) (used n : nat) :
  expected_allowed limit used (S n)
  = (Z.of_nat used <? limit)
      :: (if Z.of_nat used <? limit then expected_allowed limit (S used) n
          else expected_allowed limit used n).
Proof.
  unfold expected_allowed. cbn [seq map]. rewrite Nat.add_0_r. f_equal.
  rewrite <- seq_shift, map_map.
  destruct (Z.ltb_spec (Z.of_nat used) limit) as [Hlt|Hge].
  - apply map_ext. intros j. do 2 f_equal. lia.
  - apply map_ext. intros j.
    destruct (Z.ltb_spec (Z.of_nat (used + S j)) limit),
             (Z.ltb_spec (Z.of_nat (used + j)) limit); lia || reflexivity.
Qed.

Lemma every_second_from_cons (first : Z) (n : nat) :
  every_second_from first (S n) = at_time first :: every_second_from (first + 1) n.
Proof.
  unfold every_second_from. cbn [seq map]. rewrite Z.add_0_r. f_equal.
  rewrite <- seq_shift, map_map. apply map_ext. intros j. f_equal. lia.
Qed.

Lemma steady_call_on_shared_store (identifier action : string) (start s : Z) (used : nat)
    (db : redis_db) (store : gmap string mval) :
  let key := _get_rate_limit_key identifier action in
  start <= s <= start + 59 ->
  Z.of_nat used <= burst (config_of action) ->
  recorded_since start s used (zsets db !! key) ->
  exists db' v,
    check_rate_limit (at_time s) identifier action
      {| redis_client := Some db; memory_store := store |}
    = ({| redis_client := Some db'; memory_store := store |}, Ok v)
    /\ allowed (Ok v) = (Z.of_nat used <? burst (config_of action))
    /\ recorded_since start (s + 1)
         (if Z.of_nat used <? burst (config_of action) then S used else used)
         (zsets db' !! key).
Proof.
  intros key Hs Hused Hinv.
  destruct (config_positive action) as (Hreq & Hwin & Hburst).
  destruct (config_burst_below_limit action) as (Hbl & Hw60).
  rewrite check_on_shared_store by reflexivity.
  cbn [at_time now_usage now_burst now_record]. fold key.
  set (span := window (config_of action)) in *.
  set (limit := requests (config_of action)) in *.
  set (vkey := _get_violation_key identifier).
  destruct (zsets db !! key) as [[z deadline]|] eqn:Hentry; cbn [recorded_since] in Hinv.
  - destruct Hinv as (Hsize & Hmembers & d & -> & Hd).
    pose proof (live_present _ _ s _ _ Hentry Hd) as Hlive.
    assert (Hkeep : filter (fun entry : Z * Z => ~ in_score_range 0 (s - span) entry) z = z).
    { apply map_filter_id. intros member score Hm.
      destruct (Hmembers _ _ Hm) as [-> Hrange]. unfold in_score_range. cbn. lia. }
    assert (Hrecent : filter (in_score_range (s - 60) s) z = z).
    { apply map_filter_id. intros member score Hm.
      destruct (Hmembers _ _ Hm) as [-> Hrange]. unfold in_score_range. cbn. lia. }
    destruct (decide (z = ∅)) as [Hempty|Hne].
    + (* an empty set is deleted: as when the key is absent *)
      subst z. rewrite map_size_empty in Hsize. subst used.
      assert (H1 : zremrangebyscore s key 0 (s - span) db
                   = {| zsets := delete key (zsets db); counters := counters db |}).
      { unfold zremrangebyscore. rewrite Hlive, Hkeep.
        now rewrite bool_decide_eq_true_2. }
      rewrite H1.
      set (db1 := {| zsets := delete key (zsets db); counters := counters db |}).
      assert (Hnone1 : zsets db1 !! key = None) by apply lookup_delete_eq.
      assert (H2 : zcard s key db1 = 0)
        by (unfold zcard; now rewrite (live_absent _ _ _ Hnone1)).
      assert (H3 : expire_zset s key span db1 = db1)
        by (unfold expire_zset; now rewrite (live_absent _ _ _ Hnone1)).
      assert (H4 : zcount s key (s - 60) s db1 = 0)
        by (unfold zcount; now rewrite (live_absent _ _ _ Hnone1)).
      rewrite H2, H3, H4.
      replace (0 >=? limit) with false by (symmetry; rewrite Z.geb_leb; apply Z.leb_gt; lia).
      replace (0 >=? burst (config_of action)) with false
        by (symmetry; rewrite Z.geb_leb; apply Z.leb_gt; lia).
      replace (Z.of_nat 0 <? burst (config_of action)) with true
        by (symmetry; apply Z.ltb_lt; lia).
      assert (H5 : zadd s key s s db1
                   = {| zsets := <[key := ({[s := s]}, None)]> (zsets db1);
                        counters := counters db1 |})
        by (unfold zadd; now rewrite (live_absent _ _ _ Hnone1)).
      rewrite H5. unfold expire_zset, live. cbn [zsets counters].
      rewrite lookup_insert_eq. cbn [expired].
      eexists _, _. split; [reflexivity|]. split; [reflexivity|].
      cbn [zsets]. rewrite lookup_insert_eq. cbn [recorded_since].
      split; [apply map_size_singleton|]. split.
      * intros member score Hm. apply lookup_singleton_Some in Hm as [<- <-]. lia.
      * exists (s + span). split; [reflexivity|lia].
    + assert (H1 : zremrangebyscore s key 0 (s - span) db
                   = {| zsets := <[key := (z, Some d)]> (zsets db);
                        counters := counters db |}).
      { unfold zremrangebyscore. rewrite Hlive, Hkeep.
        now rewrite bool_decide_eq_false_2. }
      rewrite H1.
      set (db1 := {| zsets := <[key := (z, Some d)]> (zsets db); counters := counters db |}).
      assert (Hone1 : zsets db1 !! key = Some (z, Some d)) by apply lookup_insert_eq.
      pose proof (live_present _ _ s _ _ Hone1 Hd) as Hlive1.
      assert (H2 : zcard s key db1 = Z.of_nat used).
      { unfold zcard. rewrite Hlive1. now rewrite Hsize. }
      set (db2 := {| zsets := <[key := (z, Some (s + span))]> (zsets db1);
                     counters := counters db1 |}).
      assert (H3 : expire_zset s key span db1 = db2).
      { unfold expire_zset. now rewrite Hlive1. }
      assert (Hone2 : zsets db2 !! key = Some (z, Some (s + span)))
        by apply lookup_insert_eq.
      pose proof (live_present _ _ s _ _ Hone2 ltac:(lia)) as Hlive2.
      assert (H4 : zcount s key (s - 60) s db2 = Z.of_nat used).
      { unfold zcount. rewrite Hlive2, Hrecent. now rewrite Hsize. }
      rewrite H2, H3, H4.
      replace (Z.of_nat used >=? limit) with false
        by (symmetry; rewrite Z.geb_leb; apply Z.leb_gt; lia).
      rewrite Z.geb_leb, Z.leb_antisym.
      destruct (Z.ltb_spec (Z.of_nat used) (burst (config_of action))) as [Hlt|Hge];
        cbn [negb].
      * assert (Hfresh : z !! s = None).
        { destruct (z !! s) as [score|] eqn:Hm; [|reflexivity].
          destruct (Hmembers _ _ Hm). lia. }
        assert (H5 : zadd s key s s db2
                     = {| zsets := <[key := (<[s := s]> z, Some (s + span))]> (zsets db2);
                          counters := counters db2 |})
          by (unfold zadd; now rewrite Hlive2).
        rewrite H5. unfold expire_zset, live. cbn [zsets counters].
        rewrite lookup_insert_eq. cbn [expired].
        replace (s + span <=? s) with false by (symmetry; apply Z.leb_gt; lia).
        eexists _, _. split; [reflexivity|]. split; [reflexivity|].
        cbn [zsets]. rewrite lookup_insert_eq. cbn [recorded_since].
        split; [rewrite map_size_insert_None by assumption; now rewrite Hsize|]. split.
        -- intros member score Hm. apply lookup_insert_Some in Hm as [[<- <-]|[Hne' Hm]].
           ++ lia.
           ++ destruct (Hmembers _ _ Hm). lia.
        -- exists (s + span). split; [reflexivity|lia].
      * eexists _, _. split; [reflexivity|]. split; [reflexivity|].
        assert (Hzs : forall db0 : redis_db,
                   zsets (expire_counter s vkey 3600 (incr s vkey db0)) = zsets db0).
        { intros db0. unfold expire_counter, incr.
          repeat (destruct (live _ _ _) as [[? ?]|]; cbn [zsets counters]); reflexivity. }
        rewrite Hzs, Hone2. cbn [recorded_since].
        split; [exact Hsize|]. split.
        -- intros member score Hm. destruct (Hmembers _ _ Hm). lia.
        -- exists (s + span). split; [reflexivity|lia].
  - subst used.
    assert (H1 : zremrangebyscore s key 0 (s - span) db
                 = {| zsets := delete key (zsets db); counters := counters db |}).
    { unfold zremrangebyscore. now rewrite (live_absent _ _ _ Hentry). }
    rewrite H1.
    set (db1 := {| zsets := delete key (zsets db); counters := counters db |}).
    assert (Hnone1 : zsets db1 !! key = None) by apply lookup_delete_eq.
    assert (H2 : zcard s key db1 = 0)
      by (unfold zcard; now rewrite (live_absent _ _ _ Hnone1)).
    assert (H3 : expire_zset s key span db1 = db1)
      by (unfold expire_zset; now rewrite (live_absent _ _ _ Hnone1)).
    assert (H4 : zcount s key (s - 60) s db1 = 0)
      by (unfold zcount; now rewrite (live_absent _ _ _ Hnone1)).
    rewrite H2, H3, H4.
    replace (0 >=? limit) with false by (symmetry; rewrite Z.geb_leb; apply Z.leb_gt; lia).
    replace (0 >=? burst (config_of action)) with false
      by (symmetry; rewrite Z.geb_leb; apply Z.leb_gt; lia).
    replace (Z.of_nat 0 <? burst (config_of action)) with true
      by (symmetry; apply Z.ltb_lt; lia).
    assert (H5 : zadd s key s s db1
                 = {| zsets := <[key := ({[s := s]}, None)]> (zsets db1);
                      counters := counters db1 |})
      by (unfold zadd; now rewrite (live_absent _ _ _ Hnone1)).
    rewrite H5. unfold expire_zset, live. cbn [zsets counters].
    rewrite lookup_insert_eq. cbn [expired].
    eexists _, _. split; [reflexivity|]. split; [reflexivity|].
    cbn [zsets]. rewrite lookup_insert_eq. cbn [recorded_since].
    split; [apply map_size_singleton|]. split.
    + intros member score Hm. apply lookup_singleton_Some in Hm as [<- <-]. lia.
    + exists (s + span). split; [reflexivity|lia].
Qed.

Lemma steady_run (identifier action : string) (start : Z) (n : nat) :
  forall (s : Z) (used : nat) (db : redis_db) (store : gmap string mval),
    start <= s -> s + Z.of_nat n <= start + 60 ->
    Z.of_nat used <= burst (config_of action) ->
    recorded_since start s used (zsets db !! _get_rate_limit_key identifier action) ->
    map allowed (run identifier action (every_second_from s n)
                   {| redis_client := Some db; memory_store := store |}).2
    = expected_allowed (burst (config_of action)) used n
    /\ map denied (run identifier action (every_second_from s n)
                     {| redis_client := Some db; memory_store := store |}).2
       = map negb (expected_allowed (burst (config_of action)) used n).
Proof.
  induction n as [|n IH]; intros s used db store Hs Hn Hused Hinv.
  - split; reflexivity.
  - rewrite every_second_from_cons, expected_allowed_step. cbn [run].
    destruct (steady_call_on_shared_store identifier action start s used db store
                ltac:(lia) Hused Hinv) as (db' & v & -> & Hallowed & Hinv').
    assert (Hdenied : denied (Ok v) = negb (allowed (Ok v))) by now destruct v.
    specialize (IH (s + 1) (if Z.of_nat used <? burst (config_of action) then S used else used)
                  db' store ltac:(lia) ltac:(lia)).
    destruct IH as [IH1 IH2]; [|exact Hinv'|].
    { destruct (Z.ltb_spec (Z.of_nat used) (burst (config_of action))); lia. }
    destruct (run identifier action (every_second_from (s + 1) n) _) as [lim'' rs].
    cbn [snd map] in *. rewrite Hdenied, Hallowed, IH1, IH2.
    now destruct (Z.of_nat used <? burst (config_of action)).
Qed.

(** X26: on the shared store the burst limit is the quota of a steady
    caller: from a store with no entry for the key, of calls made one per
    second for up to a minute, all exchanges going through, exactly the first
    [burst] are allowed and every later one is denied, although the window
    limit is not reached. *)
Theorem shared_store_burst_quota (identifier action : string) (t : Z) (n : nat)
    (db : redis_db) (store : gmap string mval) :
  zsets db !! _get_rate_limit_key identifier action = None ->
  (n <= 60)%nat ->
  map allowed (run identifier action (every_second_from t n)
                 {| redis_client := Some db; memory_store := store |}).2
  = expected_allowed (burst (config_of action)) 0 n
  /\ map denied (run identifier action (every_second_from t n)
                   {| redis_client := Some db; memory_store := store |}).2
     = map negb (expected_allowed (burst (config_of action)) 0 n).
Proof.
  intros Hnone Hn.
  apply (steady_run identifier action t n t 0 db store); try lia.
  - destruct (config_positive action). lia.
  - now rewrite Hnone.
Qed.

Lemma shared_store_burst_quota_witness :
  map allowed (run "user:7" "auth" (every_second_from 100 20) on_shared_store).2
  = expected_allowed (burst (config_of "auth")) 0 20
  /\ map denied (run "user:7" "auth" (every_second_from 100 20) on_shared_store).2
     = map negb (expected_allowed (burst (config_of "auth")) 0 20).
Proof.
  apply (shared_store_burst_quota "user:7" "auth" 100 20 empty_db ∅).
  - reflexivity.
  - lia.
Defined.

(** *** Keys *)


Lemma split_at_first_colon (a a' i i' : string) :
  colon_free a -> colon_free a' ->
  a +:+ ":" +:+ i = a' +:+ ":" +:+ i' -> a = a' /\ i = i'.
Proof.
  unfold colon_free, chars. revert a'.
  induction a as [|c a IH]; intros [|c' a'] Ha Ha' H; cbn in *.
  - now injection H.
  - injection H as <- _. tauto.
  - injection H as -> _. tauto.
  - injection H as <- H. destruct (IH a') as [-> ->]; tauto.
Qed.

(** X15: for action names without a colon, as all the configured ones are,
    the request key determines the action and the identity: two calls share
    a request key only if they are for the same action and the same
    identity. *)
Theorem rate_limit_key_injective (identifier identifier' action action' : string) :
  colon_free action -> colon_free action' ->
  _get_rate_limit_key identifier action = _get_rate_limit_key identifier' action'
  <-> action = action' /\ identifier = identifier'.
Proof.
  intros Ha Ha'. split; [|now intros [-> ->]].
  unfold _get_rate_limit_key. intros H. cbn in H. injection H as H.
  now apply split_at_first_colon.
Qed.

Lemma rate_limit_key_injective_witness :
  _get_rate_limit_key "user:7" "auth" = _get_rate_limit_key "user:8" "auth"
  <-> "auth"%string = "auth"%string /\ "user:7"%string = "user:8"%string.
Proof.
  apply (rate_limit_key_injective "user:7" "user:8" "auth" "auth");
    unfold colon_free; cbn; intuition discriminate.
Defined.

(** *** What one call touches *)

Section Frame.

Variables key violation_key : string.

Lemma same_db_refl (db : redis_db) : same_db_elsewhere key violation_key db db.
Proof. now split. Qed.

Lemma same_db_trans (db1 db2 db3 : redis_db) :
  same_db_elsewhere key violation_key db1 db2 ->
  same_db_elsewhere key violation_key db2 db3 ->
  same_db_elsewhere key violation_key db1 db3.
Proof.
  intros [H1 H2] [H3 H4]. split; intros k Hk.
  - now rewrite H3, H1.
  - now rewrite H4, H2.
Qed.

Lemma same_refl (lim : limiter) : same_elsewhere key violation_key lim lim.
Proof.
  split; [reflexivity|]. destruct (redis_client lim); [apply same_db_refl|exact I].
Qed.

Lemma same_trans (lim1 lim2 lim3 : limiter) :
  same_elsewhere key violation_key lim1 lim2 ->
  same_elsewhere key violation_key lim2 lim3 ->
  same_elsewhere key violation_key lim1 lim3.
Proof.
  intros [H1 H2] [H3 H4]. split.
  - intros k Hk Hv. now rewrite H3, H1.
  - destruct (redis_client lim1), (redis_client lim2), (redis_client lim3);
      try tauto. eapply same_db_trans; eassumption.
Qed.

Lemma zset_update_frame (db : redis_db) (zs : gmap string (gmap Z Z * option Z)) :
  (forall k, k <> key -> zs !! k = zsets db !! k) ->
  same_db_elsewhere key violation_key db {| zsets := zs; counters := counters db |}.
Proof. intros H. now split. Qed.

Lemma counter_update_frame (db : redis_db) (cs : gmap string (Z * option Z)) :
  (forall k, k <> violation_key -> cs !! k = counters db !! k) ->
  same_db_elsewhere key violation_key db {| zsets := zsets db; counters := cs |}.
Proof. intros H. now split. Qed.

Lemma zremrangebyscore_frame (now lo hi : Z) (db : redis_db) :
  same_db_elsewhere key violation_key db (zremrangebyscore now key lo hi db).
Proof.
  unfold zremrangebyscore. destruct (live _ _ _) as [[z d]|]; [case_bool_decide|];
    apply zset_update_frame; intros k Hk;
    first [now apply lookup_delete_ne | now apply lookup_insert_ne].
Qed.

Lemma expire_zset_frame (now seconds : Z) (db : redis_db) :
  same_db_elsewhere key violation_key db (expire_zset now key seconds db).
Proof.
  unfold expire_zset. destruct (live _ _ _) as [[z d]|]; [|apply same_db_refl].
  apply zset_update_frame; intros k Hk. now apply lookup_insert_ne.
Qed.

Lemma zadd_frame (now member score : Z) (db : redis_db) :
  same_db_elsewhere key violation_key db (zadd now key member score db).
Proof.
  unfold zadd. destruct (live _ _ _) as [[z d]|];
    apply zset_update_frame; intros k Hk; now apply lookup_insert_ne.
Qed.

Lemma incr_frame (now : Z) (db : redis_db) :
  same_db_elsewhere key violation_key db (incr now violation_key db).
Proof.
  unfold incr. destruct (live _ _ _) as [[z d]|];
    apply counter_update_frame; intros k Hk; now apply lookup_insert_ne.
Qed.

Lemma expire_counter_frame (now seconds : Z) (db : redis_db) :
  same_db_elsewhere key violation_key db (expire_counter now violation_key seconds db).
Proof.
  unfold expire_counter. destruct (live _ _ _) as [[z d]|]; [|apply same_db_refl].
  apply counter_update_frame; intros k Hk. now apply lookup_insert_ne.
Qed.

Lemma set_db_frame (lim : limiter) (db db' : redis_db) :
  redis_client lim = Some db -> same_db_elsewhere key violation_key db db' ->
  same_elsewhere key violation_key lim (set_db lim db').
Proof. intros H Hdb. split; [reflexivity|]. now rewrite H. Qed.

Lemma set_store_frame_violation (lim : limiter) (v : mval) :
  same_elsewhere key violation_key lim
    (set_store lim (<[violation_key := v]> (memory_store lim))).
Proof.
  split.
  - intros k _ Hk. cbn. now apply lookup_insert_ne.
  - cbn. destruct (redis_client lim); [apply same_db_refl|exact I].
Qed.

Lemma store_update_frame (lim : limiter) (store : gmap string mval) :
  (forall k, k <> key -> k <> violation_key -> store !! k = memory_store lim !! k) ->
  same_elsewhere key violation_key lim (set_store lim store).
Proof.
  intros H. split; [exact H|]. cbn.
  destruct (redis_client lim); [apply same_db_refl|exact I].
Qed.

Lemma memory_get_usage_same (c : call) (window : Z) (lim : limiter) :
  same_elsewhere key violation_key lim (_memory_get_usage c key window lim).1.
Proof.
  unfold _memory_get_usage.
  destruct (memory_store lim !! key) as [[l|n]|] eqn:E; rewrite ?E, ?lookup_insert_eq;
    cbn [fst]; apply store_update_frame; intros k Hk _;
    rewrite ?lookup_insert_ne by congruence; reflexivity.
Qed.

Lemma memory_record_request_same (timestamp : Z) (lim : limiter) :
  same_elsewhere key violation_key lim (_memory_record_request key timestamp lim).1.
Proof.
  unfold _memory_record_request.
  destruct (memory_store lim !! key) as [[l|n]|] eqn:E; rewrite ?E, ?lookup_insert_eq;
    cbn [fst]; apply store_update_frame; intros k Hk _;
    rewrite ?lookup_insert_ne by congruence; reflexivity.
Qed.

Lemma get_current_usage_same (c : call) (window : Z) (lim : limiter) :
  same_elsewhere key violation_key lim (_get_current_usage c key window lim).1.
Proof.
  unfold _get_current_usage.
  destruct (redis_client lim) as [db|] eqn:E; [destruct (up_usage c)|];
    try apply memory_get_usage_same.
  cbn [fst]. apply (set_db_frame _ db); [exact E|].
  eapply same_db_trans; [apply zremrangebyscore_frame|apply expire_zset_frame].
Qed.

Lemma record_request_same (c : call) (window : Z) (lim : limiter) :
  same_elsewhere key violation_key lim (_record_request c key window lim).1.
Proof.
  unfold _record_request.
  destruct (redis_client lim) as [db|] eqn:E; [destruct (up_record c)|];
    try apply memory_record_request_same.
  cbn [fst]. apply (set_db_frame _ db); [exact E|].
  eapply same_db_trans; [apply zadd_frame|apply expire_zset_frame].
Qed.

End Frame.

Lemma get_violation_count_same (c : call) (identifier : string) (lim : limiter) :
  (_get_violation_count c identifier lim).1 = lim.
Proof.
  unfold _get_violation_count.
  destruct (redis_client lim); [now destruct (up_count c)|].
  now destruct (memory_store lim !! _) as [[l|n]|].
Qed.

Lemma record_violation_same (key : string) (c : call) (identifier : string) (lim : limiter) :
  same_elsewhere key (_get_violation_key identifier) lim
    (_record_violation c identifier lim).1.
Proof.
  unfold _record_violation.
  destruct (redis_client lim) as [db|] eqn:E; [destruct (up_violation c)|].
  - cbn [fst]. apply (set_db_frame _ _ _ db); [exact E|].
    eapply same_db_trans; [apply incr_frame|apply expire_counter_frame].
  - apply same_refl.
  - destruct (memory_store lim !! _) as [[l|n]|]; cbn [fst];
      first [apply same_refl | apply set_store_frame_violation].
Qed.

Lemma check_rate_limit_frame (c : call) (identifier action : string)
    (lim : limiter) :
  same_elsewhere (_get_rate_limit_key identifier action) (_get_violation_key identifier)
    lim (check_rate_limit c identifier action lim).1.
Proof.
  set (key := _get_rate_limit_key identifier action).
  set (vkey := _get_violation_key identifier).
  unfold check_rate_limit. fold key. unfold_op.
  pose proof (get_current_usage_same key vkey c (window (config_of action)) lim) as H1.
  destruct (_get_current_usage c key (window (config_of action)) lim)
    as [lim1 [[current_count window_start]|e]]; cbn [fst] in H1; [|exact H1].
  assert (H2 : forall (x : redis_db -> result Z) (y : result Z),
             (match redis_client lim1 with
              | Some db => if up_burst c then (lim1, x db) else (lim1, y)
              | None => (lim1, y)
              end).1 = lim1).
  { intros x y. destruct (redis_client lim1); [now destruct (up_burst c)|reflexivity]. }
  match goal with
  | |- context [match redis_client lim1 with
                | Some db => if up_burst c then (lim1, @?x db) else (lim1, ?y)
                | None => _ end] =>
      specialize (H2 x y);
      destruct (match redis_client lim1 with
                | Some db => if up_burst c then (lim1, x db) else (lim1, y)
                | None => (lim1, y) end) as [lim2 [recent|e]]
  end; cbn [fst] in H2; subst lim2; [|exact H1].
  pose proof (get_violation_count_same c identifier lim1) as H3.
  destruct (_get_violation_count c identifier lim1) as [lim3 [violation_count|e]];
    cbn [fst] in H3; subst lim3; [|exact H1].
  destruct (if current_count >=? _ then _ else _) as [reason|].
  - pose proof (record_violation_same key c identifier lim1) as H4. fold vkey in H4.
    destruct (_record_violation c identifier lim1) as [lim4 [[]|e]]; cbn [fst] in *;
      eapply same_trans; eassumption.
  - pose proof (record_request_same key vkey c (window (config_of action)) lim1) as H4.
    destruct (_record_request c key (window (config_of action)) lim1) as [lim4 [[]|e]];
      cbn [fst] in *; eapply same_trans; eassumption.
Qed.

(** X16: a call touches only the two keys of its identity: whatever the
    mode and whichever exchanges fail, the in-process store is unchanged
    under every key other than the request key of the identity and action and
    the violation key of the identity, and so are the sorted sets and the
    counters of the shared store, which is there afterwards exactly when it
    was there before; this also holds when the call ends in an internal
    error. *)
Theorem check_rate_limit_touches_its_keys_only (c : call) (identifier action : string)
    (lim : limiter) :
  same_elsewhere (_get_rate_limit_key identifier action) (_get_violation_key identifier)
    lim (check_rate_limit c identifier action lim).1.
Proof. apply check_rate_limit_frame. Qed.

(** *** One call on the in-process store, in full *)

Lemma check_in_process (c : call) (identifier action : string) (lim : limiter)
    (l : list Z) (n : Z) :
  let key := _get_rate_limit_key identifier action in
  let violation_key := _get_violation_key identifier in
  let span := window (config_of action) in
  let limit := requests (config_of action) in
  let kept := live_at (now_memory c) span l in
  let used := Z.of_nat (length kept) in
  let reset := now_memory c - now_memory c mod span + span in
  redis_client lim = None ->
  list_at (memory_store lim) key = Some l ->
  count_at (memory_store lim) violation_key = Some n ->
  exists lim',
    check_rate_limit c identifier action lim
    = (lim',
       Ok (if used <? limit then
             Allowed (used + 1) limit span (Z.max 0 (limit - used - 1)) reset
           else
             TooManyRequests
               ("Rate limit exceeded: " +:+ str used +:+ "/" +:+ str limit
                +:+ " requests per " +:+ str span +:+ "s")
               (_calculate_penalty_delay n) (n + 1) (Z.max 0 (limit - used)) reset))
    /\ redis_client lim' = None
    /\ list_at (memory_store lim') key
       = Some (if used <? limit then kept ++ [now_record c] else kept)
    /\ count_at (memory_store lim') violation_key
       = Some (if used <? limit then n else n + 1).
Proof.
  intros key vkey span limit kept used reset Hc Hl Hn.
  destruct (config_positive action) as (Hreq & Hwin & Hburst).
  assert (Hkeys : vkey <> key) by (intros H; symmetry in H; revert H; apply keys_differ).
  unfold check_rate_limit. fold key span limit. unfold_op.
  rewrite (get_current_usage_unavailable _ _ _ _ (or_introl Hc)).
  destruct (memory_get_usage_spec c key span lim l Hl) as (store1 & -> & Hk1 & Hother).
  fold kept used reset in Hk1 |- *.
  cbn [redis_client set_store]. rewrite Hc.
  unfold _get_violation_count, _record_violation, _record_request.
  cbn [redis_client memory_store set_store]. rewrite Hc. fold vkey.
  assert (Hv1 : store1 !! vkey = memory_store lim !! vkey) by now apply Hother.
  unfold count_at in Hn. rewrite <- Hv1 in Hn.
  replace (0 >=? burst (config_of action)) with false
    by (symmetry; rewrite Z.geb_leb; apply Z.leb_gt; lia).
  rewrite Z.geb_leb, Z.leb_antisym.
  destruct (used <? limit) eqn:Hcount; cbn [negb].
  - assert (Hcount1 : (lim, Ok n) = (lim, Ok n)) by reflexivity. clear Hcount1.
    destruct (store1 !! vkey) as [[l0|m]|] eqn:Ev; try discriminate; injection Hn as <-;
      rewrite (memory_record_request_spec key _ (set_store lim store1) kept Hk1);
      cbn [redis_client memory_store set_store]; rewrite Hc;
      eexists; (split; [reflexivity|]); cbn [redis_client memory_store set_store];
      (split; [exact Hc|]); unfold list_at, count_at;
      rewrite lookup_insert_eq, lookup_insert_ne, Ev by congruence; split; reflexivity.
  - destruct (store1 !! vkey) as [[l0|m]|] eqn:Ev; try discriminate; injection Hn as <-;
      cbn [redis_client memory_store set_store]; rewrite ?Hc, Ev;
      eexists; (split; [reflexivity|]); cbn [redis_client memory_store set_store];
      (split; [exact Hc|]); unfold list_at, count_at;
      rewrite lookup_insert_eq, lookup_insert_ne, Hk1 by congruence; split; reflexivity.
Qed.

Lemma penalty_delay_range (violation_count : Z) :
  60 <= _calculate_penalty_delay violation_count <= 960.
Proof.
  unfold _calculate_penalty_delay. cbv zeta.
  change (fold_right Z.max 0 (map fst penalty_multipliers)) with 5.
  assert (Hcases : Z.min violation_count 5 <= 0
                   \/ In (Z.min violation_count 5) [1; 2; 3; 4; 5])
    by (cbn [In]; lia).
  destruct Hcases as [Hlow|Hin].
  - assert (Hout : assoc (Z.min violation_count 5) penalty_multipliers = None).
    { unfold assoc, penalty_multipliers. cbn [List.find fst].
      repeat (case_bool_decide; [lia|]). reflexivity. }
    rewrite Hout. cbn. lia.
  - cbn [In] in Hin.
    repeat (destruct Hin as [<-|Hin]; [vm_compute; split; discriminate|]).
    destruct Hin.
Qed.

(** X17: the accounting of violations on the in-process store: a call
    returns a verdict; a denial adds exactly one to the counter of the
    identity and an allowed call leaves it; the delay of a denial is computed
    from the counter as it was before the call.  The counter is kept per
    identity, whatever the action. *)
Theorem in_process_violation_accounting (c : call) (identifier action : string)
    (lim : limiter) (l : list Z) (n : Z) :
  redis_client lim = None ->
  list_at (memory_store lim) (_get_rate_limit_key identifier action) = Some l ->
  count_at (memory_store lim) (_get_violation_key identifier) = Some n ->
  exists lim' v,
    check_rate_limit c identifier action lim = (lim', Ok v)
    /\ count_at (memory_store lim') (_get_violation_key identifier)
       = Some (if denied (Ok v) then n + 1 else n)
    /\ retry_after (Ok v)
       = (if denied (Ok v) then Some (_calculate_penalty_delay n) else None)
    /\ denied (Ok v) = negb (allowed (Ok v)).
Proof.
  intros Hc Hl Hn.
  destruct (check_in_process c identifier action lim l n Hc Hl Hn)
    as (lim' & Hcheck & _ & _ & Hcount).
  cbv zeta in Hcheck, Hcount. rewrite Hcheck.
  destruct (_ <? _); eexists _, _; (split; [reflexivity|]);
    (split; [exact Hcount|]); split; reflexivity.
Qed.

Lemma in_process_violation_accounting_witness :
  exists lim' v,
    check_rate_limit (at_time 100) "user:7" "auth" in_process = (lim', Ok v)
    /\ count_at (memory_store lim') (_get_violation_key "user:7")
       = Some (if denied (Ok v) then 0 + 1 else 0)
    /\ retry_after (Ok v)
       = (if denied (Ok v) then Some (_calculate_penalty_delay 0) else None)
    /\ denied (Ok v) = negb (allowed (Ok v)).
Proof.
  apply (in_process_violation_accounting (at_time 100) "user:7" "auth" in_process [] 0);
    reflexivity.
Defined.

Lemma live_at_length (now window : Z) (l : list Z) :
  (length (live_at now window l) <= length l)%nat.
Proof. unfold live_at. apply List.filter_length_le. Qed.

(** X19: the in-process list of a key stays within the limit: over any
    sequence of calls for one identity and action, at any times, a list that
    holds at most [limit] timestamps still does afterwards, and no call ends
    in an internal error. *)
Theorem in_process_list_is_bounded (identifier action : string) (calls : list call) :
  forall (lim : limiter) (l : list Z) (n : Z),
    redis_client lim = None ->
    list_at (memory_store lim) (_get_rate_limit_key identifier action) = Some l ->
    count_at (memory_store lim) (_get_violation_key identifier) = Some n ->
    Z.of_nat (length l) <= requests (config_of action) ->
    exists l',
      list_at (memory_store (run identifier action calls lim).1)
        (_get_rate_limit_key identifier action) = Some l'
      /\ Z.of_nat (length l') <= requests (config_of action)
      /\ Forall (fun r => is_ok r = true) (run identifier action calls lim).2.
Proof.
  induction calls as [|c calls IH]; intros lim l n Hc Hl Hn Hlen; cbn [run].
  - exists l. cbn. auto.
  - destruct (check_in_process c identifier action lim l n Hc Hl Hn)
      as (lim' & Hcheck & Hc' & Hl' & Hn').
    cbv zeta in Hcheck, Hl', Hn'. rewrite Hcheck.
    pose proof (live_at_length (now_memory c) (window (config_of action)) l) as Hkept.
    edestruct (IH lim') as (l'' & H1 & H2 & H3); [exact Hc'|exact Hl'|exact Hn'| |].
    + destruct (Z.ltb_spec (Z.of_nat (length (live_at (now_memory c) (window (config_of action)) l)))
                           (requests (config_of action))).
      * rewrite length_app. cbn [length]. lia.
      * lia.
    + destruct (run identifier action calls lim') as [lim'' rs]. cbn [fst snd] in *.
      exists l''. split; [exact H1|]. split; [exact H2|]. constructor; [reflexivity|exact H3].
Qed.

Lemma in_process_list_is_bounded_witness :
  exists l',
    list_at (memory_store (run "user:7" "auth" (every_second_from 1 25) in_process).1)
      (_get_rate_limit_key "user:7" "auth") = Some l'
    /\ Z.of_nat (length l') <= requests (config_of "auth")
    /\ Forall (fun r => is_ok r = true)
         (run "user:7" "auth" (every_second_from 1 25) in_process).2.
Proof.
  apply (in_process_list_is_bounded "user:7" "auth" (every_second_from 1 25)
           in_process [] 0); try reflexivity.
  change (requests (config_of "auth")) with 10. cbn. lia.
Defined.

Lemma window_start_bounds (now span : Z) :
  0 < span ->
  (now - now mod span + span) mod span = 0
  /\ now < now - now mod span + span <= now + span.
Proof.
  intros H. split.
  - replace (now - now mod span + span) with ((now / span + 1) * span)
      by (rewrite (Z.mod_eq now span) by lia; ring).
    apply Z_mod_mult.
  - pose proof (Z.mod_pos_bound now span H). lia.
Qed.

Lemma zcard_nonneg (now : Z) (key : string) (db : redis_db) : 0 <= zcard now key db.
Proof. unfold zcard. destruct (live _ _ _) as [[z d]|]; lia. Qed.

Lemma memory_get_usage_result (c : call) (key : string) (span : Z) (lim : limiter) :
  match (_memory_get_usage c key span lim).2 with
  | Ok (count, start) => 0 <= count /\ start = now_memory c - now_memory c mod span
  | Raise _ => True
  end.
Proof.
  unfold _memory_get_usage.
  destruct (memory_store lim !! key) as [[l|n]|] eqn:E; rewrite ?E, ?lookup_insert_eq;
    cbn [snd]; auto with lia.
Qed.

Lemma get_current_usage_result (c : call) (key : string) (span : Z) (lim : limiter) :
  match (_get_current_usage c key span lim).2 with
  | Ok (count, start) =>
      0 <= count
      /\ (start = now_usage c - now_usage c mod span
          \/ start = now_memory c - now_memory c mod span)
  | Raise _ => True
  end.
Proof.
  pose proof (memory_get_usage_result c key span lim) as Hm.
  unfold _get_current_usage.
  destruct (redis_client lim) as [db|]; [destruct (up_usage c)|].
  - cbn [snd]. split; [apply zcard_nonneg|now left].
  - destruct (_memory_get_usage c key span lim) as [lim1 [[count start]|e]];
      cbn [snd] in *; [|exact I]. destruct Hm. auto.
  - destruct (_memory_get_usage c key span lim) as [lim1 [[count start]|e]];
      cbn [snd] in *; [|exact I]. destruct Hm. auto.
Qed.

(** X18: the fields of a verdict agree with each other, in every mode: an
    allowed call reports the configured limit and window, a count between 1
    and the limit and the remaining quota [limit - count]; a denial reports a
    delay between 60 and 960 seconds and a remaining quota between 0 and the
    limit; the reset time of both is a multiple of the window that lies after
    the clock reading it was computed from and at most one window later. *)
Theorem verdict_fields_are_consistent (c : call) (identifier action : string)
    (lim : limiter) :
  match (check_rate_limit c identifier action lim).2 with
  | Ok (Allowed current_count limit window' remaining reset_time) =>
      limit = requests (config_of action) /\ window' = window (config_of action)
      /\ 1 <= current_count <= limit /\ remaining = limit - current_count
      /\ reset_time mod window' = 0
      /\ (now_usage c < reset_time <= now_usage c + window'
          \/ now_memory c < reset_time <= now_memory c + window')
  | Ok (TooManyRequests _ delay _ remaining reset) =>
      60 <= delay <= 960 /\ 0 <= remaining <= requests (config_of action)
      /\ reset mod window (config_of action) = 0
      /\ (now_usage c < reset <= now_usage c + window (config_of action)
          \/ now_memory c < reset <= now_memory c + window (config_of action))
  | Raise _ => True
  end.
Proof.
  set (limit := requests (config_of action)).
  set (span := window (config_of action)).
  destruct (config_positive action) as (Hreq & Hwin & Hburst).
  fold limit span in Hreq, Hwin.
  pose proof (window_start_bounds (now_usage c) span Hwin) as [Hu1 Hu2].
  pose proof (window_start_bounds (now_memory c) span Hwin) as [Hm1 Hm2].
  unfold check_rate_limit. fold limit span. unfold_op.
  pose proof (get_current_usage_result c (_get_rate_limit_key identifier action) span lim)
    as Husage.
  destruct (_get_current_usage _ _ _ _) as [lim1 [[count start]|e]]; [|exact I].
  cbn [snd] in Husage. destruct Husage as [Hcount Hstart].
  match goal with
  | |- context [match redis_client lim1 with
                | Some db => if up_burst c then (lim1, @?x db) else (lim1, ?y)
                | None => _ end] =>
      destruct (match redis_client lim1 with
                | Some db => if up_burst c then (lim1, x db) else (lim1, y)
                | None => (lim1, y) end) as [lim2 [recent|e]]
  end; [|exact I].
  destruct (_get_violation_count c identifier lim2) as [lim3 [violation_count|e]]; [|exact I].
  pose proof (penalty_delay_range violation_count) as Hdelay.
  destruct (Z.geb_spec count limit) as [Hge|Hlt];
    [|destruct (Z.geb_spec recent (burst (config_of action)))].
  - destruct (_record_violation c identifier lim3) as [lim4 [[]|e]]; [|exact I].
    cbn [snd]. destruct Hstart as [-> | ->]; repeat split; auto with lia.
  - destruct (_record_violation c identifier lim3) as [lim4 [[]|e]]; [|exact I].
    cbn [snd]. destruct Hstart as [-> | ->]; repeat split; auto with lia.
  - destruct (_record_request c _ span lim3) as [lim4 [[]|e]]; [|exact I].
    cbn [snd]. destruct Hstart as [-> | ->]; repeat split; auto with lia.
Qed.

End LimiterFacts.

(** ** The calendar *)

Module CalendarFacts.

Ltac div_lia := Z.div_mod_to_equations; lia.

Lemma all_from_spec (check : Z -> bool) (n : nat) :
  forall start, all_from check start n = true ->
  forall r, start <= r < start + Z.of_nat n -> check r = true.
Proof.
  induction n as [|n IH]; intros start H r Hr; [lia|].
  cbn [all_from] in H. apply andb_true_iff in H as [H0 H1].
  destruct (Z.eq_dec r start) as [->|Hne]; [exact H0|].
  apply (IH (start + 1) H1). lia.
Qed.

(** *** Leap years and the length of a year *)

Lemma is_leap_true (y : Z) :
  _is_leap y = true <-> y mod 4 = 0 /\ (y mod 100 <> 0 \/ y mod 400 = 0).
Proof.
  unfold _is_leap.
  rewrite andb_true_iff, orb_true_iff, negb_true_iff, !Z.eqb_eq, Z.eqb_neq.
  reflexivity.
Qed.

Lemma is_leap_false (y : Z) :
  _is_leap y = false <-> y mod 4 <> 0 \/ (y mod 100 = 0 /\ y mod 400 <> 0).
Proof.
  rewrite <- not_true_iff_false, is_leap_true.
  destruct (Z.eq_dec (y mod 4) 0), (Z.eq_dec (y mod 100) 0), (Z.eq_dec (y mod 400) 0);
    lia.
Qed.

(** Case analysis on a leap-year test, leaving arithmetic facts. *)
Ltac case_leap y :=
  let L := fresh "Hleap" in
  destruct (_is_leap y) eqn:L;
  [apply is_leap_true in L | apply is_leap_false in L].

Lemma days_in_year (y : Z) :
  _days_before_year (y + 1) = _days_before_year y + 365 + (if _is_leap y then 1 else 0).
Proof. unfold _days_before_year. case_leap y; div_lia. Qed.

Lemma days_before_year_split (q n100 n4 n1 : Z) :
  0 <= n100 <= 3 -> 0 <= n4 <= 24 -> 0 <= n1 <= 3 ->
  _days_before_year (400 * q + 100 * n100 + 4 * n4 + n1 + 1)
  = 146097 * q + 36524 * n100 + 1461 * n4 + 365 * n1.
Proof. intros. unfold _days_before_year. div_lia. Qed.

Lemma is_leap_split (q n100 n4 n1 : Z) :
  0 <= n100 <= 3 -> 0 <= n4 <= 24 -> 0 <= n1 <= 3 ->
  _is_leap (400 * q + 100 * n100 + 4 * n4 + n1 + 1)
  = (n1 =? 3) && (negb (n4 =? 24) || (n100 =? 3)).
Proof.
  intros. case_leap (400 * q + 100 * n100 + 4 * n4 + n1 + 1); symmetry.
  - rewrite andb_true_iff, orb_true_iff, negb_true_iff, !Z.eqb_eq, Z.eqb_neq. div_lia.
  - rewrite andb_false_iff, orb_false_iff, negb_false_iff, !Z.eqb_eq, !Z.eqb_neq. div_lia.
Qed.

(** *** From the day of the year to the month *)

Lemma month_and_day_checked :
  all_from (month_and_day_ok false) 0 365 && all_from (month_and_day_ok true) 0 366 = true.
Proof. vm_compute. reflexivity. Qed.

Lemma month_and_day_spec (y n : Z) :
  0 <= n < 365 + (if _is_leap y then 1 else 0) ->
  let '(m, d) := month_and_day n (_is_leap y) in
  1 <= m <= 12 /\ 1 <= d <= _days_in_month y m /\ _days_before_month y m + d = n + 1.
Proof.
  intros Hn.
  assert (Hok : month_and_day_ok (_is_leap y) n = true).
  { pose proof month_and_day_checked as H. apply andb_true_iff in H as [Hf Ht].
    destruct (_is_leap y).
    - apply (all_from_spec _ _ _ Ht). lia.
    - apply (all_from_spec _ _ _ Hf). lia. }
  unfold month_and_day_ok in Hok.
  destruct (month_and_day n (_is_leap y)) as [m d]. cbv beta zeta in Hok.
  unfold _days_in_month, _days_before_month.
  repeat (apply andb_true_iff in Hok as [Hok ?]).
  repeat match goal with
         | H : (_ <=? _) = true |- _ => apply Z.leb_le in H
         | H : (_ =? _) = true |- _ => apply Z.eqb_eq in H
         end.
  destruct (Z.eqb_spec m 2) as [->|Hm2].
  - change (table _DAYS_IN_MONTH 2) with 28 in *. change (2 >? 2) with false in *.
    cbn [andb] in *. destruct (_is_leap y); cbn [andb] in *; lia.
  - cbn [andb] in *. destruct (m >? 2), (_is_leap y); cbn [andb] in *; lia.
Qed.

(** *** The two conversions agree *)

(** The date found for an ordinal is a date of the calendar and has that
    ordinal. *)
Lemma ord2ymd_sound (n : Z) :
  let '(y, m, d) := _ord2ymd n in
  _ymd2ord y m d = n /\ 1 <= m <= 12 /\ 1 <= d <= _days_in_month y m.
Proof.
  unfold _ord2ymd, _DI400Y, _DI100Y, _DI4Y. cbv zeta.
  set (n0 := n - 1).
  set (q := n0 / 146097). set (r1 := n0 mod 146097).
  set (n100 := r1 / 36524). set (r2 := r1 mod 36524).
  set (n4 := r2 / 1461). set (r3 := r2 mod 1461).
  set (n1 := r3 / 365). set (r4 := r3 mod 365).
  assert (H1 : n0 = 146097 * q + r1 /\ 0 <= r1 < 146097) by (subst q r1; div_lia).
  assert (H2 : r1 = 36524 * n100 + r2 /\ 0 <= r2 < 36524) by (subst n100 r2; div_lia).
  assert (H3 : r2 = 1461 * n4 + r3 /\ 0 <= r3 < 1461) by (subst n4 r3; div_lia).
  assert (H4 : r3 = 365 * n1 + r4 /\ 0 <= r4 < 365) by (subst n1 r4; div_lia).
  clearbody q r1 n100 r2 n4 r3 n1 r4.
  destruct ((n1 =? 4) || (n100 =? 4)) eqn:Hlast.
  - apply orb_true_iff in Hlast. rewrite !Z.eqb_eq in Hlast.
    split; [|split; [lia|]].
    + unfold _ymd2ord, _days_before_year, _days_before_month.
      change (table _DAYS_BEFORE_MONTH 12) with 334. change (12 >? 2) with true.
      cbn [andb].
      case_leap (q * 400 + 1 + n100 * 100 + n4 * 4 + n1 - 1); div_lia.
    + unfold _days_in_month. change (12 =? 2) with false. cbn [andb].
      change (table _DAYS_IN_MONTH 12) with 31. lia.
  - apply orb_false_iff in Hlast as [Hn1 Hn100]. apply Z.eqb_neq in Hn1, Hn100.
    replace (q * 400 + 1 + n100 * 100 + n4 * 4 + n1)
      with (400 * q + 100 * n100 + 4 * n4 + n1 + 1) by lia.
    rewrite <- (is_leap_split q n100 n4 n1) by lia.
    pose proof (month_and_day_spec (400 * q + 100 * n100 + 4 * n4 + n1 + 1) r4) as Hmd.
    destruct (month_and_day r4 _) as [m d].
    destruct Hmd as (Hm & Hd & Hsum); [destruct (_is_leap _); lia|].
    split; [|tauto]. unfold _ymd2ord. rewrite days_before_year_split by lia. lia.
Qed.

(** *** Months as intervals of ordinals *)

(** Evaluate the table entries and the tests on a literal month. *)
Ltac eval_tables :=
  repeat match goal with
         | |- context [table ?t ?k] =>
             let v := eval vm_compute in (table t k) in change (table t k) with v
         | |- context [?k >? 2] =>
             let v := eval vm_compute in (k >? 2) in change (k >? 2) with v
         | |- context [?k =? 2] =>
             let v := eval vm_compute in (k =? 2) in change (k =? 2) with v
         end;
  cbn [andb].

Ltac month_cases m :=
  let H := fresh in
  assert (H : m = 1 \/ m = 2 \/ m = 3 \/ m = 4 \/ m = 5 \/ m = 6 \/ m = 7
              \/ m = 8 \/ m = 9 \/ m = 10 \/ m = 11 \/ m = 12) by lia;
  repeat (destruct H as [->|H]); [..|subst m].

Lemma ymd2ord_day (y m d : Z) : _ymd2ord y m d = _ymd2ord y m 1 + d - 1.
Proof. unfold _ymd2ord. lia. Qed.

Lemma month_length_bounds (y m : Z) :
  1 <= m <= 12 -> 28 <= _days_in_month y m <= 31.
Proof.
  intros Hm. unfold _days_in_month.
  month_cases m; eval_tables; destruct (_is_leap y); lia.
Qed.

Lemma next_month_start (y m m' : Z) :
  1 <= m <= 11 -> m' = m + 1 ->
  _ymd2ord y m' 1 = _ymd2ord y m 1 + _days_in_month y m.
Proof.
  intros Hm ->. unfold _ymd2ord, _days_in_month, _days_before_month.
  generalize (_days_before_year y) as b. intros b.
  month_cases m; try lia; cbn [Z.add Pos.add Pos.succ]; eval_tables;
    destruct (_is_leap y); lia.
Qed.

Lemma next_year_start (y : Z) :
  _ymd2ord (y + 1) 1 1 = _ymd2ord y 12 1 + _days_in_month y 12.
Proof.
  unfold _ymd2ord, _days_in_month, _days_before_month. rewrite days_in_year.
  eval_tables. destruct (_is_leap y); lia.
Qed.

Lemma month_start_index (y m : Z) :
  1 <= m <= 12 -> month_start (month_index y m) = _ymd2ord y m 1.
Proof.
  intros Hm. unfold month_start, month_index.
  replace ((12 * y + (m - 1)) / 12) with y by div_lia.
  replace ((12 * y + (m - 1)) mod 12 + 1) with m by div_lia.
  reflexivity.
Qed.

Lemma month_start_succ (j : Z) :
  month_start (j + 1) = month_start j + _days_in_month (j / 12) (j mod 12 + 1).
Proof.
  assert (Hj : j = month_index (j / 12) (j mod 12 + 1)) by (unfold month_index; div_lia).
  assert (Hm : 1 <= j mod 12 + 1 <= 12) by div_lia.
  set (y := j / 12) in *. set (m := j mod 12 + 1) in *. clearbody y m. subst j.
  rewrite (month_start_index y m Hm).
  destruct (Z.eq_dec m 12) as [->|Hne].
  - replace (month_index y 12 + 1) with (month_index (y + 1) 1)
      by (unfold month_index; lia).
    rewrite month_start_index by lia. apply next_year_start.
  - replace (month_index y m + 1) with (month_index y (m + 1))
      by (unfold month_index; lia).
    rewrite month_start_index by lia. apply next_month_start; lia.
Qed.

Lemma month_start_year (j : Z) :
  month_start j + 365 <= month_start (j + 12) <= month_start j + 366.
Proof.
  unfold month_start.
  replace ((j + 12) / 12) with (j / 12 + 1) by div_lia.
  replace ((j + 12) mod 12) with (j mod 12) by div_lia.
  unfold _ymd2ord, _days_before_month. rewrite days_in_year.
  destruct (j mod 12 + 1 >? 2), (_is_leap (j / 12)), (_is_leap (j / 12 + 1));
    cbn [andb]; lia.
Qed.

Lemma month_start_months (k : nat) (j : Z) :
  month_start j + 28 * Z.of_nat k <= month_start (j + Z.of_nat k).
Proof.
  induction k as [|k IH].
  - replace (j + Z.of_nat 0) with j by lia. lia.
  - replace (j + Z.of_nat (S k)) with (j + Z.of_nat k + 1) by lia.
    rewrite month_start_succ.
    pose proof (month_length_bounds ((j + Z.of_nat k) / 12) ((j + Z.of_nat k) mod 12 + 1)
                  ltac:(div_lia)).
    lia.
Qed.

Lemma month_start_years (k : nat) (j : Z) :
  month_start j + 365 * Z.of_nat k <= month_start (j + 12 * Z.of_nat k)
  <= month_start j + 366 * Z.of_nat k.
Proof.
  induction k as [|k IH].
  - replace (j + 12 * Z.of_nat 0) with j by lia. lia.
  - replace (j + 12 * Z.of_nat (S k)) with (j + 12 * Z.of_nat k + 12) by lia.
    pose proof (month_start_year (j + 12 * Z.of_nat k)). lia.
Qed.

Lemma month_start_mono (j j' : Z) : j <= j' -> month_start j <= month_start j'.
Proof.
  intros H. pose proof (month_start_months (Z.to_nat (j' - j)) j) as Hk.
  replace (j + Z.of_nat (Z.to_nat (j' - j))) with j' in Hk by lia. lia.
Qed.

(** A day lies in the month that [_ord2ymd] finds for it. *)
Lemma in_its_month (n : Z) :
  month_start (months_of n) <= n < month_start (months_of n + 1).
Proof.
  unfold months_of. pose proof (ord2ymd_sound n) as H.
  destruct (_ord2ymd n) as [[y m] d]. destruct H as (Hn & Hm & Hd).
  rewrite month_start_succ, (month_start_index y m Hm).
  replace (month_index y m / 12) with y by (unfold month_index; div_lia).
  replace (month_index y m mod 12 + 1) with m by (unfold month_index; div_lia).
  rewrite ymd2ord_day in Hn. lia.
Qed.

Lemma months_of_ge (n j : Z) : month_start j <= n -> j <= months_of n.
Proof.
  intros H. destruct (Z.le_gt_cases j (months_of n)) as [|Hlt]; [assumption|].
  pose proof (in_its_month n).
  pose proof (month_start_mono (months_of n + 1) j ltac:(lia)). lia.
Qed.

Lemma months_of_lt (n j : Z) : n < month_start j -> months_of n < j.
Proof.
  intros H. destruct (Z.lt_ge_cases (months_of n) j) as [|Hge]; [assumption|].
  pose proof (in_its_month n).
  pose proof (month_start_mono j (months_of n) ltac:(lia)). lia.
Qed.

(** The ordinal of a date leads back to the date. *)
Lemma ord2ymd_ymd2ord (y m d : Z) :
  1 <= m <= 12 -> 1 <= d <= _days_in_month y m ->
  _ord2ymd (_ymd2ord y m d) = (y, m, d).
Proof.
  intros Hm Hd. set (n := _ymd2ord y m d).
  assert (Hin : month_start (month_index y m) <= n < month_start (month_index y m + 1)).
  { rewrite month_start_succ, (month_start_index y m Hm).
    replace (month_index y m / 12) with y by (unfold month_index; div_lia).
    replace (month_index y m mod 12 + 1) with m by (unfold month_index; div_lia).
    unfold n. rewrite (ymd2ord_day y m d). lia. }
  assert (Hj : months_of n = month_index y m).
  { pose proof (months_of_ge n _ (proj1 Hin)).
    pose proof (months_of_lt n _ (proj2 Hin)). lia. }
  unfold months_of in Hj. pose proof (ord2ymd_sound n) as H.
  destruct (_ord2ymd n) as [[y' m'] d']. destruct H as (Hn & Hm' & Hd').
  unfold month_index in Hj.
  assert (y' = y) by lia. assert (m' = m) by lia. subst y' m'.
  unfold n in Hn. rewrite (ymd2ord_day y m d'), (ymd2ord_day y m d) in Hn.
  repeat f_equal. lia.
Qed.

(** *** How many months a number of days spans *)

Lemma month_start_plus (j k years : Z) :
  0 <= years -> k = 12 * years ->
  month_start j + 365 * years <= month_start (j + k) <= month_start j + 366 * years.
Proof.
  intros Hy ->. pose proof (month_start_years (Z.to_nat years) j) as H.
  rewrite Z2Nat.id in H by assumption. exact H.
Qed.

Lemma month_start_before (j : Z) : month_start j + 28 <= month_start (j + 1).
Proof.
  pose proof (month_start_months 1 j) as H. change (Z.of_nat 1) with 1 in H. lia.
Qed.

Lemma months_ahead_at_least (n a : Z) :
  (360 <= a -> months_of n + 11 <= months_of (n + a))
  /\ (1080 <= a -> months_of n + 35 <= months_of (n + a)).
Proof.
  pose proof (in_its_month n) as Hn. set (j := months_of n) in *.
  pose proof (month_start_plus j 12 1 ltac:(lia) ltac:(lia)) as Y1.
  pose proof (month_start_plus j 36 3 ltac:(lia) ltac:(lia)) as Y3.
  pose proof (month_start_before (j + 11)) as M1.
  pose proof (month_start_before (j + 35)) as M3.
  replace (j + 11 + 1) with (j + 12) in M1 by lia.
  replace (j + 35 + 1) with (j + 36) in M3 by lia.
  split; intros Ha; apply months_of_ge; lia.
Qed.

Lemma months_ahead_at_most (n a : Z) :
  (a <= 720 -> months_of (n + a) <= months_of n + 24)
  /\ (a <= 1800 -> months_of (n + a) <= months_of n + 60).
Proof.
  pose proof (in_its_month n) as Hn. set (j := months_of n) in *.
  pose proof (month_start_plus (j + 1) 24 2 ltac:(lia) ltac:(lia)) as Y2.
  pose proof (month_start_plus (j + 1) 60 5 ltac:(lia) ltac:(lia)) as Y5.
  split; intros Ha.
  - assert (months_of (n + a) < j + 1 + 24) by (apply months_of_lt; lia). lia.
  - assert (months_of (n + a) < j + 1 + 60) by (apply months_of_lt; lia). lia.
Qed.

End CalendarFacts.

(** ** The expiry date *)

Module ExpiryFacts.
Import CardGenerator CalendarFacts.

Lemma randint_range (lo hi : Z) (g : rng) :
  lo <= hi ->
  exists v, randint lo hi g = Ok (v, fun n => g (S n)) /\ lo <= v <= hi.
Proof.
  intros H. unfold randint.
  destruct (Z.ltb_spec hi lo) as [Hlt|_]; [lia|].
  unfold_rand. unfold draw. eexists. split; [reflexivity|].
  pose proof (Z.mod_pos_bound (Z.of_nat (g 0%nat)) (hi - lo + 1) ltac:(lia)). lia.
Qed.

Lemma toordinal_positive (y m d : Z) : valid_date y m d -> 1 <= _ymd2ord y m d.
Proof.
  intros ((Hy & _) & Hm & Hd & _).
  rewrite ymd2ord_day, <- (month_start_index y m Hm).
  pose proof (month_start_mono (month_index 1 1) (month_index y m)
                ltac:(unfold month_index; lia)) as H.
  change (month_start (month_index 1 1)) with 1 in H. lia.
Qed.

(** Counterexample to C9: a prepaid card generated on 1 January 2025 with
    the smallest draw gets the expiry 12/2025: eleven months after the month
    of generation, not twelve. *)
Lemma prepaid_expiry_eleven_months_ahead :
  (exists g', generate_expiry new_year_2025 (Some "PREPAID"%string) (always 0)
              = Ok ("12/2025"%string, g'))
  /\ month_index 2025 12 - month_index (year new_year_2025) (month new_year_2025) = 11.
Proof. split; [eexists|]; reflexivity. Qed.

(** C9, amended: for every category and every generation date of the
    calendar (far enough from its end for the addition not to overflow), the
    expiry is returned and is the month and year of the day that lies
    30 * months days after the generation date, with months between 12 and 24
    for the prepaid category and between 36 and 60 otherwise; the expiry
    month is strictly after the month of generation: between 11 and 24
    calendar months ahead for prepaid, between 35 and 60 otherwise. *)
Theorem expiry_horizon (now : datetime) (card_type : option string) (g : rng) :
  valid_date (year now) (month now) (day now) ->
  toordinal now + 1800 <= MAXORDINAL ->
  exists y m d months g',
    generate_expiry now card_type g = Ok (pad2 m +:+ "/" +:+ str y, g')
    /\ _ord2ymd (toordinal now + 30 * months) = (y, m, d)
    /\ 1 <= m <= 12
    /\ (if is_prepaid card_type then 12 <= months <= 24 else 36 <= months <= 60)
    /\ (if is_prepaid card_type
        then 11 <= month_index y m - month_index (year now) (month now) <= 24
        else 35 <= month_index y m - month_index (year now) (month now) <= 60).
Proof.
  intros Hvalid Hmax.
  pose proof (toordinal_positive _ _ _ Hvalid) as Hpos. fold (toordinal now) in Hpos.
  assert (Hnow : months_of (toordinal now) = month_index (year now) (month now)).
  { destruct Hvalid as (_ & Hm & Hd). unfold months_of, toordinal.
    now rewrite (ord2ymd_ymd2ord _ _ _ Hm Hd). }
  assert (Hdraw : exists months,
             (if is_prepaid card_type then randint 12 24 else randint 36 60) g
             = Ok (months, fun n => g (S n))
             /\ (if is_prepaid card_type then 12 <= months <= 24 else 36 <= months <= 60)).
  { destruct (is_prepaid card_type); apply randint_range; lia. }
  destruct Hdraw as (months & Hdraw & Hrange).
  assert (Hdays : 360 <= 30 * months <= 1800
                  /\ (if is_prepaid card_type then 30 * months <= 720
                      else 1080 <= 30 * months)).
  { destruct (is_prepaid card_type); lia. }
  pose proof (ord2ymd_sound (toordinal now + 30 * months)) as Hsound.
  pose proof (months_ahead_at_least (toordinal now) (30 * months)) as [Hlow1 Hlow3].
  pose proof (months_ahead_at_most (toordinal now) (30 * months)) as [Hhigh2 Hhigh5].
  destruct (_ord2ymd (toordinal now + 30 * months)) as [[y m] d] eqn:Hdate.
  assert (Hthen : months_of (toordinal now + 30 * months) = month_index y m)
    by (unfold months_of; now rewrite Hdate).
  rewrite Hthen, Hnow in Hlow1, Hlow3, Hhigh2, Hhigh5.
  exists y, m, d, months, (fun n => g (S n)).
  split; [|split; [exact Hdate|split; [tauto|split; [exact Hrange|]]]].
  - unfold generate_expiry. unfold_rand. rewrite Hdraw.
    unfold add_days. replace (months * 30) with (30 * months) by lia.
    destruct (Z.ltb_spec 0 (toordinal now + 30 * months)); [|lia].
    destruct (Z.leb_spec (toordinal now + 30 * months) MAXORDINAL); [|lia].
    cbn [andb]. rewrite Hdate. reflexivity.
  - destruct (is_prepaid card_type); lia.
Qed.

Lemma expiry_horizon_witness :
  exists y m d months g',
    generate_expiry new_year_2025 (Some "PREPAID"%string) (always 0)
    = Ok (pad2 m +:+ "/" +:+ str y, g')
    /\ _ord2ymd (toordinal new_year_2025 + 30 * months) = (y, m, d)
    /\ 1 <= m <= 12
    /\ (if is_prepaid (Some "PREPAID"%string) then 12 <= months <= 24
        else 36 <= months <= 60)
    /\ (if is_prepaid (Some "PREPAID"%string)
        then 11 <= month_index y m
                   - month_index (year new_year_2025) (month new_year_2025) <= 24
        else 35 <= month_index y m
                   - month_index (year new_year_2025) (month new_year_2025) <= 60).
Proof.
  apply (expiry_horizon new_year_2025 (Some "PREPAID"%string) (always 0)).
  - unfold valid_date. cbn [year month day new_year_2025].
    change (_days_in_month 2025 1) with 31. lia.
  - change (toordinal new_year_2025) with 739252. unfold MAXORDINAL. lia.
Defined.

End ExpiryFacts.

(** ** The identity of a client *)

Module ClientFacts.
Import CardGenerator RateLimiter ClientIdentifier LimiterFacts.

(** X21: without a client address the forwarding headers are not read: for
    a request without user id (or with the id 0, which the test [if user_id]
    takes for none) and without [request.client], the identity is
    "ip:unknown" followed by the hash of the user agent, whatever the headers
    cf-connecting-ip, x-forwarded-for and x-real-ip hold; all such requests
    with one user agent share one identity. *)
Theorem forwarding_headers_ignored_without_client (hash : string -> Z)
    (request : Request) (user_id : option Z) :
  client_host request = None ->
  user_id = None \/ user_id = Some 0 ->
  _get_client_identifier hash request user_id
  = "ip:unknown:ua:"
    +:+ str (hash (take 50 (default EmptyString (headers request "user-agent")))
             mod 10000).
Proof.
  unfold _get_client_identifier. intros -> [-> | ->]; reflexivity.
Qed.

Lemma forwarding_headers_ignored_without_client_witness :
  _get_client_identifier (fun _ => 42) without_client (Some 0)
  = "ip:unknown:ua:"
    +:+ str ((fun _ => 42)
               (take 50 (default EmptyString (headers without_client "user-agent")))
             mod 10000).
Proof.
  apply (forwarding_headers_ignored_without_client (fun _ => 42) without_client (Some 0));
    [reflexivity|now right].
Defined.

Lemma forwarded_identifier (hash : string -> Z) (user_agent : option string)
    (cr : call * Request) :
  forwarded user_agent cr ->
  exists h, headers cr.2 "cf-connecting-ip" = Some h
            /\ _get_client_identifier hash cr.2 None
               = "ip:" +:+ h +:+ ":ua:"
                 +:+ str (hash (take 50 (default EmptyString user_agent)) mod 10000).
Proof.
  intros (Hclient & Hua & Hcf). unfold _get_client_identifier.
  destruct Hclient as [host ->]. rewrite Hua.
  destruct (headers cr.2 "cf-connecting-ip") as [h|]; [|discriminate].
  exists h. split; [reflexivity|]. cbn [or_else]. cbn [truthy] in Hcf.
  now destruct (String.eqb h EmptyString).
Qed.

Lemma serve_rotating (hash : string -> Z) (action : string) (user_agent : option string)
    (requests : list (call * Request)) :
  Forall (forwarded user_agent) requests ->
  NoDup (map (fun cr => headers cr.2 "cf-connecting-ip") requests) ->
  forall lim,
    redis_client lim = None ->
    Forall (fun cr =>
              let identifier := _get_client_identifier hash cr.2 None in
              memory_store lim !! _get_rate_limit_key identifier action = None
              /\ memory_store lim !! _get_violation_key identifier = None) requests ->
    Forall (fun r => allowed r = true) (serve hash action requests lim).2.
Proof.
  induction 1 as [|[c request] rest Hfw Hrest IH]; intros Hdup lim Hc Hfresh;
    cbn [serve]; [constructor|].
  cbn [map] in Hdup. apply NoDup_cons in Hdup as [Hnotin Hdup].
  inversion Hfresh as [|? ? [Hkey Hvkey] Hfresh']; subst. cbn [snd] in *.
  unfold check_request.
  set (identifier := _get_client_identifier hash request None) in *.
  destruct (check_in_process c identifier action lim [] 0 Hc) as (lim' & Hcheck & Hc' & _).
  { unfold list_at. now rewrite Hkey. }
  { unfold count_at. now rewrite Hvkey. }
  cbv zeta in Hcheck. cbn [live_at List.filter length] in Hcheck.
  destruct (config_positive action) as (Hreq & _).
  replace (Z.of_nat 0 <? requests (config_of action)) with true in Hcheck
    by (symmetry; apply Z.ltb_lt; lia).
  pose proof (check_rate_limit_frame c identifier action lim) as [Hframe _].
  rewrite Hcheck in Hframe |- *. cbn [fst] in Hframe.
  specialize (IH Hdup lim' Hc').
  destruct (serve hash action rest lim') as [lim'' rs]. cbn [snd] in *.
  constructor; [reflexivity|]. apply IH.
  rewrite Forall_forall in Hfresh', Hrest |- *. intros cr Hin.
  destruct (Hfresh' cr Hin) as [Hk Hv]. cbv zeta.
  destruct (forwarded_identifier hash user_agent (c, request) Hfw) as (h & Hh & Hid).
  destruct (forwarded_identifier hash user_agent cr (Hrest cr Hin)) as (h' & Hh' & Hid').
  cbn [snd] in Hh, Hid. fold identifier in Hid.
  assert (Hne : _get_client_identifier hash cr.2 None <> identifier).
  { rewrite Hid, Hid'. intros E. apply string_app_inv_head, string_app_inv_tail in E.
    apply Hnotin. rewrite Hh, <- E, <- Hh'.
    apply list_elem_of_fmap. now exists cr. }
  set (identifier' := _get_client_identifier hash cr.2 None) in *.
  assert (H1 : _get_rate_limit_key identifier' action <> _get_rate_limit_key identifier action).
  { intros E. apply Hne. unfold _get_rate_limit_key in E.
    now do 3 apply string_app_inv_head in E. }
  assert (H2 : _get_violation_key identifier' <> _get_violation_key identifier).
  { intros E. apply Hne. unfold _get_violation_key in E.
    now apply string_app_inv_head in E. }
  assert (H3 : _get_violation_key identifier' <> _get_rate_limit_key identifier action).
  { intros E. symmetry in E. revert E. apply keys_differ. }
  pose proof (keys_differ identifier' action identifier) as H4.
  rewrite !Hframe by assumption. auto.
Qed.

(** X20: the limit follows a header the client sets: on the in-process
    limiter as the module builds it, requests without user id that carry
    pairwise different non-empty cf-connecting-ip headers (from any client
    addresses, with one user agent) are counted under different identities,
    so all of them are allowed, however many they are and whenever they
    arrive. *)
Theorem rotating_a_header_evades_the_limit (hash : string -> Z) (action : string)
    (user_agent : option string) (requests : list (call * Request)) :
  Forall (forwarded user_agent) requests ->
  NoDup (map (fun cr => headers cr.2 "cf-connecting-ip") requests) ->
  Forall (fun r => allowed r = true) (serve hash action requests in_process).2.
Proof.
  intros Hfw Hdup. apply (serve_rotating hash action user_agent); auto.
  apply Forall_forall. intros cr _. cbv zeta. split; apply lookup_empty.
Qed.

Lemma rotating_a_header_evades_the_limit_witness :
  Forall (fun r => allowed r = true)
    (serve (fun _ => 42) "auth"
       (map (fun j => (at_time 1000, forwarded_for (str (Z.of_nat j)))) (seq 0 12))
       in_process).2.
Proof.
  apply (rotating_a_header_evades_the_limit (fun _ => 42) "auth"
           (Some "curl/8.5.0"%string)).
  - repeat constructor; eexists; reflexivity.
  - vm_compute.
    repeat (constructor; [rewrite ?elem_of_cons, elem_of_nil; intuition discriminate|]).
    constructor.
Defined.

End ClientFacts.

(** ** The callers of the generator *)

Module CallerFacts.
Import CardGenerator PremiumFeatures GeneratorFacts.

(** X22: [generate_card_with_avs] never returns a card: it raises
    [ValueError] for a user who is not premium, for a country outside the
    postal-code table and for a BIN that [validate_bin] rejects, with that
    check's message; past these checks it returns the empty list when
    [count] is not positive and raises [NameError] for the name [i] in the
    first pass of its loop otherwise, through [create_card_number]. *)
Theorem generate_card_with_avs_never_returns_a_card (sha256_hexdigest : string -> string)
    (premium : bool) (current_year : nat -> Z) (utcnow : nat -> string)
    (bin_input country_code : string) (db : Session) (count : Z) (g : rng) :
  generate_card_with_avs sha256_hexdigest premium current_year utcnow bin_input
    country_code db count g
  = if negb premium then
      Raise (ValueError "AVS generation requires premium subscription")
    else if negb (bool_decide (upper country_code ∈ map fst AVS_POSTAL_CODES)) then
      Raise (ValueError ("AVS not supported for " +:+ country_code))
    else if negb (validate_bin bin_input db).1.1 then
      Raise (ValueError (validate_bin bin_input db).1.2)
    else if count <=? 0 then Ok ([], g)
    else Raise (NameError "i").
Proof.
  unfold generate_card_with_avs. destruct premium; [|reflexivity]. cbn [negb].
  pose proof (lookup_postal_codes_spec (upper country_code)) as Hspec.
  destruct (lookup_postal_codes (upper country_code)) as [postal_codes|] eqn:E.
  - rewrite bool_decide_eq_true_2
      by (apply list_elem_of_fmap; exists (upper country_code, postal_codes); auto).
    cbn [negb].
    destruct (validate_bin bin_input db) as [[is_valid message] bin_data].
    cbn [fst snd]. destruct is_valid; [|reflexivity]. cbn [negb].
    destruct (Z.leb_spec count 0) as [Hle|Hlt].
    + replace (Z.to_nat count) with O by lia. reflexivity.
    + destruct (Z.to_nat count) as [|k] eqn:Hk; [lia|].
      unfold_rand. cbn [repeatM]. unfold_rand. unfold one_card. unfold_rand.
      now rewrite create_card_number_raises.
  - now rewrite bool_decide_eq_false_2.
Qed.

(** X23: the validator of the request field [bin] and the service agree on
    inputs without inner white space: when the validator accepts an input
    and the six characters it keeps hold no white space, these have length 6,
    the validator accepts them unchanged, and [validate_bin] classifies them
    as it classifies the input. *)
Theorem validated_bin_is_classified_alike (v n : string) (db : Session) :
  Routes.validate_bin v = Ok n ->
  existsb is_space (chars n) = false ->
  len n = 6
  /\ Routes.validate_bin n = Ok n
  /\ validate_bin n db = validate_bin v db.
Proof.
  unfold Routes.validate_bin.
  destruct (String.eqb v EmptyString); [discriminate|]. cbn [orb].
  destruct (Z.ltb_spec (len (strip v)) 6) as [Hshort|Hlong]; [discriminate|].
  intros [= <-] Hspace.
  assert (Hlen : String.length (take 6 (strip v)) = 6%nat)
    by (rewrite take_length; unfold len in Hlong; lia).
  assert (Hlen' : len (take 6 (strip v)) = 6) by (unfold len; now rewrite Hlen).
  rewrite (strip_no_space _ Hspace), take_take, Hlen'.
  split; [reflexivity|]. split.
  - destruct (String.eqb_spec (take 6 (strip v)) EmptyString) as [E|_]; [|reflexivity].
    rewrite E in Hlen. discriminate.
  - unfold validate_bin.
    rewrite (strip_no_space _ Hspace), take_take, Hlen'.
    now replace (len (strip v) <? 6) with false by (symmetry; apply Z.ltb_ge; lia).
Qed.

Lemma validated_bin_is_classified_alike_witness :
  len "424242" = 6
  /\ Routes.validate_bin "424242" = Ok "424242"%string
  /\ validate_bin "424242" empty_session = validate_bin " 4242424242424242 " empty_session.
Proof.
  apply (validated_bin_is_classified_alike " 4242424242424242 " "424242" empty_session);
    reflexivity.
Defined.

(** X24: a country that the validator of the request field [avs_country]
    lets through with [include_avs] set always has postal codes: for the
    value the validator returns, [generate_avs_postal_code] returns a
    non-empty code, so the check "AVS not supported for country" of
    [generate_test_card] cannot fail behind this validator. *)
Theorem validated_avs_country_has_postal_codes (v : option string) (country : string)
    (g : rng) :
  Routes.validate_avs_country v (Some true) = Ok (Some country) ->
  exists code,
    generate_avs_postal_code country g = Ok (Some code, fun n => g (S n))
    /\ truthy (Some code) = true.
Proof.
  unfold Routes.validate_avs_country. cbn [default andb]. unfold_result.
  destruct (truthy v); [|discriminate].
  destruct (lookup_postal_codes (upper_or_empty v)) as [codes|] eqn:Hcodes;
    [|discriminate].
  intros [= <-].
  assert (Hup : upper (upper_or_empty v) = upper_or_empty v)
    by (destruct v; [apply upper_idempotent|reflexivity]).
  rewrite <- Hup in Hcodes.
  destruct (generate_avs_postal_code_supported _ _ g Hcodes) as (code & _ & _ & Hne & Hgen).
  exists code. split; [exact Hgen|].
  unfold truthy. destruct (String.eqb_spec code EmptyString); [congruence|reflexivity].
Qed.

Lemma validated_avs_country_has_postal_codes_witness :
  exists code,
    generate_avs_postal_code "GB" (always 3) = Ok (Some code, fun n => always 3 (S n))
    /\ truthy (Some code) = true.
Proof.
  apply (validated_avs_country_has_postal_codes (Some "gb"%string) "GB" (always 3)).
  reflexivity.
Defined.

End CallerFacts.

(** ** The daily limit per address *)

Module IPLimitFacts.
Import IPRateLimit.

Lemma increments_cons (c : ip_call) (calls : list ip_call) (ip_address action : string)
    (window_hours : Z) (db : ip_db) :
  increments (c :: calls) ip_address action window_hours db
  = increments calls ip_address action window_hours
      (increment_ip_usage c ip_address action window_hours db).
Proof. reflexivity. Qed.

Lemma plus_hours_in_range (t h : Z) :
  0 < h -> datetime_min <= t -> t + hours h <= datetime_max ->
  plus_hours t h = Ok (t + hours h).
Proof.
  unfold plus_hours, hours, datetime_min, datetime_max. intros Hpos Hmin Hmax.
  replace (h / 24 <? -999999999) with false
    by (symmetry; apply Z.ltb_ge; Z.div_mod_to_equations; lia).
  replace (999999999 <? h / 24) with false
    by (symmetry; apply Z.ltb_ge; Z.div_mod_to_equations; lia).
  replace (t + h * 3600000000 <? -719162 * 86400000000) with false
    by (symmetry; apply Z.ltb_ge; lia).
  now replace (2932897 * 86400000000 - 1 <? t + h * 3600000000) with false
    by (symmetry; apply Z.ltb_ge; lia).
Qed.

Lemma plus_hours_out_of_range (t h : Z) :
  datetime_max < t + hours h -> plus_hours t h = Raise OverflowError.
Proof.
  unfold plus_hours. intros Hmax. destruct (_ || _); [reflexivity|].
  replace (datetime_max <? t + hours h) with true by (symmetry; now apply Z.ltb_lt).
  now rewrite orb_true_r.
Qed.

Lemma redis_setex_in_range (t : Z) (key : string) (h : Z) (u : usage) (db : ip_db) :
  0 < h -> hours h <= datetime_max - datetime_min -> t <= datetime_max ->
  redis_setex t key (h * 3600) u db = Some (<[key := (u, t + hours h)]> db).
Proof.
  unfold redis_setex, seconds, hours, datetime_min, datetime_max. intros Hpos Hh Ht.
  replace (h * 3600 <=? 0) with false by (symmetry; apply Z.leb_gt; lia).
  replace (9223372036854775807 <? t / 1000 + h * 3600 * 1000) with false
    by (symmetry; apply Z.ltb_ge; Z.div_mod_to_equations; lia).
  do 4 f_equal. lia.
Qed.

(** Within the window opened at [first], each increment adds one to the
    count and keeps the reset time. *)
Lemma increments_in_window (ip_address action : string) (window_hours first : Z)
    (times : list Z) :
  0 < window_hours ->
  datetime_min <= first ->
  first + hours window_hours <= datetime_max ->
  Forall (fun t => first <= t < first + hours window_hours) times ->
  forall (db : ip_db) (n deadline : Z),
    db !! ip_key ip_address action
    = Some ({| count := n; reset_time := first + hours window_hours |}, deadline) ->
    first + hours window_hours <= deadline ->
    exists deadline',
      increments (map at_time times) ip_address action window_hours db
        !! ip_key ip_address action
      = Some ({| count := n + Z.of_nat (length times);
                 reset_time := first + hours window_hours |}, deadline')
      /\ first + hours window_hours <= deadline'.
Proof.
  intros Hpos Hmin Hmax.
  induction 1 as [|t times Ht _ IH]; intros db n deadline Hdb Hdeadline.
  - exists deadline. cbn. rewrite Z.add_0_r. auto.
  - cbn [map]. rewrite increments_cons.
    edestruct (IH (increment_ip_usage (at_time t) ip_address action window_hours db))
      as (deadline' & Hfinal & Hd').
    + unfold increment_ip_usage, redis_get. cbn [up now at_time]. cbv zeta.
      rewrite Hdb.
      replace (deadline <=? t) with false by (symmetry; apply Z.leb_gt; lia).
      cbn [reset_time count].
      replace (t >=? first + hours window_hours) with false
        by (symmetry; rewrite Z.geb_leb; apply Z.leb_gt; lia).
      rewrite redis_setex_in_range by lia.
      apply lookup_insert_eq.
    + assert (0 < hours window_hours) by (unfold hours; lia). lia.
    + exists deadline'. split; [|exact Hd'].
      rewrite Hfinal. do 3 f_equal. cbn [length]. lia.
Qed.

(** When the reset time of a new window would lie beyond the last
    [datetime], the increment stores nothing and the check allows the
    request with the full limit, whatever the limit is. *)
Lemma overflow_fails_open (ip_address action : string) (limit window_hours : Z)
    (db : ip_db) (t : Z) :
  redis_get t (ip_key ip_address action) db = None ->
  datetime_max < t + hours window_hours ->
  increment_ip_usage (at_time t) ip_address action window_hours db = db
  /\ check_ip_limit (at_time t) ip_address action limit window_hours db = (true, limit).
Proof.
  intros Hnone Hover. unfold increment_ip_usage, check_ip_limit.
  cbn [up now at_time]. cbv zeta. rewrite Hnone. unfold mbind, result_bind.
  rewrite (plus_hours_out_of_range _ _ Hover). split; reflexivity.
Qed.

(** X25: the daily limit per address is a fixed window opened by the first
    use.  Let an address with no usage on record be incremented at [first],
    a [datetime] whose window of [window_hours] hours ends at a [datetime],
    and then at any further times of that window.  A check made within the
    window sees the number of increments: it refuses with 0 remaining once
    they reach the limit and allows with the rest of the quota before.  A
    check made once the window is over sees no usage at all, and allows with
    the full limit when its own window would end beyond the last
    [datetime]. *)
Theorem ip_quota_is_a_fixed_window (ip_address action : string) (limit window_hours : Z)
    (db : ip_db) (first : Z) (times : list Z) :
  0 < window_hours ->
  datetime_min <= first ->
  first + hours window_hours <= datetime_max ->
  redis_get first (ip_key ip_address action) db = None ->
  Forall (fun t => first <= t < first + hours window_hours) times ->
  (forall t, first <= t < first + hours window_hours ->
     check_ip_limit (at_time t) ip_address action limit window_hours
       (increments (map at_time (first :: times)) ip_address action window_hours db)
     = if 1 + Z.of_nat (length times) >=? limit then (false, 0)
       else (true, limit - (1 + Z.of_nat (length times))))
  /\ (forall t, first + hours window_hours <= t ->
        check_ip_limit (at_time t) ip_address action limit window_hours
          (increments (map at_time (first :: times)) ip_address action window_hours db)
        = if t + hours window_hours <=? datetime_max
          then (if 0 >=? limit then (false, 0) else (true, limit))
          else (true, limit)).
Proof.
  intros Hpos Hmin Hmax Hnone Htimes.
  assert (Hhours : 0 < hours window_hours) by (unfold hours; lia).
  set (db' := increments (map at_time (first :: times)) ip_address action window_hours db).
  assert (Hfirst : increment_ip_usage (at_time first) ip_address action window_hours db
                   !! ip_key ip_address action
                   = Some ({| count := 1; reset_time := first + hours window_hours |},
                           first + hours window_hours)).
  { unfold increment_ip_usage. cbn [up now at_time]. cbv zeta.
    rewrite Hnone. unfold mbind, result_bind.
    rewrite (plus_hours_in_range _ _ Hpos Hmin Hmax).
    rewrite redis_setex_in_range by lia.
    apply lookup_insert_eq. }
  destruct (increments_in_window ip_address action window_hours first times Hpos Hmin Hmax
              Htimes _ 1 _ Hfirst ltac:(lia)) as (deadline & Hdb' & Hdeadline).
  assert (Hdb'' : db' = increments (map at_time times) ip_address action window_hours
                          (increment_ip_usage (at_time first) ip_address action
                             window_hours db)) by reflexivity.
  rewrite <- Hdb'' in Hdb'. clear Hdb''.
  split; intros t Ht; unfold check_ip_limit, redis_get; cbn [up now at_time]; cbv zeta;
    rewrite Hdb'.
  - replace (deadline <=? t) with false by (symmetry; apply Z.leb_gt; lia).
    cbn [reset_time count].
    replace (t >=? first + hours window_hours) with false
      by (symmetry; rewrite Z.geb_leb; apply Z.leb_gt; lia).
    reflexivity.
  - assert (Hfresh : (reset ← plus_hours t window_hours;
                      Ok {| count := 0; reset_time := reset |})
                     = if t + hours window_hours <=? datetime_max
                       then Ok {| count := 0; reset_time := t + hours window_hours |}
                       else Raise OverflowError).
    { unfold mbind, result_bind.
      destruct (Z.leb_spec (t + hours window_hours) datetime_max) as [Hin|Hout].
      - rewrite plus_hours_in_range by lia. reflexivity.
      - rewrite plus_hours_out_of_range by exact Hout. reflexivity. }
    assert (Hanswer : match (if t + hours window_hours <=? datetime_max
                             then Ok {| count := 0; reset_time := t + hours window_hours |}
                             else Raise OverflowError) with
                      | Ok usage => if count usage >=? limit then (false, 0)
                                    else (true, limit - count usage)
                      | Raise _ => (true, limit)
                      end
                      = if t + hours window_hours <=? datetime_max
                        then (if 0 >=? limit then (false, 0) else (true, limit))
                        else (true, limit)).
    { destruct (_ <=? _); [|reflexivity]. cbn [count]. rewrite Z.sub_0_r. reflexivity. }
    destruct (deadline <=? t); cbn [reset_time count].
    + rewrite Hfresh. exact Hanswer.
    + replace (t >=? first + hours window_hours) with true
        by (symmetry; rewrite Z.geb_leb; apply Z.leb_le; lia).
      rewrite Hfresh. exact Hanswer.
Qed.

Lemma ip_quota_is_a_fixed_window_witness :
  (forall t, 1000 <= t < 1000 + hours 24 ->
     check_ip_limit (at_time t) "203.0.113.9" "cc_generation" 3 24
       (increments (map at_time (1000 :: [2000; 3000])) "203.0.113.9" "cc_generation"
          24 ∅)
     = if 1 + Z.of_nat (length [2000; 3000]) >=? 3 then (false, 0)
       else (true, 3 - (1 + Z.of_nat (length [2000; 3000]))))
  /\ (forall t, 1000 + hours 24 <= t ->
        check_ip_limit (at_time t) "203.0.113.9" "cc_generation" 3 24
          (increments (map at_time (1000 :: [2000; 3000])) "203.0.113.9"
             "cc_generation" 24 ∅)
        = if t + hours 24 <=? datetime_max
          then (if 0 >=? 3 then (false, 0) else (true, 3))
          else (true, 3)).
Proof.
  apply (ip_quota_is_a_fixed_window "203.0.113.9" "cc_generation" 3 24 ∅ 1000
           [2000; 3000]).
  - lia.
  - unfold datetime_min. lia.
  - unfold hours, datetime_max. lia.
  - reflexivity.
  - repeat constructor; unfold hours; lia.
Defined.

End IPLimitFacts.
